(** * pyiga: sparsity-aware assembly of mass and stiffness matrices

    A shallow embedding of [pyiga/assemble_tools_cy.pyx] and of the
    properties its specification states about it.

    Conventions of the embedding.
    - C integers ([long], [size_t], [ssize_t], [unsigned]) are integers in
      [Z].  Where the source computes in [size_t] the reduction modulo
      [2^64] is written out ([wrap64]).
    - A [double] is a value of an abstract type [F] with the operations the
      source applies to it ([FloatOps]); [binary64] instantiates it with the
      IEEE-754 binary64 primitives, [exactZ] with exact integer arithmetic.
    - Typed memoryviews are lists (of lists); the source disables bounds
      checks, so a read outside an array is undefined there.  The embedding
      returns a default value for such a read, and theorems state the
      conditions under which no such read happens.
    - [while] loops without a syntactic bound run on fuel and return
      [None] when the fuel is exhausted; theorems give a fuel that is
      enough. *)

From Stdlib Require Import ZArith List Lia Bool.
From Stdlib Require Import Floats.PrimFloat.
From stdpp Require Import gmap list list_numbers.

Local Open Scope Z_scope.

(* ================================================================= *)
(** ** Arithmetic on matrix entries *)

Class FloatOps (F : Type) := {
  f0   : F;      (* 0.0 *)
  f1   : F;      (* 1.0 *)
  fadd : F -> F -> F;
  fsub : F -> F -> F;
  fmul : F -> F -> F;
  fdiv : F -> F -> F;
  fneg : F -> F;
  fabs : F -> F
}.

(** IEEE-754 binary64, the arithmetic of a C [double]. *)
#[export] Instance binary64 : FloatOps PrimFloat.float := {|
  f0   := PrimFloat.zero;
  f1   := PrimFloat.one;
  fadd := PrimFloat.add;
  fsub := PrimFloat.sub;
  fmul := PrimFloat.mul;
  fdiv := PrimFloat.div;
  fneg := PrimFloat.opp;
  fabs := PrimFloat.abs
|}.

(** Exact integer arithmetic (division truncates; it is used for no
    statement about division). *)
Definition exactZ : FloatOps Z := {|
  f0   := 0;
  f1   := 1;
  fadd := Z.add;
  fsub := Z.sub;
  fmul := Z.mul;
  fdiv := Z.quot;
  fneg := Z.opp;
  fabs := Z.abs
|}.

Definition wrap64 (z : Z) : Z := z mod 2 ^ 64.

(* ================================================================= *)
(** ** SupportIndex: intervals of mesh elements *)

Record IntInterval := make_intv { intv_a : Z; intv_b : Z }.

Definition intersect_intervals (intva intvb : IntInterval) : IntInterval :=
  make_intv (Z.max (intv_a intva) (intv_a intvb))
            (Z.min (intv_b intva) (intv_b intvb)).

(** A mesh-support table [ssize_t[:,::1]] of shape (n,2): row [j] holds the
    half-open interval of mesh elements on which basis function [j] is
    nonzero. *)
Definition SuppTable := list (Z * Z).

Definition supp_row (meshsupp : SuppTable) (j : Z) : Z * Z :=
  default (0, 0) (meshsupp !! Z.to_nat j).

(** [meshsupp[j,0]] and [meshsupp[j,1]] *)
Definition supp0 (meshsupp : SuppTable) (j : Z) : Z := (supp_row meshsupp j).1.
Definition supp1 (meshsupp : SuppTable) (j : Z) : Z := (supp_row meshsupp j).2.

Definition supp_intv (meshsupp : SuppTable) (j : Z) : IntInterval :=
  make_intv (supp0 meshsupp j) (supp1 meshsupp j).

(** First loop of [find_joint_support_functions]:
    [while j >= 0 and meshsupp[j,1] > meshsupp[i,0]: minj = j; j -= 1]. *)
Fixpoint scan_down (fuel : nat) (meshsupp : SuppTable) (i j minj : Z) : Z :=
  match fuel with
  | O => minj
  | S fuel' =>
      if (0 <=? j) && (supp1 meshsupp j >? supp0 meshsupp i)
      then scan_down fuel' meshsupp i (j - 1) j
      else minj
  end.

(** Second loop:
    [while j < n and meshsupp[j,0] < meshsupp[i,1]: maxj = j; j += 1]. *)
Fixpoint scan_up (fuel : nat) (meshsupp : SuppTable) (n i j maxj : Z) : Z :=
  match fuel with
  | O => maxj
  | S fuel' =>
      if (j <? n) && (supp0 meshsupp j <? supp1 meshsupp i)
      then scan_up fuel' meshsupp n i (j + 1) j
      else maxj
  end.

(** The first loop leaves after at most [i+1] rounds ([j] runs from [i] down
    to [-1]), the second after at most [n-(i+1)]; [scan_down_fuel] and
    [scan_up_fuel] below show that more fuel changes nothing. *)
Definition find_joint_support_functions (meshsupp : SuppTable) (i : Z)
  : IntInterval :=
  let minj := scan_down (Z.to_nat (i + 1)) meshsupp i i i in
  let n := Z.of_nat (length meshsupp) in
  let maxj := scan_up (Z.to_nat (n - (i + 1))) meshsupp n i (i + 1) i in
  make_intv minj (maxj + 1).

(** The brute-force test of the specification: the supports of [j] and [i]
    overlap when their intersection is a non-empty interval. *)
Definition overlaps (meshsupp : SuppTable) (j i : Z) : bool :=
  let intv := intersect_intervals (supp_intv meshsupp j) (supp_intv meshsupp i) in
  intv_a intv <? intv_b intv.

Definition brute_force_neighbors (meshsupp : SuppTable) (i : Z) : list Z :=
  filter (fun j => overlaps meshsupp j i = true)
         (seqZ 0 (Z.of_nat (length meshsupp))).

(** The range [r] returned for [i] is the one of the brute-force scan:
    the indices that overlap [i] are those of [r], in a table of [n]
    functions. *)
Definition matches_brute_force (meshsupp : SuppTable) (i : Z) : Prop :=
  let r := find_joint_support_functions meshsupp i in
  brute_force_neighbors meshsupp i = seqZ (intv_a r) (intv_b r - intv_a r)
  /\ forall j, 0 <= j < Z.of_nat (length meshsupp) ->
       (overlaps meshsupp j i = true <-> intv_a r <= j < intv_b r).

(** The table of the counterexample to sortedness by left endpoints
    alone. *)
Definition nested_table : SuppTable := [(0, 10); (1, 2); (3, 5)].

(** Invariants of a table of B-spline supports. *)
Definition left_sorted (meshsupp : SuppTable) : Prop :=
  forall j k, 0 <= j -> j <= k -> k < Z.of_nat (length meshsupp) ->
    supp0 meshsupp j <= supp0 meshsupp k.

Definition right_sorted (meshsupp : SuppTable) : Prop :=
  forall j k, 0 <= j -> j <= k -> k < Z.of_nat (length meshsupp) ->
    supp1 meshsupp j <= supp1 meshsupp k.

Definition supports_nonempty (meshsupp : SuppTable) : Prop :=
  forall j, 0 <= j < Z.of_nat (length meshsupp) ->
    supp0 meshsupp j < supp1 meshsupp j.

(* ================================================================= *)
(** ** TileAccumulator: [MatrixEntryAccumulator] *)

(** The sentinel stored in every slot of [old_indices] by [__init__]. *)
Definition SENTINEL : Z := 0xffffffff.

Record MatrixEntryAccumulator (F : Type) := mkAccumulator {
  idx : Z;                 (* ssize_t idx *)
  num_indices : Z;         (* int num_indices *)
  _result : list F;        (* double[::1] _result *)
  old_indices : list Z     (* unsigned[16] old_indices *)
}.
Arguments mkAccumulator {F}.
Arguments idx {F}.
Arguments num_indices {F}.
Arguments _result {F}.
Arguments old_indices {F}.

(** [__init__(num_indices, N)].  [np.empty(N)] returns [N] doubles of
    unspecified content: [buf] is that content, [N = length buf].  The
    failed assertion is [None]. *)
Definition MatrixEntryAccumulator_init {F} (num : Z) (buf : list F)
  : option (MatrixEntryAccumulator F) :=
  if num <=? 16
  then Some (mkAccumulator (-1) num buf (replicate 16 SENTINEL))
  else None.

(** [indices[i,k]] in row [i] of the index array, [old_indices[k]]. *)
Definition row_get (row : list Z) (k : nat) : Z := default 0 (row !! k).

(** The index tuple of a row: its first [num_indices] components. *)
Definition index_tuple (num : Z) (row : list Z) : list Z :=
  map (row_get row) (seq 0 (Z.to_nat num)).

(** [for k in range(num_indices): if indices[i,k] != old_indices[k]:
      changed = True; break] *)
Definition tuple_differs (num : Z) (row old : list Z) : bool :=
  existsb (fun k => negb (row_get row k =? row_get old k))
          (seq 0 (Z.to_nat num)).

(** [for k in range(num_indices): old_indices[k] = indices[i,k]] *)
Definition adopt_tuple (num : Z) (row old : list Z) : list Z :=
  fold_left (fun o k => <[k := row_get row k]> o) (seq 0 (Z.to_nat num)) old.

Definition index_changed {F} (self : MatrixEntryAccumulator F) (row : list Z)
  : MatrixEntryAccumulator F * bool :=
  let changed := tuple_differs (num_indices self) row (old_indices self) in
  if changed
  then (mkAccumulator (idx self) (num_indices self) (_result self)
          (adopt_tuple (num_indices self) row (old_indices self)), true)
  else (self, false).

(** Reads and writes of [_result[idx]].  Bounds and wrap-around checks are
    off in the source, so an index outside [0, N) is an access outside
    the buffer: [None]. *)
Definition result_read {F} (self : MatrixEntryAccumulator F) : option F :=
  if (0 <=? idx self) && (idx self <? Z.of_nat (length (_result self)))
  then _result self !! Z.to_nat (idx self)
  else None.

Definition result_write {F} (self : MatrixEntryAccumulator F) (v : F)
  : option (MatrixEntryAccumulator F) :=
  if (0 <=? idx self) && (idx self <? Z.of_nat (length (_result self)))
  then Some (mkAccumulator (idx self) (num_indices self)
               (<[Z.to_nat (idx self) := v]> (_result self))
               (old_indices self))
  else None.

(** One round of the loop of [process], on row [i] of [indices] and
    [values[i]]. *)
Definition process_row {F} `{FloatOps F}
    (self : MatrixEntryAccumulator F) (row : list Z) (v : F)
  : option (MatrixEntryAccumulator F) :=
  let '(self, changed) := index_changed self row in
  if changed
  then result_write
         (mkAccumulator (idx self + 1) (num_indices self) (_result self)
            (old_indices self)) v
  else match result_read self with
       | Some r => result_write self (fadd r v)
       | None => None
       end.

(** [process(indices, values)]: [for i in range(indices.shape[0])].  A
    [values] shorter than [indices] is a read outside [values]. *)
Fixpoint process {F} `{FloatOps F} (self : MatrixEntryAccumulator F)
    (indices : list (list Z)) (values : list F)
  : option (MatrixEntryAccumulator F) :=
  match indices with
  | [] => Some self
  | row :: indices' =>
      match values with
      | [] => None
      | v :: values' =>
          match process_row self row v with
          | Some self' => process self' indices' values'
          | None => None
          end
      end
  end.

(** The property [result]: [self._result[:self.idx+1]]. *)
Definition result {F} (self : MatrixEntryAccumulator F) : list F :=
  take (Z.to_nat (idx self + 1)) (_result self).

(** The specification's reading of the input: the maximal runs of
    consecutive rows with equal index tuples, each with the first value of
    the run and the values that follow it. *)
Fixpoint runs {F} (num : Z) (indices : list (list Z)) (values : list F)
  : list (list Z * (F * list F)) :=
  match indices, values with
  | row :: indices', v :: values' =>
      match runs num indices' values' with
      | (t, (w, ws)) :: rs =>
          if decide (index_tuple num row = t)
          then (t, (v, w :: ws)) :: rs
          else (index_tuple num row, (v, [])) :: (t, (w, ws)) :: rs
      | [] => [(index_tuple num row, (v, []))]
      end
  | _, _ => []
  end.

(** The sum of a run in input order: [((v1 + v2) + v3) + ...]. *)
Definition run_sum {F} `{FloatOps F} (r : list Z * (F * list F)) : F :=
  fold_left fadd r.2.2 r.2.1.

(** A fresh accumulator of doubles with one index column and room for one
    entry, and one with two index columns and room for three. *)
Definition fresh_1_1 : MatrixEntryAccumulator PrimFloat.float :=
  mkAccumulator (-1) 1 [0%float] (replicate 16 SENTINEL).

Definition fresh_2_3 : MatrixEntryAccumulator PrimFloat.float :=
  mkAccumulator (-1) 2 [0%float; 0%float; 0%float] (replicate 16 SENTINEL).

(* ================================================================= *)
(** ** Parallelization: [chunk_tasks] *)

(** What [chunk_tasks] asks of [tasks]: [len(tasks)] and the slice
    [tasks[a:b]] for [0 <= a <= b]. *)
Class Sliceable (T : Type) := {
  py_len : T -> Z;
  py_slice : T -> Z -> Z -> T
}.

(** A Python [range] object with step 1. *)
Record PyRange := mkRange { start : Z; stop : Z }.

(** [range_it(n)] *)
Definition range_it (n : Z) : PyRange := mkRange 0 n.

Definition range_len (r : PyRange) : Z := Z.max 0 (stop r - start r).

(** The indices a range runs over. *)
Definition range_list (r : PyRange) : list Z := seqZ (start r) (range_len r).

(** [r[a:b]] clips both ends to [len(r)]. *)
#[export] Instance PyRange_sliceable : Sliceable PyRange := {|
  py_len := range_len;
  py_slice r a b :=
    mkRange (start r + Z.min a (range_len r)) (start r + Z.min b (range_len r))
|}.

#[export] Instance list_sliceable {A} : Sliceable (list A) := {|
  py_len l := Z.of_nat (length l);
  py_slice l a b := take (Z.to_nat (b - a)) (drop (Z.to_nat a) l)
|}.

(** The values of [range(lo, hi, step)] for a non-zero [step]. *)
Definition range3 (lo hi step : Z) : list Z :=
  if 0 <? step
  then map (fun q => lo + q * step) (seqZ 0 ((hi - lo + step - 1) / step))
  else map (fun q => lo + q * step) (seqZ 0 ((lo - hi - step - 1) / (- step))).

Inductive PyExc :=
| ZeroDivisionError
| ValueError
| AssertionError
| ExternalError.   (* an exception raised by a collaborator *)

(** [chunk_tasks(tasks, num_chunks)]; the generator is run to its end.
    [//] by zero and a zero step of [range] raise. *)
Definition chunk_tasks {T} `{Sliceable T} (tasks : T) (num_chunks : Z)
  : PyExc + list T :=
  if num_chunks =? 0 then inl ZeroDivisionError else
  let n := py_len tasks / num_chunks + 1 in
  if n =? 0 then inl ValueError else
  inr (map (fun i => py_slice tasks i (i + n)) (range3 0 (py_len tasks) n)).

(** Chunk [q] of [range(n)] cut in steps of [s]. *)
Definition chunk_at (n s q : Z) : PyRange :=
  mkRange (Z.min (q * s) n) (Z.min (q * s + s) n).

(** The chunks are consecutive, none is empty and together they run over
    [0 .. n-1] in increasing order. *)
Definition partitions (n : Z) (chunks : list PyRange) : Prop :=
  chunks ≫= range_list = seqZ 0 n
  /\ Forall (fun c => start c < stop c) chunks
  /\ forall (k : nat) c c', chunks !! k = Some c -> chunks !! S k = Some c' ->
       start c' = stop c.

(* ================================================================= *)
(** ** Arrays and pointers *)

(** [for i in range(n): s = body(i, s)] *)
Definition for_range {S} (n : Z) (body : Z -> S -> S) (s : S) : S :=
  fold_left (fun s i => body i s) (seqZ 0 n) s.

(** [l[a:b]] for [0 <= a]: both ends are clipped to the length. *)
Definition slice {A} (a b : Z) (l : list A) : list A :=
  take (Z.to_nat (b - a)) (drop (Z.to_nat a) l).

(** A [double*] into a contiguous buffer. *)
Record Ptr (F : Type) := mkPtr { ptr_buf : list F; ptr_off : Z }.
Arguments mkPtr {F}.
Arguments ptr_buf {F}.
Arguments ptr_off {F}.

(** [p[k]] *)
Definition deref {F} `{FloatOps F} (p : Ptr F) (k : Z) : F :=
  if ptr_off p + k <? 0 then f0
  else default f0 (ptr_buf p !! Z.to_nat (ptr_off p + k)).

(** [double[::1,:]]: a matrix stored column after column
    ([toarray(order='F')]); [fa_rows] is [shape[0]]. *)
Record FArray2 (F : Type) := mkFArray2 { fa_rows : Z; fa_data : list F }.
Arguments mkFArray2 {F}.
Arguments fa_rows {F}.
Arguments fa_data {F}.

(** [&A[r, c]] *)
Definition addr_F {F} (A : FArray2 F) (r c : Z) : Ptr F :=
  mkPtr (fa_data A) (r + c * fa_rows A).

(** [double[:,:,::1]] of shape [(n, ca_dim1, 2)], stored row after row:
    basis function, quadrature node, derivative. *)
Record CArray3 (F : Type) := mkCArray3 { ca_dim1 : Z; ca_data : list F }.
Arguments mkCArray3 {F}.
Arguments ca_dim1 {F}.
Arguments ca_data {F}.

(** [&A[i, g, 0]] *)
Definition addr_C {F} (A : CArray3 F) (i g : Z) : Ptr F :=
  mkPtr (ca_data A) ((i * ca_dim1 A + g) * 2).

(** A 2x2 matrix, the last two axes of a [double[:,:,:,::1]]; a pointer
    [Bptr] to its first entry sees [m00; m01; m10; m11]. *)
Record Mat2 (F : Type) := mkMat2 { m00 : F; m01 : F; m10 : F; m11 : F }.
Arguments mkMat2 {F}.
Arguments m00 {F}.
Arguments m01 {F}.
Arguments m10 {F}.
Arguments m11 {F}.

(** A 3x3 matrix, row after row: [Bptr[0] .. Bptr[8]]. *)
Record Mat3 (F : Type) := mkMat3 {
  x00 : F; x01 : F; x02 : F;
  x10 : F; x11 : F; x12 : F;
  x20 : F; x21 : F; x22 : F
}.
Arguments mkMat3 {F}.
Arguments x00 {F}.
Arguments x01 {F}.
Arguments x02 {F}.
Arguments x10 {F}.
Arguments x11 {F}.
Arguments x12 {F}.
Arguments x20 {F}.
Arguments x21 {F}.
Arguments x22 {F}.

(** Views of rank 2 and 3 over elements of type [A]. *)
Definition Grid2 (A : Type) := list (list A).
Definition Grid3 (A : Type) := list (list (list A)).

Definition shape0 {A} (J : list A) : Z := Z.of_nat (length J).
Definition shape1 {A} (J : Grid2 A) : Z :=
  match J with [] => 0 | r :: _ => Z.of_nat (length r) end.
Definition shape2 {A} (J : Grid3 A) : Z :=
  match J with [] => 0 | r :: _ => shape1 r end.

Definition get1 {A} (d : A) (l : list A) (i : Z) : A :=
  default d (l !! Z.to_nat i).
Definition get2 {A} (d : A) (J : Grid2 A) (i0 i1 : Z) : A :=
  get1 d (get1 [] J i0) i1.
Definition get3 {A} (d : A) (J : Grid3 A) (i0 i1 i2 : Z) : A :=
  get1 d (get2 [] J i0 i1) i2.

(** [J[a0:b0, a1:b1]] and [J[a0:b0, a1:b1, a2:b2]] *)
Definition slice2 {A} (J : Grid2 A) (a0 b0 a1 b1 : Z) : Grid2 A :=
  map (slice a1 b1) (slice a0 b0 J).
Definition slice3 {A} (J : Grid3 A) (a0 b0 a1 b1 a2 b2 : Z) : Grid3 A :=
  map (fun P => slice2 P a1 b1 a2 b2) (slice a0 b0 J).

(* ================================================================= *)
(** ** EntryKernel: the assembler kernels *)

Section Kernels.
Context {F : Type} `{FloatOps F}.

Definition zero2 : Mat2 F := mkMat2 f0 f0 f0 f0.
Definition zero3 : Mat3 F := mkMat3 f0 f0 f0 f0 f0 f0 f0 f0 f0.

(** [result += Vu0[i0]*Vu1[i1] * Vv0[i0]*Vv1[i1] * J[i0,i1]] *)
Definition combine_mass_2d (J : Grid2 F) (Vu0 Vu1 Vv0 Vv1 : Ptr F) : F :=
  let n0 := shape0 J in
  let n1 := shape1 J in
  for_range n0 (fun i0 result =>
    for_range n1 (fun i1 result =>
      fadd result
        (fmul (fmul (fmul (fmul (deref Vu0 i0) (deref Vu1 i1))
                          (deref Vv0 i0)) (deref Vv1 i1))
              (get2 f0 J i0 i1)))
      result) f0.

Definition combine_stiff_2d (B : Grid2 (Mat2 F)) (VDu0 VDu1 VDv0 VDv1 : Ptr F)
  : F :=
  let n0 := shape0 B in
  let n1 := shape1 B in
  for_range n0 (fun i0 result =>
    for_range n1 (fun i1 result =>
      let Bptr := get2 zero2 B i0 i1 in
      let gu0 := fmul (deref VDu0 (2 * i0)) (deref VDu1 (2 * i1 + 1)) in
      let gu1 := fmul (deref VDu0 (2 * i0 + 1)) (deref VDu1 (2 * i1)) in
      let gv0 := fmul (deref VDv0 (2 * i0)) (deref VDv1 (2 * i1 + 1)) in
      let gv1 := fmul (deref VDv0 (2 * i0 + 1)) (deref VDv1 (2 * i1)) in
      let result :=
        fadd result
          (fmul (fadd (fmul (m00 Bptr) gu0) (fmul (m01 Bptr) gu1)) gv0) in
      fadd result
        (fmul (fadd (fmul (m10 Bptr) gu0) (fmul (m11 Bptr) gu1)) gv1))
      result) f0.

Definition combine_mass_3d (J : Grid3 F) (Vu0 Vu1 Vu2 Vv0 Vv1 Vv2 : Ptr F)
  : F :=
  let n0 := shape0 J in
  let n1 := shape1 J in
  let n2 := shape2 J in
  for_range n0 (fun i0 result =>
    for_range n1 (fun i1 result =>
      for_range n2 (fun i2 result =>
        fadd result
          (fmul (fmul (fmul (fmul (fmul (fmul
             (deref Vu0 i0) (deref Vu1 i1)) (deref Vu2 i2))
             (deref Vv0 i0)) (deref Vv1 i1)) (deref Vv2 i2))
             (get3 f0 J i0 i1 i2)))
        result) result) f0.

Definition combine_stiff_3d (B : Grid3 (Mat3 F))
    (VDu0 VDu1 VDu2 VDv0 VDv1 VDv2 : Ptr F) : F :=
  let n0 := shape0 B in
  let n1 := shape1 B in
  let n2 := shape2 B in
  for_range n0 (fun i0 result =>
    for_range n1 (fun i1 result =>
      for_range n2 (fun i2 result =>
        let Bptr := get3 zero3 B i0 i1 i2 in
        let gu0 := fmul (fmul (deref VDu0 (2 * i0)) (deref VDu1 (2 * i1)))
                        (deref VDu2 (2 * i2 + 1)) in
        let gu1 := fmul (fmul (deref VDu0 (2 * i0)) (deref VDu1 (2 * i1 + 1)))
                        (deref VDu2 (2 * i2)) in
        let gu2 := fmul (fmul (deref VDu0 (2 * i0 + 1)) (deref VDu1 (2 * i1)))
                        (deref VDu2 (2 * i2)) in
        let gv0 := fmul (fmul (deref VDv0 (2 * i0)) (deref VDv1 (2 * i1)))
                        (deref VDv2 (2 * i2 + 1)) in
        let gv1 := fmul (fmul (deref VDv0 (2 * i0)) (deref VDv1 (2 * i1 + 1)))
                        (deref VDv2 (2 * i2)) in
        let gv2 := fmul (fmul (deref VDv0 (2 * i0 + 1)) (deref VDv1 (2 * i1)))
                        (deref VDv2 (2 * i2)) in
        let result :=
          fadd result
            (fmul (fadd (fadd (fmul (x00 Bptr) gu0) (fmul (x01 Bptr) gu1))
                        (fmul (x02 Bptr) gu2)) gv0) in
        let result :=
          fadd result
            (fmul (fadd (fadd (fmul (x10 Bptr) gu0) (fmul (x11 Bptr) gu1))
                        (fmul (x12 Bptr) gu2)) gv1) in
        fadd result
          (fmul (fadd (fadd (fmul (x20 Bptr) gu0) (fmul (x21 Bptr) gu1))
                      (fmul (x22 Bptr) gu2)) gv2))
        result) result) f0.

End Kernels.

(* ================================================================= *)
(** ** Determinants and inverses of the geometry Jacobian *)

Section Jacobians.
Context {F : Type} `{FloatOps F}.

(** [determinants(X)], 2x2 case:
    [X[:,:,0,0] * X[:,:,1,1] - X[:,:,0,1] * X[:,:,1,0]] *)
Definition det_2x2 (X : Mat2 F) : F :=
  fsub (fmul (m00 X) (m11 X)) (fmul (m01 X) (m10 X)).

Definition determinants_2x2 (X : Grid2 (Mat2 F)) : Grid2 F :=
  map (map det_2x2) X.

(** The body of the loops of [det_and_inv_2x2]; [cdivision(True)] makes
    [/] the division of C, which raises nothing. *)
Definition det_and_inv_2x2_at (X : Mat2 F) : F * Mat2 F :=
  let a := m00 X in let b := m01 X in let c := m10 X in let d := m11 X in
  let det := fsub (fmul a d) (fmul b c) in
  (det, mkMat2 (fdiv d det) (fdiv (fneg b) det)
               (fdiv (fneg c) det) (fdiv a det)).

Definition det_and_inv_2x2 (X : Grid2 (Mat2 F)) : Grid2 F * Grid2 (Mat2 F) :=
  (map (map (fun M => (det_and_inv_2x2_at M).1)) X,
   map (map (fun M => (det_and_inv_2x2_at M).2)) X).

(** The determinant expression of [determinants_3x3] and
    [det_and_inv_3x3]. *)
Definition det_3x3 (X : Mat3 F) : F :=
  fadd (fsub
    (fmul (x00 X) (fsub (fmul (x11 X) (x22 X)) (fmul (x21 X) (x12 X))))
    (fmul (x01 X) (fsub (fmul (x10 X) (x22 X)) (fmul (x12 X) (x20 X)))))
    (fmul (x02 X) (fsub (fmul (x10 X) (x21 X)) (fmul (x11 X) (x20 X)))).

Definition determinants_3x3 (X : Grid3 (Mat3 F)) : Grid3 F :=
  map (map (map det_3x3)) X.

Definition det_and_inv_3x3_at (X : Mat3 F) : F * Mat3 F :=
  let det := det_3x3 X in
  let invdet := fdiv f1 det in
  (det, mkMat3
    (fmul (fsub (fmul (x11 X) (x22 X)) (fmul (x21 X) (x12 X))) invdet)
    (fmul (fsub (fmul (x02 X) (x21 X)) (fmul (x01 X) (x22 X))) invdet)
    (fmul (fsub (fmul (x01 X) (x12 X)) (fmul (x02 X) (x11 X))) invdet)
    (fmul (fsub (fmul (x12 X) (x20 X)) (fmul (x10 X) (x22 X))) invdet)
    (fmul (fsub (fmul (x00 X) (x22 X)) (fmul (x02 X) (x20 X))) invdet)
    (fmul (fsub (fmul (x10 X) (x02 X)) (fmul (x00 X) (x12 X))) invdet)
    (fmul (fsub (fmul (x10 X) (x21 X)) (fmul (x20 X) (x11 X))) invdet)
    (fmul (fsub (fmul (x20 X) (x01 X)) (fmul (x00 X) (x21 X))) invdet)
    (fmul (fsub (fmul (x00 X) (x11 X)) (fmul (x10 X) (x01 X))) invdet)).

Definition det_and_inv_3x3 (X : Grid3 (Mat3 F)) : Grid3 F * Grid3 (Mat3 F) :=
  (map (map (map (fun M => (det_and_inv_3x3_at M).1))) X,
   map (map (map (fun M => (det_and_inv_3x3_at M).2))) X).

(** [X[j,l] += B[j,k] * B[l,k]] for [k = 0, 1], from [X[j,l] = 0]. *)
Definition dot2 (a0 a1 b0 b1 : F) : F :=
  fadd (fadd f0 (fmul a0 b0)) (fmul a1 b1).

Definition matmatT_2x2_at (B : Mat2 F) : Mat2 F :=
  mkMat2 (dot2 (m00 B) (m01 B) (m00 B) (m01 B))
         (dot2 (m00 B) (m01 B) (m10 B) (m11 B))
         (dot2 (m10 B) (m11 B) (m00 B) (m01 B))
         (dot2 (m10 B) (m11 B) (m10 B) (m11 B)).

Definition matmatT_2x2 (B : Grid2 (Mat2 F)) : Grid2 (Mat2 F) :=
  map (map matmatT_2x2_at) B.

(** [X[j,l] += B[j,k] * B[l,k]] for [k = 0, 1, 2], from [X[j,l] = 0]. *)
Definition dot3 (a0 a1 a2 b0 b1 b2 : F) : F :=
  fadd (fadd (fadd f0 (fmul a0 b0)) (fmul a1 b1)) (fmul a2 b2).

Definition matmatT_3x3_at (B : Mat3 F) : Mat3 F :=
  mkMat3
    (dot3 (x00 B) (x01 B) (x02 B) (x00 B) (x01 B) (x02 B))
    (dot3 (x00 B) (x01 B) (x02 B) (x10 B) (x11 B) (x12 B))
    (dot3 (x00 B) (x01 B) (x02 B) (x20 B) (x21 B) (x22 B))
    (dot3 (x10 B) (x11 B) (x12 B) (x00 B) (x01 B) (x02 B))
    (dot3 (x10 B) (x11 B) (x12 B) (x10 B) (x11 B) (x12 B))
    (dot3 (x10 B) (x11 B) (x12 B) (x20 B) (x21 B) (x22 B))
    (dot3 (x20 B) (x21 B) (x22 B) (x00 B) (x01 B) (x02 B))
    (dot3 (x20 B) (x21 B) (x22 B) (x10 B) (x11 B) (x12 B))
    (dot3 (x20 B) (x21 B) (x22 B) (x20 B) (x21 B) (x22 B)).

Definition matmatT_3x3 (B : Grid3 (Mat3 F)) : Grid3 (Mat3 F) :=
  map (map (map matmatT_3x3_at)) B.

(** [gaussweights[0][:,None] * gaussweights[1][None,:] * det] *)
Definition weights_2d (gw0 gw1 : list F) (det : Grid2 F) : Grid2 F :=
  map (fun i0 => map (fun i1 =>
         fmul (fmul (get1 f0 gw0 i0) (get1 f0 gw1 i1)) (get2 f0 det i0 i1))
       (seqZ 0 (shape0 gw1)))
      (seqZ 0 (shape0 gw0)).

(** [gaussweights[0][:,None,None] * gaussweights[1][None,:,None]
     * gaussweights[2][None,None,:] * det] *)
Definition weights_3d (gw0 gw1 gw2 : list F) (det : Grid3 F) : Grid3 F :=
  map (fun i0 => map (fun i1 => map (fun i2 =>
         fmul (fmul (fmul (get1 f0 gw0 i0) (get1 f0 gw1 i1)) (get1 f0 gw2 i2))
              (get3 f0 det i0 i1 i2))
       (seqZ 0 (shape0 gw2))) (seqZ 0 (shape0 gw1))) (seqZ 0 (shape0 gw0)).

Definition scale2 (M : Mat2 F) (w : F) : Mat2 F :=
  mkMat2 (fmul (m00 M) w) (fmul (m01 M) w) (fmul (m10 M) w) (fmul (m11 M) w).

Definition scale3 (M : Mat3 F) (w : F) : Mat3 F :=
  mkMat3 (fmul (x00 M) w) (fmul (x01 M) w) (fmul (x02 M) w)
         (fmul (x10 M) w) (fmul (x11 M) w) (fmul (x12 M) w)
         (fmul (x20 M) w) (fmul (x21 M) w) (fmul (x22 M) w).

(** [matmatT_2x2(geo_jacinv) * weights[:,:,None,None]] *)
Definition metric_2d (jacinv : Grid2 (Mat2 F)) (weights : Grid2 F)
  : Grid2 (Mat2 F) :=
  let X := matmatT_2x2 jacinv in
  map (fun i0 => map (fun i1 =>
         scale2 (get2 zero2 X i0 i1) (get2 f0 weights i0 i1))
       (seqZ 0 (shape1 X))) (seqZ 0 (shape0 X)).

(** [matmatT_3x3(geo_jacinv) * weights[:,:,:,None,None]] *)
Definition metric_3d (jacinv : Grid3 (Mat3 F)) (weights : Grid3 F)
  : Grid3 (Mat3 F) :=
  let X := matmatT_3x3 jacinv in
  map (fun i0 => map (fun i1 => map (fun i2 =>
         scale3 (get3 zero3 X i0 i1 i2) (get3 f0 weights i0 i1 i2))
       (seqZ 0 (shape2 X))) (seqZ 0 (shape1 X))) (seqZ 0 (shape0 X)).

End Jacobians.

(* ================================================================= *)
(** ** Loops, sparse matrices and Python objects *)

(** [while True: body; if not more: break].  [body] returns the new state
    and whether the loop goes on; [None] is exhausted fuel. *)
Fixpoint do_while {S} (fuel : nat) (body : S -> option (S * bool)) (s : S)
  : option S :=
  match fuel with
  | O => None
  | S fuel' =>
      match body s with
      | Some (s', true) => do_while fuel' body s'
      | Some (s', false) => Some s'
      | None => None
      end
  end.

(** [l] is what follows [x] under [next], up to and including the last
    state, after which [next] says stop. *)
Fixpoint chain {I} (next : I -> I * bool) (x : I) (l : list I) : Prop :=
  match l with
  | [] => (next x).2 = false
  | y :: l' => next x = (y, true) /\ chain next y l'
  end.

(** An entry pushed on the three vectors [entries_i], [entries_j],
    [entries]: row, column, value. *)
Definition Triplet (F : Type) : Type := Z * Z * F.

Definition coord {F} (t : Triplet F) : Z * Z := t.1.

(** A sparse matrix: its shape and its stored entries. *)
Record SparseMatrix (F : Type) := mkSparse {
  sm_shape : Z * Z;
  sm_data : gmap (Z * Z) F
}.
Arguments mkSparse {F}.
Arguments sm_shape {F}.
Arguments sm_data {F}.

Section Sparse.
Context {F : Type} `{FloatOps F}.

Definition add_triplet (m : gmap (Z * Z) F) (t : Triplet F) : gmap (Z * Z) F :=
  partial_alter
    (fun o => Some (match o with Some x => fadd x t.2 | None => t.2 end))
    (coord t) m.

(** Modelled from the spec: [scipy.sparse.coo_matrix((entries, (entries_i,
    entries_j)), shape=shape).tocsr()], which SciPy provides: the triplets
    are accumulated into a sparse matrix of the given shape, values at
    duplicate coordinates being summed in the order of the triplets. *)
Definition coo_tocsr (shape : Z * Z) (entries : list (Triplet F))
  : SparseMatrix F :=
  mkSparse shape (fold_left add_triplet entries ∅).

(** Modelled from the spec: the sum [A + B] of two sparse matrices of one
    shape, which SciPy provides: coordinate-wise summation. *)
Definition csr_add (A B : SparseMatrix F) : SparseMatrix F :=
  mkSparse (sm_shape A)
           (union_with (fun x y => Some (fadd x y)) (sm_data A) (sm_data B)).

(** What [sum(results)] can return: the integer [0] it starts from, or a
    matrix. *)
Inductive PyObj :=
| PyInt0
| PyCsr (A : SparseMatrix F).

(** [sum(results)]: [((0 + r1) + r2) + ...]; adding the integer [0] to a
    sparse matrix gives the matrix. *)
Definition py_sum (results : list (SparseMatrix F)) : PyObj :=
  fold_left (fun acc A =>
               match acc with
               | PyInt0 => PyCsr A
               | PyCsr R => PyCsr (csr_add R A)
               end) results PyInt0.

End Sparse.
Arguments PyObj F : clear implicits.

(* ================================================================= *)
(** ** SparsityTraversal: what one traversal emits

    The sequence of triplets of a traversal, over any type [I] of
    multi-indices: [rows] are the multi-indices [i] in the order visited,
    [neigh i] the neighbours [j] of [i] in the order visited. *)

Section Emitted.
Context {F : Type} {I : Type}.
Variable to_seq : I -> Z.
Variable assemble_impl : I -> I -> F.
Variable neigh : I -> list I.

(** The body of the loop over [j]. *)
Definition emit (i j : I) : list (Triplet F) :=
  let ii := to_seq i in
  let jj := to_seq j in
  if jj >=? ii then
    let entry := assemble_impl i j in
    if negb (ii =? jj)
    then [(ii, jj, entry); (jj, ii, entry)]
    else [(ii, jj, entry)]
  else [].

Definition row_triplets (i : I) : list (Triplet F) :=
  neigh i ≫= emit i.

Definition traversal_triplets (rows : list I) : list (Triplet F) :=
  rows ≫= row_triplets.

End Emitted.

(* ================================================================= *)
(** ** Axis metadata and collaborators *)

(** What the assemblers read of a knot vector [kv]: [kv.p], [kv.numdofs]
    and the table [kv.mesh_support_idx_all()]. *)
Record KnotVector := mkKnotVector {
  kv_p : Z;
  kv_numdofs : Z;
  mesh_support_idx_all : SuppTable
}.

(** [for k in range(d)]: the intersection of the supports of [i[k]] and
    [j[k]]; [None] is [return 0.0], otherwise [g_sta[k]] and [g_end[k]]. *)
Definition gauss_range (nqp : Z) (meshsupp_k : SuppTable) (ik jk : Z)
  : option (Z * Z) :=
  let intv := intersect_intervals (supp_intv meshsupp_k ik)
                                  (supp_intv meshsupp_k jk) in
  if intv_a intv >=? intv_b intv then None
  else Some (nqp * intv_a intv, nqp * intv_b intv).

(** The supports of [ik] and [jk] do not overlap: the maximum of the left
    endpoints is not below the minimum of the right endpoints. *)
Definition disjoint_supports (meshsupp_k : SuppTable) (ik jk : Z) : Prop :=
  Z.min (supp1 meshsupp_k ik) (supp1 meshsupp_k jk)
  <= Z.max (supp0 meshsupp_k ik) (supp0 meshsupp_k jk).

(* ================================================================= *)
(** ** 2D assemblers and their driver *)

Module Asm2D.

Definition Index : Type := Z * Z.

Record BaseAssembler2D := mkBase {
  nqp : Z;
  ndofs : Z * Z;
  meshsupp : SuppTable * SuppTable
}.

(** [base_init(kvs)] *)
Definition base_init (kvs : list KnotVector) : PyExc + BaseAssembler2D :=
  match kvs with
  | [kv0; kv1] =>
      inr (mkBase (Z.max (kv_p kv0) (kv_p kv1) + 1)
                  (kv_numdofs kv0, kv_numdofs kv1)
                  (mesh_support_idx_all kv0, mesh_support_idx_all kv1))
  | _ => inl AssertionError
  end.

Definition to_seq (self : BaseAssembler2D) (ii : Index) : Z :=
  wrap64 (ii.1 * (ndofs self).2 + ii.2).

Definition from_seq (self : BaseAssembler2D) (i : Z) : Index :=
  (i / (ndofs self).2, i mod (ndofs self).2).

Definition next_lexicographic2 (cur start_ end_ : Index) : Index * bool :=
  let c0 := wrap64 (cur.1 + 1) in
  if c0 =? end_.1 then
    let c1 := wrap64 (cur.2 + 1) in
    if c1 =? end_.2 then ((start_.1, c1), false)
    else ((start_.1, c1), true)
  else ((c0, cur.2), true).

Section WithF.
Context {F : Type} `{FloatOps F}.

(** An assembler as the drivers see it: the data of the base class and
    the method [assemble_impl] of the concrete class. *)
Record Assembler := mkAssembler {
  base : BaseAssembler2D;
  assemble_impl : Index -> Index -> F
}.

Definition assemble (asm : Assembler) (i j : Z) : F :=
  let I := from_seq (base asm) i in
  let J := from_seq (base asm) j in
  assemble_impl asm I J.

(** All four concrete assemblers: [return self]. *)
Definition shared_clone (asm : Assembler) : Assembler := asm.

Record MassAssembler2D := mkMass {
  mass_base : BaseAssembler2D;
  mass_C : FArray2 F * FArray2 F;
  geo_weights : Grid2 F
}.

Definition MassAssembler2D_assemble_impl (self : MassAssembler2D)
    (i j : Index) : F :=
  let b := mass_base self in
  match gauss_range (nqp b) (meshsupp b).1 i.1 j.1 with
  | None => f0
  | Some (g_sta0, g_end0) =>
      match gauss_range (nqp b) (meshsupp b).2 i.2 j.2 with
      | None => f0
      | Some (g_sta1, g_end1) =>
          combine_mass_2d
            (slice2 (geo_weights self) g_sta0 g_end0 g_sta1 g_end1)
            (addr_F (mass_C self).1 g_sta0 i.1)
            (addr_F (mass_C self).2 g_sta1 i.2)
            (addr_F (mass_C self).1 g_sta0 j.1)
            (addr_F (mass_C self).2 g_sta1 j.2)
      end
  end.

Definition MassAssembler2D_asm (self : MassAssembler2D) : Assembler :=
  mkAssembler (mass_base self) (MassAssembler2D_assemble_impl self).

Record StiffnessAssembler2D := mkStiffness {
  stiff_base : BaseAssembler2D;
  stiff_C : CArray3 F * CArray3 F;
  stiff_B : Grid2 (Mat2 F)
}.

Definition StiffnessAssembler2D_assemble_impl (self : StiffnessAssembler2D)
    (i j : Index) : F :=
  let b := stiff_base self in
  match gauss_range (nqp b) (meshsupp b).1 i.1 j.1 with
  | None => f0
  | Some (g_sta0, g_end0) =>
      match gauss_range (nqp b) (meshsupp b).2 i.2 j.2 with
      | None => f0
      | Some (g_sta1, g_end1) =>
          combine_stiff_2d
            (slice2 (stiff_B self) g_sta0 g_end0 g_sta1 g_end1)
            (addr_C (stiff_C self).1 i.1 g_sta0)
            (addr_C (stiff_C self).2 i.2 g_sta1)
            (addr_C (stiff_C self).1 j.1 g_sta0)
            (addr_C (stiff_C self).2 j.2 g_sta1)
      end
  end.

Definition StiffnessAssembler2D_asm (self : StiffnessAssembler2D) : Assembler :=
  mkAssembler (stiff_base self) (StiffnessAssembler2D_assemble_impl self).

(** What the constructors obtain from their collaborators, which are not
    part of this file: the quadrature weights of
    [make_iterated_quadrature], the arrays of [bspline.collocation] and
    [bspline.collocation_derivs], and the geometry map [geo], whose
    [grid_jacobian] returns the Jacobians on the quadrature grid or
    raises. *)
Record Collaborators := mkCollaborators {
  gaussweights : list F * list F;
  collocation : FArray2 F * FArray2 F;
  collocation_derivs : CArray3 F * CArray3 F;
  geo_dim : Z;
  grid_jacobian : PyExc + Grid2 (Mat2 F)
}.

(** [MassAssembler2D.__init__(kvs, geo)] *)
Definition MassAssembler2D_init (kvs : list KnotVector) (ext : Collaborators)
  : PyExc + MassAssembler2D :=
  if negb (geo_dim ext =? 2) then inl AssertionError else
  match base_init kvs with
  | inl e => inl e
  | inr b =>
      match grid_jacobian ext with
      | inl e => inl e
      | inr geo_jac =>
          let geo_det := map (map fabs) (determinants_2x2 geo_jac) in
          inr (mkMass b (collocation ext)
                 (weights_2d (gaussweights ext).1 (gaussweights ext).2 geo_det))
      end
  end.

(** [StiffnessAssembler2D.__init__(kvs, geo)] *)
Definition StiffnessAssembler2D_init (kvs : list KnotVector)
    (ext : Collaborators) : PyExc + StiffnessAssembler2D :=
  if negb (geo_dim ext =? 2) then inl AssertionError else
  match base_init kvs with
  | inl e => inl e
  | inr b =>
      match grid_jacobian ext with
      | inl e => inl e
      | inr geo_jac =>
          let '(geo_det, geo_jacinv) := det_and_inv_2x2 geo_jac in
          let weights :=
            weights_2d (gaussweights ext).1 (gaussweights ext).2
                       (map (map fabs) geo_det) in
          inr (mkStiffness b (collocation_derivs ext)
                 (metric_2d geo_jacinv weights))
      end
  end.

(** The neighbour ranges of [i]: [neigh_j_start] and [neigh_j_end]. *)
Definition neigh_j (b : BaseAssembler2D) (i : Index) : Index * Index :=
  let intv0 := find_joint_support_functions (meshsupp b).1 i.1 in
  let intv1 := find_joint_support_functions (meshsupp b).2 i.2 in
  ((intv_a intv0, intv_a intv1), (intv_b intv0, intv_b intv1)).

(** The body of the loop over [j], before [next_lexicographic2]. *)
Definition visit (asm : Assembler) (i : Index) (ii : Z) (j : Index)
    (entries : list (Triplet F)) : list (Triplet F) :=
  let jj := to_seq (base asm) j in
  if jj >=? ii then
    let entry := assemble_impl asm i j in
    let entries := entries ++ [(ii, jj, entry)] in
    if negb (ii =? jj) then entries ++ [(jj, ii, entry)] else entries
  else entries.

Definition loop_j (fuel : nat) (asm : Assembler) (i : Index)
    (entries : list (Triplet F)) : option (list (Triplet F)) :=
  let ii := to_seq (base asm) i in
  let '(neigh_j_start, neigh_j_end) := neigh_j (base asm) i in
  snd <$> do_while fuel
    (fun '(j, entries) =>
       let entries := visit asm i ii j entries in
       let '(j, more) := next_lexicographic2 j neigh_j_start neigh_j_end in
       Some ((j, entries), more))
    (neigh_j_start, entries).

Definition dof_range (b : BaseAssembler2D) (chunk_start chunk_end : Z)
  : Index * Index :=
  ((if chunk_start >=? 0 then chunk_start else 0, 0),
   (if chunk_end >=? 0 then chunk_end else (ndofs b).1, (ndofs b).2)).

Definition generic_assemble_2d (fuel : nat) (asm : Assembler)
    (chunk_start chunk_end : Z) : option (SparseMatrix F) :=
  let '(dof_start, dof_end) := dof_range (base asm) chunk_start chunk_end in
  match do_while fuel
          (fun '(i, entries) =>
             match loop_j fuel asm i entries with
             | Some entries =>
                 let '(i, more) := next_lexicographic2 i dof_start dof_end in
                 Some ((i, entries), more)
             | None => None
             end)
          (dof_start, [])
  with
  | Some (_, entries) =>
      let N := wrap64 ((ndofs (base asm)).1 * (ndofs (base asm)).2) in
      Some (coo_tocsr (N, N) entries)
  | None => None
  end.

(** [generic_assemble_2d_parallel(asm)]; [num_threads] is
    [pyiga.get_max_threads()].  The pool's [map] returns the results in the
    order of the chunks. *)
Definition generic_assemble_2d_parallel (fuel : nat) (num_threads : Z)
    (asm : Assembler) : option (PyExc + PyObj F) :=
  if num_threads <=? 1 then
    (fun A => inr (PyCsr A)) <$> generic_assemble_2d fuel asm (-1) (-1)
  else
    let asm_chunk (rg : PyRange) :=
      let asm_clone := shared_clone asm in
      generic_assemble_2d fuel asm_clone (start rg) (stop rg) in
    match chunk_tasks (range_it (ndofs (base asm)).1) (4 * num_threads) with
    | inl e => Some (inl e)
    | inr chunks =>
        (fun results => inr (py_sum results)) <$> mapM asm_chunk chunks
    end.

End WithF.
Arguments Assembler F : clear implicits.
Arguments MassAssembler2D F : clear implicits.
Arguments StiffnessAssembler2D F : clear implicits.
Arguments Collaborators F : clear implicits.

End Asm2D.

(* ================================================================= *)
(** ** 3D assemblers and their driver *)

Module Asm3D.

Definition Index : Type := Z * Z * Z.

Record BaseAssembler3D := mkBase {
  nqp : Z;
  ndofs : Z * Z * Z;
  meshsupp : SuppTable * SuppTable * SuppTable
}.

(** [base_init(kvs)] *)
Definition base_init (kvs : list KnotVector) : PyExc + BaseAssembler3D :=
  match kvs with
  | [kv0; kv1; kv2] =>
      inr (mkBase (Z.max (Z.max (kv_p kv0) (kv_p kv1)) (kv_p kv2) + 1)
                  (kv_numdofs kv0, kv_numdofs kv1, kv_numdofs kv2)
                  (mesh_support_idx_all kv0, mesh_support_idx_all kv1,
                   mesh_support_idx_all kv2))
  | _ => inl AssertionError
  end.

Definition to_seq (self : BaseAssembler3D) (ii : Index) : Z :=
  wrap64 ((ii.1.1 * (ndofs self).1.2 + ii.1.2) * (ndofs self).2 + ii.2).

Definition from_seq (self : BaseAssembler3D) (i : Z) : Index :=
  let out2 := i mod (ndofs self).2 in
  let i := i / (ndofs self).2 in
  let out1 := i mod (ndofs self).1.2 in
  let i := i / (ndofs self).1.2 in
  (i, out1, out2).

Definition next_lexicographic3 (cur start_ end_ : Index) : Index * bool :=
  let c0 := wrap64 (cur.1.1 + 1) in
  if c0 =? end_.1.1 then
    let c1 := wrap64 (cur.1.2 + 1) in
    if c1 =? end_.1.2 then
      let c2 := wrap64 (cur.2 + 1) in
      if c2 =? end_.2 then ((start_.1.1, start_.1.2, c2), false)
      else ((start_.1.1, start_.1.2, c2), true)
    else ((start_.1.1, c1, cur.2), true)
  else ((c0, cur.1.2, cur.2), true).

Section WithF.
Context {F : Type} `{FloatOps F}.

Record Assembler := mkAssembler {
  base : BaseAssembler3D;
  assemble_impl : Index -> Index -> F
}.

Definition assemble (asm : Assembler) (i j : Z) : F :=
  let I := from_seq (base asm) i in
  let J := from_seq (base asm) j in
  assemble_impl asm I J.

(** All four concrete assemblers: [return self]. *)
Definition shared_clone (asm : Assembler) : Assembler := asm.

Record MassAssembler3D := mkMass {
  mass_base : BaseAssembler3D;
  mass_C : FArray2 F * FArray2 F * FArray2 F;
  geo_weights : Grid3 F
}.

Definition MassAssembler3D_assemble_impl (self : MassAssembler3D)
    (i j : Index) : F :=
  let b := mass_base self in
  match gauss_range (nqp b) (meshsupp b).1.1 i.1.1 j.1.1 with
  | None => f0
  | Some (g_sta0, g_end0) =>
  match gauss_range (nqp b) (meshsupp b).1.2 i.1.2 j.1.2 with
  | None => f0
  | Some (g_sta1, g_end1) =>
  match gauss_range (nqp b) (meshsupp b).2 i.2 j.2 with
  | None => f0
  | Some (g_sta2, g_end2) =>
      combine_mass_3d
        (slice3 (geo_weights self) g_sta0 g_end0 g_sta1 g_end1 g_sta2 g_end2)
        (addr_F (mass_C self).1.1 g_sta0 i.1.1)
        (addr_F (mass_C self).1.2 g_sta1 i.1.2)
        (addr_F (mass_C self).2 g_sta2 i.2)
        (addr_F (mass_C self).1.1 g_sta0 j.1.1)
        (addr_F (mass_C self).1.2 g_sta1 j.1.2)
        (addr_F (mass_C self).2 g_sta2 j.2)
  end end end.

Definition MassAssembler3D_asm (self : MassAssembler3D) : Assembler :=
  mkAssembler (mass_base self) (MassAssembler3D_assemble_impl self).

Record StiffnessAssembler3D := mkStiffness {
  stiff_base : BaseAssembler3D;
  stiff_C : CArray3 F * CArray3 F * CArray3 F;
  stiff_B : Grid3 (Mat3 F)
}.

Definition StiffnessAssembler3D_assemble_impl (self : StiffnessAssembler3D)
    (i j : Index) : F :=
  let b := stiff_base self in
  match gauss_range (nqp b) (meshsupp b).1.1 i.1.1 j.1.1 with
  | None => f0
  | Some (g_sta0, g_end0) =>
  match gauss_range (nqp b) (meshsupp b).1.2 i.1.2 j.1.2 with
  | None => f0
  | Some (g_sta1, g_end1) =>
  match gauss_range (nqp b) (meshsupp b).2 i.2 j.2 with
  | None => f0
  | Some (g_sta2, g_end2) =>
      combine_stiff_3d
        (slice3 (stiff_B self) g_sta0 g_end0 g_sta1 g_end1 g_sta2 g_end2)
        (addr_C (stiff_C self).1.1 i.1.1 g_sta0)
        (addr_C (stiff_C self).1.2 i.1.2 g_sta1)
        (addr_C (stiff_C self).2 i.2 g_sta2)
        (addr_C (stiff_C self).1.1 j.1.1 g_sta0)
        (addr_C (stiff_C self).1.2 j.1.2 g_sta1)
        (addr_C (stiff_C self).2 j.2 g_sta2)
  end end end.

Definition StiffnessAssembler3D_asm (self : StiffnessAssembler3D) : Assembler :=
  mkAssembler (stiff_base self) (StiffnessAssembler3D_assemble_impl self).

(** The results of the calls to the collaborators, as in [Asm2D]. *)
Record Collaborators := mkCollaborators {
  gaussweights : list F * list F * list F;
  collocation : FArray2 F * FArray2 F * FArray2 F;
  collocation_derivs : CArray3 F * CArray3 F * CArray3 F;
  geo_dim : Z;
  grid_jacobian : PyExc + Grid3 (Mat3 F)
}.

(** [MassAssembler3D.__init__(kvs, geo)] *)
Definition MassAssembler3D_init (kvs : list KnotVector) (ext : Collaborators)
  : PyExc + MassAssembler3D :=
  if negb (geo_dim ext =? 3) then inl AssertionError else
  match base_init kvs with
  | inl e => inl e
  | inr b =>
      match grid_jacobian ext with
      | inl e => inl e
      | inr geo_jac =>
          let geo_det := map (map (map fabs)) (determinants_3x3 geo_jac) in
          inr (mkMass b (collocation ext)
                 (weights_3d (gaussweights ext).1.1 (gaussweights ext).1.2
                             (gaussweights ext).2 geo_det))
      end
  end.

(** [StiffnessAssembler3D.__init__(kvs, geo)] *)
Definition StiffnessAssembler3D_init (kvs : list KnotVector)
    (ext : Collaborators) : PyExc + StiffnessAssembler3D :=
  if negb (geo_dim ext =? 3) then inl AssertionError else
  match base_init kvs with
  | inl e => inl e
  | inr b =>
      match grid_jacobian ext with
      | inl e => inl e
      | inr geo_jac =>
          let '(geo_det, geo_jacinv) := det_and_inv_3x3 geo_jac in
          let weights :=
            weights_3d (gaussweights ext).1.1 (gaussweights ext).1.2
                       (gaussweights ext).2 (map (map (map fabs)) geo_det) in
          inr (mkStiffness b (collocation_derivs ext)
                 (metric_3d geo_jacinv weights))
      end
  end.

(** The neighbour ranges of [i]: [neigh_j_start] and [neigh_j_end]. *)
Definition neigh_j (b : BaseAssembler3D) (i : Index) : Index * Index :=
  let intv0 := find_joint_support_functions (meshsupp b).1.1 i.1.1 in
  let intv1 := find_joint_support_functions (meshsupp b).1.2 i.1.2 in
  let intv2 := find_joint_support_functions (meshsupp b).2 i.2 in
  ((intv_a intv0, intv_a intv1, intv_a intv2),
   (intv_b intv0, intv_b intv1, intv_b intv2)).

(** The body of the loop over [j], before [next_lexicographic3]. *)
Definition visit (asm : Assembler) (i : Index) (ii : Z) (j : Index)
    (entries : list (Triplet F)) : list (Triplet F) :=
  let jj := to_seq (base asm) j in
  if jj >=? ii then
    let entry := assemble_impl asm i j in
    let entries := entries ++ [(ii, jj, entry)] in
    if negb (ii =? jj) then entries ++ [(jj, ii, entry)] else entries
  else entries.

Definition loop_j (fuel : nat) (asm : Assembler) (i : Index)
    (entries : list (Triplet F)) : option (list (Triplet F)) :=
  let ii := to_seq (base asm) i in
  let '(neigh_j_start, neigh_j_end) := neigh_j (base asm) i in
  snd <$> do_while fuel
    (fun '(j, entries) =>
       let entries := visit asm i ii j entries in
       let '(j, more) := next_lexicographic3 j neigh_j_start neigh_j_end in
       Some ((j, entries), more))
    (neigh_j_start, entries).

Definition dof_range (b : BaseAssembler3D) (chunk_start chunk_end : Z)
  : Index * Index :=
  ((if chunk_start >=? 0 then chunk_start else 0, 0, 0),
   (if chunk_end >=? 0 then chunk_end else (ndofs b).1.1,
    (ndofs b).1.2, (ndofs b).2)).

Definition generic_assemble_3d (fuel : nat) (asm : Assembler)
    (chunk_start chunk_end : Z) : option (SparseMatrix F) :=
  let '(dof_start, dof_end) := dof_range (base asm) chunk_start chunk_end in
  match do_while fuel
          (fun '(i, entries) =>
             match loop_j fuel asm i entries with
             | Some entries =>
                 let '(i, more) := next_lexicographic3 i dof_start dof_end in
                 Some ((i, entries), more)
             | None => None
             end)
          (dof_start, [])
  with
  | Some (_, entries) =>
      let N := wrap64 ((ndofs (base asm)).1.1 * (ndofs (base asm)).1.2
                       * (ndofs (base asm)).2) in
      Some (coo_tocsr (N, N) entries)
  | None => None
  end.

(** [generic_assemble_3d_parallel(asm)] *)
Definition generic_assemble_3d_parallel (fuel : nat) (num_threads : Z)
    (asm : Assembler) : option (PyExc + PyObj F) :=
  if num_threads <=? 1 then
    (fun A => inr (PyCsr A)) <$> generic_assemble_3d fuel asm (-1) (-1)
  else
    let asm_chunk (rg : PyRange) :=
      let asm_clone := shared_clone asm in
      generic_assemble_3d fuel asm_clone (start rg) (stop rg) in
    match chunk_tasks (range_it (ndofs (base asm)).1.1) (4 * num_threads) with
    | inl e => Some (inl e)
    | inr chunks =>
        (fun results => inr (py_sum results)) <$> mapM asm_chunk chunks
    end.

End WithF.
Arguments Assembler F : clear implicits.
Arguments MassAssembler3D F : clear implicits.
Arguments StiffnessAssembler3D F : clear implicits.
Arguments Collaborators F : clear implicits.

End Asm3D.

(* ================================================================= *)
(** ** The rows and neighbours of a traversal *)

(** The multi-indices of [[s.1, e.1) x [s.2, e.2)] in the order of
    [next_lexicographic2]: the first component runs fastest. *)
Definition box2 (s e : Asm2D.Index) : list Asm2D.Index :=
  seqZ s.2 (e.2 - s.2) ≫= fun b => (fun a => (a, b)) <$> seqZ s.1 (e.1 - s.1).

Definition neigh2 (b : Asm2D.BaseAssembler2D) (i : Asm2D.Index)
  : list Asm2D.Index :=
  box2 (Asm2D.neigh_j b i).1 (Asm2D.neigh_j b i).2.

Definition valid2 (b : Asm2D.BaseAssembler2D) (i : Asm2D.Index) : Prop :=
  0 <= i.1 < (Asm2D.ndofs b).1 /\ 0 <= i.2 < (Asm2D.ndofs b).2.

(** A well-formed 2D assembler: at least one dof per axis, a row of the
    support table per dof, and a number of dofs that fits [size_t]. *)
Definition wf2 (b : Asm2D.BaseAssembler2D) : Prop :=
  1 <= (Asm2D.ndofs b).1 /\ 1 <= (Asm2D.ndofs b).2
  /\ (Asm2D.ndofs b).1 * (Asm2D.ndofs b).2 < 2 ^ 64
  /\ Z.of_nat (length (Asm2D.meshsupp b).1) = (Asm2D.ndofs b).1
  /\ Z.of_nat (length (Asm2D.meshsupp b).2) = (Asm2D.ndofs b).2.

(** The triplets of the traversal of the rows [[s, e)]. *)
Definition triplets2 {F} (asm : Asm2D.Assembler F) (s e : Asm2D.Index)
  : list (Triplet F) :=
  traversal_triplets (Asm2D.to_seq (Asm2D.base asm)) (Asm2D.assemble_impl asm)
    (neigh2 (Asm2D.base asm)) (box2 s e).

(** The same in 3D, in the order of [next_lexicographic3]. *)
Definition box3 (s e : Asm3D.Index) : list Asm3D.Index :=
  seqZ s.2 (e.2 - s.2) ≫= fun c =>
  seqZ s.1.2 (e.1.2 - s.1.2) ≫= fun b =>
  (fun a => (a, b, c)) <$> seqZ s.1.1 (e.1.1 - s.1.1).

Definition neigh3 (b : Asm3D.BaseAssembler3D) (i : Asm3D.Index)
  : list Asm3D.Index :=
  box3 (Asm3D.neigh_j b i).1 (Asm3D.neigh_j b i).2.

Definition valid3 (b : Asm3D.BaseAssembler3D) (i : Asm3D.Index) : Prop :=
  0 <= i.1.1 < (Asm3D.ndofs b).1.1 /\ 0 <= i.1.2 < (Asm3D.ndofs b).1.2
  /\ 0 <= i.2 < (Asm3D.ndofs b).2.

Definition wf3 (b : Asm3D.BaseAssembler3D) : Prop :=
  1 <= (Asm3D.ndofs b).1.1 /\ 1 <= (Asm3D.ndofs b).1.2
  /\ 1 <= (Asm3D.ndofs b).2
  /\ (Asm3D.ndofs b).1.1 * (Asm3D.ndofs b).1.2 * (Asm3D.ndofs b).2 < 2 ^ 64
  /\ Z.of_nat (length (Asm3D.meshsupp b).1.1) = (Asm3D.ndofs b).1.1
  /\ Z.of_nat (length (Asm3D.meshsupp b).1.2) = (Asm3D.ndofs b).1.2
  /\ Z.of_nat (length (Asm3D.meshsupp b).2) = (Asm3D.ndofs b).2.

Definition triplets3 {F} (asm : Asm3D.Assembler F) (s e : Asm3D.Index)
  : list (Triplet F) :=
  traversal_triplets (Asm3D.to_seq (Asm3D.base asm)) (Asm3D.assemble_impl asm)
    (neigh3 (Asm3D.base asm)) (box3 s e).

(* ================================================================= *)
(** ** Symmetric metric tensors *)

Definition sym2 {F} (M : Mat2 F) : Prop := m01 M = m10 M.

Definition sym3 {F} (M : Mat3 F) : Prop :=
  x01 M = x10 M /\ x02 M = x20 M /\ x12 M = x21 M.

(* ================================================================= *)
(** ** An example: the unit square

    Degree 1 in both directions, knots [0, 0, 1/2, 1, 1], so three basis
    functions and two elements per axis; two Gauss nodes per element;
    identity geometry map.  [gauss_lo] and [gauss_hi] are the doubles
    nearest to [(1 - 1/sqrt 3)/2] and [(1 + 1/sqrt 3)/2]. *)

Module UnitSquare.
Import Asm2D.

Definition gauss_lo : PrimFloat.float := 0x1.b0cb174df99c8p-3%float.
Definition gauss_hi : PrimFloat.float := 0x1.93cd3a2c8198ep-1%float.

Definition supports : SuppTable := [(0, 1); (0, 2); (1, 2)].

Definition base_data : BaseAssembler2D :=
  mkBase 2 (3, 3) (supports, supports).

(** The values of the three hat functions at the four Gauss nodes, column
    after column. *)
Definition hat_values : FArray2 PrimFloat.float :=
  mkFArray2 4 [gauss_hi; gauss_lo; 0; 0;
               gauss_lo; gauss_hi; gauss_hi; gauss_lo;
               0; 0; gauss_lo; gauss_hi]%float.

(** Quadrature weight 1/4 in each direction, determinant 1. *)
Definition unit_weights : Grid2 PrimFloat.float :=
  replicate 4 (replicate 4 0x1p-4%float).

Definition mass : MassAssembler2D PrimFloat.float :=
  mkMass base_data (hat_values, hat_values) unit_weights.

(** The same assembler over the integers, with the values scaled to
    integers. *)
Definition mass_Z : MassAssembler2D Z :=
  mkMass base_data
    (mkFArray2 4 [3; 1; 0; 0; 1; 3; 3; 1; 0; 0; 1; 3],
     mkFArray2 4 [3; 1; 0; 0; 1; 3; 3; 1; 0; 0; 1; 3])
    (replicate 4 (replicate 4 1)).

End UnitSquare.

(* ================================================================= *)
(** ** An example: a singular geometry map

    Degree 0, one element and one Gauss node per axis; the Jacobian
    reported at the node is [[1, 2], [2, 4]], of determinant 0. *)

Module SingularGeometry.
Import Asm2D.

Definition kvs : list KnotVector :=
  [mkKnotVector 0 1 [(0, 1)]; mkKnotVector 0 1 [(0, 1)]].

Definition singular_jacobian : Mat2 PrimFloat.float :=
  mkMat2 1%float 2%float 2%float 4%float.

Definition ext : Collaborators PrimFloat.float :=
  mkCollaborators
    ([1%float], [1%float])
    (mkFArray2 1 [1%float], mkFArray2 1 [1%float])
    (mkCArray3 1 [1%float; 0%float], mkCArray3 1 [1%float; 0%float])
    2
    (inr [[singular_jacobian]]).

End SingularGeometry.

From Stdlib Require Import Field.
From Stdlib Require QArith.Qcanon QArith.Qabs.

(* ================================================================= *)
(** ** Exact rational arithmetic *)

(** The field of rationals in lowest terms, for statements about
    division. *)
Definition exactQc : FloatOps Qcanon.Qc := {|
  f0   := Qcanon.Q2Qc (QArith_base.Qmake 0 1);
  f1   := Qcanon.Q2Qc (QArith_base.Qmake 1 1);
  fadd := Qcanon.Qcplus;
  fsub := Qcanon.Qcminus;
  fmul := Qcanon.Qcmult;
  fdiv := Qcanon.Qcdiv;
  fneg := Qcanon.Qcopp;
  fabs := fun x => Qcanon.Q2Qc (Qabs.Qabs (Qcanon.this x))
|}.

(** The rational [n/1]. *)
Definition Qc_of_Z (n : Z) : Qcanon.Qc := Qcanon.Q2Qc (QArith_base.Qmake n 1).

(* ================================================================= *)
(** ** The free function [from_seq3] *)

(** [from_seq3(i, ndofs, out)].  Unlike the method [from_seq] it is not
    compiled with [cdivision]: a zero in [ndofs[2]] or [ndofs[1]] is a
    [ZeroDivisionError], at which the function stops without a
    multi-index ([None]). *)
Definition from_seq3 (i : Z) (ndofs : Z * Z * Z) : option (Z * Z * Z) :=
  if ndofs.2 =? 0 then None else
  let out2 := i mod ndofs.2 in
  let i := i / ndofs.2 in
  if ndofs.1.2 =? 0 then None else
  let out1 := i mod ndofs.1.2 in
  let i := i / ndofs.1.2 in
  Some (i, out1, out2).

(* ================================================================= *)
(** ** The loops of the drivers over a box *)

(** [while True: visit(cur); if not next_lexicographic2(cur, start, end):
    break], started at [cur = start], with the visited multi-indices
    collected in order. *)
Definition visited2 (fuel : nat) (s e : Asm2D.Index)
  : option (list Asm2D.Index) :=
  snd <$> do_while fuel
    (fun '(cur, seen) =>
       let '(c, more) := Asm2D.next_lexicographic2 cur s e in
       Some ((c, seen ++ [cur]), more))
    (s, []).

Definition visited3 (fuel : nat) (s e : Asm3D.Index)
  : option (list Asm3D.Index) :=
  snd <$> do_while fuel
    (fun '(cur, seen) =>
       let '(c, more) := Asm3D.next_lexicographic3 cur s e in
       Some ((c, seen ++ [cur]), more))
    (s, []).

(* ================================================================= *)
(** ** Reading a sparse matrix *)

(** The entry at [(r, c)] of the matrix a sparse matrix stands for: the
    stored value, and [0.0] where nothing is stored. *)
Definition sm_get {F} `{FloatOps F} (M : SparseMatrix F) (r c : Z) : F :=
  default f0 (sm_data M !! (r, c)).

(** Stored entries come in mirrored pairs with one value. *)
Definition sm_symmetric {F} (M : SparseMatrix F) : Prop :=
  forall r c, sm_data M !! (r, c) = sm_data M !! (c, r).

(* ================================================================= *)
(** ** The entry points [mass_2d], [stiffness_2d], [mass_3d],
    [stiffness_3d] *)

Section EntryPoints.
Context {F : Type} `{FloatOps F}.

(** [generic_assemble_2d_parallel(MassAssembler2D(kvs, geo))] *)
Definition mass_2d (fuel : nat) (num_threads : Z) (kvs : list KnotVector)
    (geo : Asm2D.Collaborators F) : option (PyExc + PyObj F) :=
  match Asm2D.MassAssembler2D_init kvs geo with
  | inl e => Some (inl e)
  | inr asm =>
      Asm2D.generic_assemble_2d_parallel fuel num_threads
        (Asm2D.MassAssembler2D_asm asm)
  end.

(** [generic_assemble_2d_parallel(StiffnessAssembler2D(kvs, geo))] *)
Definition stiffness_2d (fuel : nat) (num_threads : Z) (kvs : list KnotVector)
    (geo : Asm2D.Collaborators F) : option (PyExc + PyObj F) :=
  match Asm2D.StiffnessAssembler2D_init kvs geo with
  | inl e => Some (inl e)
  | inr asm =>
      Asm2D.generic_assemble_2d_parallel fuel num_threads
        (Asm2D.StiffnessAssembler2D_asm asm)
  end.

(** [generic_assemble_3d_parallel(MassAssembler3D(kvs, geo))] *)
Definition mass_3d (fuel : nat) (num_threads : Z) (kvs : list KnotVector)
    (geo : Asm3D.Collaborators F) : option (PyExc + PyObj F) :=
  match Asm3D.MassAssembler3D_init kvs geo with
  | inl e => Some (inl e)
  | inr asm =>
      Asm3D.generic_assemble_3d_parallel fuel num_threads
        (Asm3D.MassAssembler3D_asm asm)
  end.

(** [generic_assemble_3d_parallel(StiffnessAssembler3D(kvs, geo))] *)
Definition stiffness_3d (fuel : nat) (num_threads : Z) (kvs : list KnotVector)
    (geo : Asm3D.Collaborators F) : option (PyExc + PyObj F) :=
  match Asm3D.StiffnessAssembler3D_init kvs geo with
  | inl e => Some (inl e)
  | inr asm =>
      Asm3D.generic_assemble_3d_parallel fuel num_threads
        (Asm3D.StiffnessAssembler3D_asm asm)
  end.

End EntryPoints.

(** Axis metadata the assemblers can work with: at least one basis
    function, and a row of the support table for each. *)
Definition kv_wf (kv : KnotVector) : Prop :=
  1 <= kv_numdofs kv
  /\ Z.of_nat (length (mesh_support_idx_all kv)) = kv_numdofs kv.

(** The knot vector of the unit-square example: degree 1, three basis
    functions. *)
Definition hat_kv : KnotVector := mkKnotVector 1 3 UnitSquare.supports.

(* ================================================================= *)
(** ** An example: piecewise constants on a box

    Degree 0 in all directions: two elements along the first and the third
    axis, one along the second; a basis function per element, one Gauss
    node per element; identity geometry map. *)

Module UnitBox.
Import Asm3D.

Definition two_cells : SuppTable := [(0, 1); (1, 2)].
Definition one_cell : SuppTable := [(0, 1)].

Definition base_data : BaseAssembler3D :=
  mkBase 1 (2, 1, 2) (two_cells, one_cell, two_cells).

(** The values of the basis functions at the Gauss nodes, column after
    column. *)
Definition indicator2 : FArray2 PrimFloat.float :=
  mkFArray2 2 [1; 0; 0; 1]%float.
Definition indicator1 : FArray2 PrimFloat.float :=
  mkFArray2 1 [1]%float.

Definition mass : MassAssembler3D PrimFloat.float :=
  mkMass base_data (indicator2, indicator1, indicator2)
    [[[0x1p-2; 0x1p-2]]; [[0x1p-2; 0x1p-2]]]%float.

Definition kvs : list KnotVector :=
  [mkKnotVector 0 2 two_cells; mkKnotVector 0 1 one_cell;
   mkKnotVector 0 2 two_cells].

End UnitBox.

(* ================================================================= *)
(** ** Tables of B-spline supports *)

(** Both endpoints are non-decreasing in the function index and no
    support is empty. *)
Definition sorted_table (meshsupp : SuppTable) : Prop :=
  left_sorted meshsupp /\ right_sorted meshsupp /\ supports_nonempty meshsupp.

(** [j] lies in the range returned for [i]. *)
Definition in_joint_support (meshsupp : SuppTable) (i j : Z) : Prop :=
  intv_a (find_joint_support_functions meshsupp i) <= j
  < intv_b (find_joint_support_functions meshsupp i).

(* ================================================================= *)
(** ** The collaborators of the two examples *)

Module UnitSquareGeometry.
Import Asm2D.

Definition kvs : list KnotVector := [hat_kv; hat_kv].

(** Values and first derivatives of the three hat functions at the four
    Gauss nodes: basis function, node, derivative. *)
Definition hat_derivs : CArray3 PrimFloat.float :=
  mkCArray3 4
    [UnitSquare.gauss_hi; -2; UnitSquare.gauss_lo; -2; 0; 0; 0; 0;
     UnitSquare.gauss_lo; 2; UnitSquare.gauss_hi; 2;
     UnitSquare.gauss_hi; -2; UnitSquare.gauss_lo; -2;
     0; 0; 0; 0; UnitSquare.gauss_lo; 2; UnitSquare.gauss_hi; 2]%float.

Definition quarter_weights : list PrimFloat.float :=
  [0x1p-2; 0x1p-2; 0x1p-2; 0x1p-2]%float.

Definition identity2 : Mat2 PrimFloat.float := mkMat2 1%float 0%float 0%float 1%float.

(** The identity map of the unit square. *)
Definition ext : Collaborators PrimFloat.float :=
  mkCollaborators
    (quarter_weights, quarter_weights)
    (UnitSquare.hat_values, UnitSquare.hat_values)
    (hat_derivs, hat_derivs)
    2
    (inr (replicate 4 (replicate 4 identity2))).

End UnitSquareGeometry.

Module UnitBoxGeometry.
Import Asm3D.

Definition indicator2_derivs : CArray3 PrimFloat.float :=
  mkCArray3 2 [1; 0; 0; 0; 0; 0; 1; 0]%float.
Definition indicator1_derivs : CArray3 PrimFloat.float :=
  mkCArray3 1 [1; 0]%float.

Definition identity3 : Mat3 PrimFloat.float :=
  mkMat3 1%float 0%float 0%float 0%float 1%float 0%float
         0%float 0%float 1%float.

(** The identity map of the box. *)
Definition ext : Collaborators PrimFloat.float :=
  mkCollaborators
    ([0x1p-1; 0x1p-1]%float, [1%float], [0x1p-1; 0x1p-1]%float)
    (UnitBox.indicator2, UnitBox.indicator1, UnitBox.indicator2)
    (indicator2_derivs, indicator1_derivs, indicator2_derivs)
    3
    (inr (replicate 2 (replicate 1 (replicate 2 identity3)))).

End UnitBoxGeometry.

(* ================================================================= *)
(** ** [multi_assemble]: assembling a list of entries *)

(** A slice of the array [result]: the window
    [[view_off, view_off + view_len)] of its buffer.  The threads write
    through such slices into the one buffer of [result]. *)
Record MemView := mkView { view_off : Z; view_len : Z }.

(** [v[a:b]] for [0 <= a]: both ends are clipped to the length. *)
#[export] Instance MemView_sliceable : Sliceable MemView := {|
  py_len := view_len;
  py_slice v a b :=
    mkView (view_off v + Z.min a (view_len v))
           (Z.max 0 (Z.min b (view_len v) - Z.min a (view_len v)))
|}.

(** [np.empty(n)]: [n] doubles of unspecified content, [garbage k] at
    index [k]. *)
Definition np_empty {F} (garbage : Z -> F) (n : Z) : list F :=
  map garbage (seqZ 0 n).

Section MultiAssemble.
Context {F : Type} {A : Type}.

(** Both base classes: [num_threads] is [pyiga.get_max_threads()],
    [max_workers] is [thread_pool._max_workers], [_asm_pool] the list the
    assembler holds on entry; the new list is returned with the result.
    [indices] are the rows of [np.array(list(indices))]; an empty list
    gives an array of rank 1, which the assignment to the view of rank 2
    refuses.  The pool's [map] pairs the three sequences up to the
    shortest; the chunks are run here one after the other, in order. *)
Definition multi_assemble_with
    (multi_assemble_chunk : A -> list (Z * Z) -> MemView -> list F -> list F)
    (_asm_chunk : A -> list (Z * Z) -> MemView -> list F -> list F)
    (shared_clone : A -> A)
    (num_threads max_workers : Z) (garbage : Z -> F)
    (self : A) (_asm_pool : list A) (indices : list (Z * Z))
  : PyExc + (list A * list F) :=
  match indices with
  | [] => inl ValueError
  | _ :: _ =>
      let idx_arr := indices in
      let mem := np_empty garbage (shape0 idx_arr) in
      let result := mkView 0 (shape0 idx_arr) in
      if num_threads <=? 1 then
        inr (_asm_pool, multi_assemble_chunk self idx_arr result mem)
      else
        let _asm_pool :=
          match _asm_pool with
          | [] => self :: map (fun _ => shared_clone self)
                              (seqZ 1 (max_workers - 1))
          | _ :: _ => _asm_pool
          end in
        match chunk_tasks idx_arr num_threads,
              chunk_tasks result num_threads with
        | inr idx_chunks, inr out_chunks =>
            inr (_asm_pool,
                 fold_left
                   (fun mem '(asm, (idxchunk, out)) =>
                      _asm_chunk asm idxchunk out mem)
                   (zip _asm_pool (zip idx_chunks out_chunks)) mem)
        | inl e, _ => inl e
        | _, inl e => inl e
        end
  end.

End MultiAssemble.

Module Multi2D.
Import Asm2D.
Section WithF.
Context {F : Type} `{FloatOps F}.

(** [for k in range(idx_arr.shape[0]): out[k] = assemble_impl(I, J)] with
    [I], [J] from [from_seq]; [out[k]] is the buffer at [view_off + k]
    (bounds checks are off). *)
Definition multi_assemble_chunk (self : Assembler F)
    (idx_arr : list (Z * Z)) (out : MemView) (mem : list F) : list F :=
  for_range (shape0 idx_arr)
    (fun k mem =>
       let I := from_seq (base self) (get1 (0, 0) idx_arr k).1 in
       let J := from_seq (base self) (get1 (0, 0) idx_arr k).2 in
       <[Z.to_nat (view_off out + k) := assemble_impl self I J]> mem)
    mem.

Definition _asm_chunk_2d (asm : Assembler F) (idxchunk : list (Z * Z))
    (out : MemView) (mem : list F) : list F :=
  multi_assemble_chunk asm idxchunk out mem.

Definition multi_assemble :=
  multi_assemble_with multi_assemble_chunk _asm_chunk_2d shared_clone.

End WithF.
End Multi2D.

Module Multi3D.
Import Asm3D.
Section WithF.
Context {F : Type} `{FloatOps F}.

Definition multi_assemble_chunk (self : Assembler F)
    (idx_arr : list (Z * Z)) (out : MemView) (mem : list F) : list F :=
  for_range (shape0 idx_arr)
    (fun k mem =>
       let I := from_seq (base self) (get1 (0, 0) idx_arr k).1 in
       let J := from_seq (base self) (get1 (0, 0) idx_arr k).2 in
       <[Z.to_nat (view_off out + k) := assemble_impl self I J]> mem)
    mem.

Definition _asm_chunk_3d (asm : Assembler F) (idxchunk : list (Z * Z))
    (out : MemView) (mem : list F) : list F :=
  multi_assemble_chunk asm idxchunk out mem.

Definition multi_assemble :=
  multi_assemble_with multi_assemble_chunk _asm_chunk_3d shared_clone.

End WithF.
End Multi3D.

(* ================================================================= *)
(** ** Determinants and inverses: the remaining entry points *)

Section Inverses.
Context {F : Type} `{FloatOps F}.

(** The body of the loops of [inverses_2x2]. *)
Definition inverses_2x2_at (X : Mat2 F) : Mat2 F :=
  let a := m00 X in let b := m01 X in let c := m10 X in let d := m11 X in
  let det := fsub (fmul a d) (fmul b c) in
  mkMat2 (fdiv d det) (fdiv (fneg b) det) (fdiv (fneg c) det) (fdiv a det).

Definition inverses_2x2 (X : Grid2 (Mat2 F)) : Grid2 (Mat2 F) :=
  map (map inverses_2x2_at) X.

(** The body of the loops of [inverses_3x3]; [x] is [X[i0, i1, i2, :, :]]. *)
Definition inverses_3x3_at (x : Mat3 F) : Mat3 F :=
  let det :=
    fadd (fsub
      (fmul (x00 x) (fsub (fmul (x11 x) (x22 x)) (fmul (x21 x) (x12 x))))
      (fmul (x01 x) (fsub (fmul (x10 x) (x22 x)) (fmul (x12 x) (x20 x)))))
      (fmul (x02 x) (fsub (fmul (x10 x) (x21 x)) (fmul (x11 x) (x20 x)))) in
  let invdet := fdiv f1 det in
  mkMat3
    (fmul (fsub (fmul (x11 x) (x22 x)) (fmul (x21 x) (x12 x))) invdet)
    (fmul (fsub (fmul (x02 x) (x21 x)) (fmul (x01 x) (x22 x))) invdet)
    (fmul (fsub (fmul (x01 x) (x12 x)) (fmul (x02 x) (x11 x))) invdet)
    (fmul (fsub (fmul (x12 x) (x20 x)) (fmul (x10 x) (x22 x))) invdet)
    (fmul (fsub (fmul (x00 x) (x22 x)) (fmul (x02 x) (x20 x))) invdet)
    (fmul (fsub (fmul (x10 x) (x02 x)) (fmul (x00 x) (x12 x))) invdet)
    (fmul (fsub (fmul (x10 x) (x21 x)) (fmul (x20 x) (x11 x))) invdet)
    (fmul (fsub (fmul (x20 x) (x01 x)) (fmul (x00 x) (x21 x))) invdet)
    (fmul (fsub (fmul (x00 x) (x11 x)) (fmul (x10 x) (x01 x))) invdet).

Definition inverses_3x3 (X : Grid3 (Mat3 F)) : Grid3 (Mat3 F) :=
  map (map (map inverses_3x3_at)) X.

(** The arrays the three functions [det_and_inv], [determinants] and
    [inverses] handle themselves: 2x2 matrices on a grid of rank 2 and 3x3
    matrices on a grid of rank 3.  Other sizes go to [np.linalg]. *)
Inductive Jacobians :=
| Jac2 (X : Grid2 (Mat2 F))
| Jac3 (X : Grid3 (Mat3 F)).

Inductive Determinants :=
| Det2 (d : Grid2 F)
| Det3 (d : Grid3 F).

Definition det_and_inv (X : Jacobians) : Determinants * Jacobians :=
  match X with
  | Jac2 X => let '(det, inv) := det_and_inv_2x2 X in (Det2 det, Jac2 inv)
  | Jac3 X => let '(det, inv) := det_and_inv_3x3 X in (Det3 det, Jac3 inv)
  end.

Definition determinants (X : Jacobians) : Determinants :=
  match X with
  | Jac2 X => Det2 (determinants_2x2 X)
  | Jac3 X => Det3 (determinants_3x3 X)
  end.

Definition inverses (X : Jacobians) : Jacobians :=
  match X with
  | Jac2 X => Jac2 (inverses_2x2 X)
  | Jac3 X => Jac3 (inverses_3x3 X)
  end.

(** Matrix products, identities and transposes, to state what the
    functions compute. *)
Definition mat2_mul (A B : Mat2 F) : Mat2 F :=
  mkMat2 (fadd (fmul (m00 A) (m00 B)) (fmul (m01 A) (m10 B)))
         (fadd (fmul (m00 A) (m01 B)) (fmul (m01 A) (m11 B)))
         (fadd (fmul (m10 A) (m00 B)) (fmul (m11 A) (m10 B)))
         (fadd (fmul (m10 A) (m01 B)) (fmul (m11 A) (m11 B))).

Definition id2 : Mat2 F := mkMat2 f1 f0 f0 f1.

Definition transpose2 (A : Mat2 F) : Mat2 F :=
  mkMat2 (m00 A) (m10 A) (m01 A) (m11 A).

Definition row_col3 (a0 a1 a2 b0 b1 b2 : F) : F :=
  fadd (fadd (fmul a0 b0) (fmul a1 b1)) (fmul a2 b2).

Definition mat3_mul (A B : Mat3 F) : Mat3 F :=
  mkMat3
    (row_col3 (x00 A) (x01 A) (x02 A) (x00 B) (x10 B) (x20 B))
    (row_col3 (x00 A) (x01 A) (x02 A) (x01 B) (x11 B) (x21 B))
    (row_col3 (x00 A) (x01 A) (x02 A) (x02 B) (x12 B) (x22 B))
    (row_col3 (x10 A) (x11 A) (x12 A) (x00 B) (x10 B) (x20 B))
    (row_col3 (x10 A) (x11 A) (x12 A) (x01 B) (x11 B) (x21 B))
    (row_col3 (x10 A) (x11 A) (x12 A) (x02 B) (x12 B) (x22 B))
    (row_col3 (x20 A) (x21 A) (x22 A) (x00 B) (x10 B) (x20 B))
    (row_col3 (x20 A) (x21 A) (x22 A) (x01 B) (x11 B) (x21 B))
    (row_col3 (x20 A) (x21 A) (x22 A) (x02 B) (x12 B) (x22 B)).

Definition id3 : Mat3 F := mkMat3 f1 f0 f0 f0 f1 f0 f0 f0 f1.

Definition transpose3 (A : Mat3 F) : Mat3 F :=
  mkMat3 (x00 A) (x10 A) (x20 A)
         (x01 A) (x11 A) (x21 A)
         (x02 A) (x12 A) (x22 A).

(** [Y] is the inverse of [X] on both sides. *)
Definition inverse_of2 (X Y : Mat2 F) : Prop :=
  mat2_mul X Y = id2 /\ mat2_mul Y X = id2.

Definition inverse_of3 (X Y : Mat3 F) : Prop :=
  mat3_mul X Y = id3 /\ mat3_mul Y X = id3.

End Inverses.
Arguments Jacobians F : clear implicits.
Arguments Determinants F : clear implicits.

(* ================================================================= *)
(** ** [prepare_tile_indices3] *)

(** The conversion of a [size_t] or an [int] to [unsigned]. *)
Definition wrap32 (z : Z) : Z := z mod 2 ^ 32.

(** The conversion of a Python integer to an argument of type [int]:
    [OverflowError] ([None]) outside the range of the type. *)
Definition as_int (z : Z) : option Z :=
  if (- 2 ^ 31 <=? z) && (z <? 2 ^ 31) then Some z else None.

(** [make_intv(meshsupp[r][ii, 0], meshsupp[r][ii, 1])]: the table is
    indexed as a Python object here, so a row that does not exist raises
    [IndexError] ([None]), and its entries are converted to [int]. *)
Definition supp_at (meshsupp_r : SuppTable) (ii : Z) : option IntInterval :=
  row ← meshsupp_r !! Z.to_nat ii;
  a ← as_int row.1; b ← as_int row.2;
  Some (make_intv a b).

(** All entries of the table are in the range of [int]. *)
Definition int_table (meshsupp_r : SuppTable) : Prop :=
  Forall (fun row : Z * Z => - 2 ^ 31 <= row.1 < 2 ^ 31
                             /\ - 2 ^ 31 <= row.2 < 2 ^ 31) meshsupp_r.

(** [for r in range(3): intvs[r] = intersect_intervals(...)] *)
Definition joint_tiles (meshsupp : SuppTable * SuppTable * SuppTable)
    (I J : Z * Z * Z) : option (IntInterval * IntInterval * IntInterval) :=
  a0 ← supp_at meshsupp.1.1 I.1.1; b0 ← supp_at meshsupp.1.1 J.1.1;
  a1 ← supp_at meshsupp.1.2 I.1.2; b1 ← supp_at meshsupp.1.2 J.1.2;
  a2 ← supp_at meshsupp.2 I.2; b2 ← supp_at meshsupp.2 J.2;
  Some (intersect_intervals a0 b0, intersect_intervals a1 b1,
        intersect_intervals a2 b2).

(** The three loops over [t0], [t1], [t2]: the rows pushed for one matrix
    entry, nine [unsigned] each.  The loop variables run over C integers,
    the bounds being of type [int]. *)
Definition tile_rows (I J : Z * Z * Z)
    (intvs : IntInterval * IntInterval * IntInterval) : list (list Z) :=
  t0 ← seqZ (intv_a intvs.1.1) (intv_b intvs.1.1 - intv_a intvs.1.1);
  t1 ← seqZ (intv_a intvs.1.2) (intv_b intvs.1.2 - intv_a intvs.1.2);
  t2 ← seqZ (intv_a intvs.2) (intv_b intvs.2 - intv_a intvs.2);
  [map wrap32 [I.1.1; I.1.2; I.2; J.1.1; J.1.2; J.2; t0; t1; t2]].

(** The body of the loop over [k], for the row [(ij[k,0], ij[k,1])]. *)
Definition entry_tiles (meshsupp : SuppTable * SuppTable * SuppTable)
    (numdofs : Z * Z * Z) (ij : Z * Z) : option (list (list Z)) :=
  I ← from_seq3 ij.1 numdofs;
  J ← from_seq3 ij.2 numdofs;
  intvs ← joint_tiles meshsupp I J;
  Some (tile_rows I J intvs).

(** [prepare_tile_indices3(ij_arr, meshsupp, numdofs)]: the rows of the
    returned array of shape [(M, 9)].  [None] is an error: of [from_seq3],
    of the indexing of a table or the conversion of its entries, or of the
    cast [<unsigned[:result.size()]>] in the last line, which refuses a
    vector without elements. *)
Definition prepare_tile_indices3 (ij_arr : list (Z * Z))
    (meshsupp : SuppTable * SuppTable * SuppTable) (numdofs : Z * Z * Z)
  : option (list (list Z)) :=
  blocks ← mapM (entry_tiles meshsupp numdofs) ij_arr;
  let result := concat blocks in
  match result with
  | [] => None
  | _ :: _ => Some result
  end.

(** [t] is a tile of the support of basis function [i]. *)
Definition in_support (meshsupp_r : SuppTable) (i t : Z) : Prop :=
  supp0 meshsupp_r i <= t < supp1 meshsupp_r i.

(** [t] is a tile of the joint support of the multi-indices [I] and [J]. *)
Definition in_joint_tiles (meshsupp : SuppTable * SuppTable * SuppTable)
    (I J t : Z * Z * Z) : Prop :=
  (in_support meshsupp.1.1 I.1.1 t.1.1 /\ in_support meshsupp.1.1 J.1.1 t.1.1)
  /\ (in_support meshsupp.1.2 I.1.2 t.1.2
      /\ in_support meshsupp.1.2 J.1.2 t.1.2)
  /\ (in_support meshsupp.2 I.2 t.2 /\ in_support meshsupp.2 J.2 t.2).

(** [row] is a row [i0 i1 i2 j0 j1 j2 t0 t1 t2] for the matrix entry
    [ij]: the multi-indices of its two dofs and a tile of their joint
    support. *)
Definition tile_row_of (meshsupp : SuppTable * SuppTable * SuppTable)
    (numdofs : Z * Z * Z) (ij : Z * Z) (row : list Z) : Prop :=
  exists I J t,
    from_seq3 ij.1 numdofs = Some I /\ from_seq3 ij.2 numdofs = Some J
    /\ in_joint_tiles meshsupp I J t
    /\ row = map wrap32 [I.1.1; I.1.2; I.2; J.1.1; J.1.2; J.2;
                         t.1.1; t.1.2; t.2].

(** The intervals of tiles of the joint support of [I] and [J], axis by
    axis, for multi-indices inside the tables. *)
Definition joint_intervals (meshsupp : SuppTable * SuppTable * SuppTable)
    (I J : Z * Z * Z) : IntInterval * IntInterval * IntInterval :=
  (intersect_intervals (supp_intv meshsupp.1.1 I.1.1)
                       (supp_intv meshsupp.1.1 J.1.1),
   intersect_intervals (supp_intv meshsupp.1.2 I.1.2)
                       (supp_intv meshsupp.1.2 J.1.2),
   intersect_intervals (supp_intv meshsupp.2 I.2) (supp_intv meshsupp.2 J.2)).

(* ================================================================= *)
(** ** Public utility functions: [rank_1_update], [aca3d_update] *)

(** [for i in range(n): s = body(i, s)] with a body that may raise; the
    loop stops at the first exception ([None]). *)
Definition for_range_opt {S} (n : Z) (body : Z -> S -> option S) (s : S)
  : option S :=
  fold_left (fun os i => os ≫= body i) (seqZ 0 n) (Some s).

(** [X[i, j] = x] and [X[i, j, k] = x], inside the array. *)
Definition set2 {A} (X : Grid2 A) (i j : Z) (x : A) : Grid2 A :=
  <[Z.to_nat i := <[Z.to_nat j := x]> (get1 [] X i)]> X.

Definition set3 {A} (X : Grid3 A) (i j k : Z) (x : A) : Grid3 A :=
  <[Z.to_nat i := set2 (get1 [] X i) j k x]> X.

Section Updates.
Context {F : Type} `{FloatOps F}.

(** [rank_1_update(X, alpha, u, v)]: [X += alpha * u * v^T], in place.
    Bounds checks are on in this function: at [u[i]] or [v[j]] outside the
    arrays the loops end with an [IndexError] ([None]; [X] is then left
    partly updated). *)
Definition rank_1_update (X : Grid2 F) (alpha : F) (u v : list F)
  : option (Grid2 F) :=
  let n0 := shape0 X in
  let n1 := shape1 X in
  for_range_opt n0 (fun i X =>
    ui ← u !! Z.to_nat i;
    let au := fmul alpha ui in
    for_range_opt n1 (fun j X =>
      vj ← v !! Z.to_nat j;
      Some (set2 X i j (fadd (get2 f0 X i j) (fmul au vj)))) X) X.

(** [aca3d_update(X, alpha, u, V)]: [X[i,j,k] += alpha * u[i] * V[j,k]]. *)
Definition aca3d_update (X : Grid3 F) (alpha : F) (u : list F) (V : Grid2 F)
  : option (Grid3 F) :=
  let n0 := shape0 X in
  let n1 := shape1 X in
  let n2 := shape2 X in
  for_range_opt n0 (fun i X =>
    ui ← u !! Z.to_nat i;
    let au := fmul alpha ui in
    for_range_opt n1 (fun j X =>
      for_range_opt n2 (fun k X =>
        vjk ← V !! Z.to_nat j ≫= (fun row => row !! Z.to_nat k);
        Some (set3 X i j k (fadd (get3 f0 X i j k) (fmul au vjk)))) X) X) X.

(** [outer_prod(x1, x2, out)]: [out[i,j] = x1[i] * x2[j]]; bounds checks
    are off. *)
Definition outer_prod (x1 x2 : list F) (out : Grid2 F) : Grid2 F :=
  let n1 := shape0 x1 in
  let n2 := shape0 x2 in
  for_range n1 (fun i out =>
    for_range n2 (fun j out =>
      set2 out i j (fmul (get1 f0 x1 i) (get1 f0 x2 j))) out) out.

(** [outer_prod3(x1, x2, x3, out)]: [out[i,j,k] = x1[i] * x2[j] * x3[k]]. *)
Definition outer_prod3 (x1 x2 x3 : list F) (out : Grid3 F) : Grid3 F :=
  let n1 := shape0 x1 in
  let n2 := shape0 x2 in
  let n3 := shape0 x3 in
  for_range n1 (fun i out =>
    for_range n2 (fun j out =>
      for_range n3 (fun k out =>
        set3 out i j k
          (fmul (fmul (get1 f0 x1 i) (get1 f0 x2 j)) (get1 f0 x3 k)))
        out) out) out.

(** What the updates compute, entry by entry. *)
Definition rank_1_entry (alpha : F) (u v : list F) (i j : nat) (x : F) : F :=
  fadd x (fmul (fmul alpha (get1 f0 u (Z.of_nat i))) (get1 f0 v (Z.of_nat j))).

Definition aca3d_entry (alpha : F) (u : list F) (V : Grid2 F)
    (i j k : nat) (x : F) : F :=
  fadd x (fmul (fmul alpha (get1 f0 u (Z.of_nat i)))
               (get2 f0 V (Z.of_nat j) (Z.of_nat k))).

End Updates.

(** An array of rank 2 with [m] columns, of rank 3 with [m1 x m2]
    planes. *)
Definition rect2 {A} (m : nat) (X : Grid2 A) : Prop :=
  Forall (fun row => length row = m) X.

Definition rect3 {A} (m1 m2 : nat) (X : Grid3 A) : Prop :=
  Forall (fun plane => length plane = m1 /\ rect2 m2 plane) X.
(* ################################################################# *)
(** * Properties *)

(* ----------------------------------------------------------------- *)
(** *** The two scans *)

Section Scans.
Variable meshsupp : SuppTable.
Variable i : Z.

Lemma scan_down_fuel fuel j minj :
  (Z.to_nat (j + 1) <= fuel)%nat ->
  scan_down fuel meshsupp i j minj
  = scan_down (Z.to_nat (j + 1)) meshsupp i j minj.
Proof.
  revert j minj. induction fuel as [|fuel IH]; intros j minj Hf.
  - replace (Z.to_nat (j + 1)) with O by lia. reflexivity.
  - destruct (Z.to_nat (j + 1)) as [|m] eqn:Hm.
    + simpl. replace (0 <=? j) with false by (symmetry; apply Z.leb_gt; lia).
      reflexivity.
    + simpl. destruct ((0 <=? j) && _); [|reflexivity].
      rewrite IH by lia.
      replace (Z.to_nat (j - 1 + 1)) with m by lia. reflexivity.
Qed.

Lemma scan_down_le fuel j minj :
  j <= minj -> scan_down fuel meshsupp i j minj <= minj.
Proof.
  revert j minj. induction fuel as [|fuel IH]; intros j minj Hj; simpl.
  - lia.
  - destruct (_ && _); [|lia].
    specialize (IH (j - 1) j). lia.
Qed.

Lemma scan_up_ge fuel n j maxj :
  maxj <= j -> maxj <= scan_up fuel meshsupp n i j maxj.
Proof.
  revert j maxj. induction fuel as [|fuel IH]; intros j maxj Hj; simpl.
  - lia.
  - destruct (_ && _); [|lia].
    specialize (IH (j + 1) j). lia.
Qed.
End Scans.

Lemma scan_up_fuel meshsupp i fuel n j maxj :
  (Z.to_nat (n - j) <= fuel)%nat ->
  scan_up fuel meshsupp n i j maxj
  = scan_up (Z.to_nat (n - j)) meshsupp n i j maxj.
Proof.
  revert j maxj. induction fuel as [|fuel IH]; intros j maxj Hf.
  - replace (Z.to_nat (n - j)) with O by lia. reflexivity.
  - destruct (Z.to_nat (n - j)) as [|m] eqn:Hm.
    + simpl. replace (j <? n) with false by (symmetry; apply Z.ltb_ge; lia).
      reflexivity.
    + simpl. destruct ((j <? n) && _); [|reflexivity].
      rewrite IH by lia.
      replace (Z.to_nat (n - (j + 1))) with m by lia. reflexivity.
Qed.

(** What the first loop returns: either it does not run and [minj] is
    unchanged, or it stops at the least [r] below which the guard fails. *)
Lemma scan_down_spec meshsupp i fuel j minj :
  (Z.to_nat (j + 1) <= fuel)%nat ->
  let r := scan_down fuel meshsupp i j minj in
  (r = minj /\ (j < 0 \/ supp1 meshsupp j <= supp0 meshsupp i))
  \/ (0 <= r <= j
      /\ (forall k, r <= k <= j -> supp0 meshsupp i < supp1 meshsupp k)
      /\ (r = 0 \/ supp1 meshsupp (r - 1) <= supp0 meshsupp i)).
Proof.
  revert j minj. induction fuel as [|fuel IH]; intros j minj Hf; simpl.
  - left. split; [reflexivity | lia].
  - destruct (0 <=? j) eqn:Hj; simpl.
    2:{ left. split; [reflexivity|]. apply Z.leb_gt in Hj. lia. }
    apply Z.leb_le in Hj.
    destruct (supp1 meshsupp j >? supp0 meshsupp i) eqn:Hg.
    2:{ left. split; [reflexivity|]. right.
        rewrite Z.gtb_ltb in Hg. apply Z.ltb_ge in Hg. lia. }
    rewrite Z.gtb_ltb in Hg. apply Z.ltb_lt in Hg.
    right. destruct (IH (j - 1) j) as [[-> Hstop] | (Hr & Hall & Hend)]; [lia| |].
    + split; [lia|]. split.
      * intros k Hk. replace k with j by lia. exact Hg.
      * destruct Hstop as [Hstop | Hstop]; [left; lia | right; exact Hstop].
    + split; [lia|]. split; [|exact Hend].
      intros k Hk. destruct (decide (k = j)) as [-> | Hne]; [exact Hg|].
      apply Hall. lia.
Qed.

Lemma scan_up_spec meshsupp i n fuel j maxj :
  (Z.to_nat (n - j) <= fuel)%nat ->
  let r := scan_up fuel meshsupp n i j maxj in
  (r = maxj /\ (n <= j \/ supp1 meshsupp i <= supp0 meshsupp j))
  \/ (j <= r < n
      /\ (forall k, j <= k <= r -> supp0 meshsupp k < supp1 meshsupp i)
      /\ (r = n - 1 \/ supp1 meshsupp i <= supp0 meshsupp (r + 1))).
Proof.
  revert j maxj. induction fuel as [|fuel IH]; intros j maxj Hf; simpl.
  - left. split; [reflexivity | lia].
  - destruct (j <? n) eqn:Hj; simpl.
    2:{ left. split; [reflexivity|]. apply Z.ltb_ge in Hj. lia. }
    apply Z.ltb_lt in Hj.
    destruct (supp0 meshsupp j <? supp1 meshsupp i) eqn:Hg.
    2:{ left. split; [reflexivity|]. right. apply Z.ltb_ge in Hg. lia. }
    apply Z.ltb_lt in Hg.
    right. destruct (IH (j + 1) j) as [[-> Hstop] | (Hr & Hall & Hend)]; [lia| |].
    + split; [lia|]. split.
      * intros k Hk. replace k with j by lia. exact Hg.
      * destruct Hstop as [Hstop | Hstop]; [left; lia | right; exact Hstop].
    + split; [lia|]. split; [|exact Hend].
      intros k Hk. destruct (decide (k = j)) as [-> | Hne]; [exact Hg|].
      apply Hall. lia.
Qed.

Lemma overlaps_iff meshsupp j i :
  overlaps meshsupp j i = true
  <-> supp0 meshsupp j < supp1 meshsupp j
      /\ supp0 meshsupp j < supp1 meshsupp i
      /\ supp0 meshsupp i < supp1 meshsupp j
      /\ supp0 meshsupp i < supp1 meshsupp i.
Proof.
  unfold overlaps, intersect_intervals, supp_intv; simpl.
  rewrite Z.ltb_lt. lia.
Qed.

Lemma filter_none {A} (P : A -> Prop) `{forall x, Decision (P x)} (l : list A) :
  Forall (fun x => ~ P x) l -> filter P l = [].
Proof.
  induction 1 as [|x l Hx _ IH]; [reflexivity|].
  rewrite filter_cons_False by exact Hx. exact IH.
Qed.

Lemma filter_all {A} (P : A -> Prop) `{forall x, Decision (P x)} (l : list A) :
  Forall P l -> filter P l = l.
Proof.
  induction 1 as [|x l Hx _ IH]; [reflexivity|].
  rewrite filter_cons_True by exact Hx. now rewrite IH.
Qed.

(** A predicate that holds exactly on [[lo, hi)] filters [0 .. n-1] to
    [lo .. hi-1]. *)
Lemma filter_seqZ_interval (P : Z -> Prop) `{forall x, Decision (P x)} n lo hi :
  0 <= lo -> lo <= hi -> hi <= n ->
  (forall j, 0 <= j < n -> (P j <-> lo <= j < hi)) ->
  filter P (seqZ 0 n) = seqZ lo (hi - lo).
Proof.
  intros Hlo Hlh Hhn HP.
  replace n with (lo + ((hi - lo) + (n - hi))) by lia.
  rewrite seqZ_app by lia. rewrite seqZ_app by lia.
  rewrite !filter_app.
  rewrite (filter_none P (seqZ 0 lo)).
  2:{ apply Forall_seqZ. intros j Hj Hp. apply HP in Hp; lia. }
  rewrite (filter_none P (seqZ (0 + lo + (hi - lo)) (n - hi))).
  2:{ apply Forall_seqZ. intros j Hj Hp. apply HP in Hp; lia. }
  rewrite app_nil_r. simpl.
  apply filter_all. apply Forall_seqZ. intros j Hj. apply HP; lia.
Qed.

(** The range of [find_joint_support_functions] always contains [i]. *)
Lemma find_joint_support_functions_contains meshsupp i :
  let r := find_joint_support_functions meshsupp i in
  intv_a r <= i < intv_b r.
Proof.
  simpl. split.
  - apply scan_down_le. lia.
  - pose proof (scan_up_ge meshsupp i
      (Z.to_nat (Z.of_nat (length meshsupp) - (i + 1)))
      (Z.of_nat (length meshsupp)) (i + 1) i). lia.
Qed.


(* ================================================================= *)
(** ** SupportIndex *)

Lemma find_joint_support_functions_bounds meshsupp i :
  0 <= i < Z.of_nat (length meshsupp) ->
  let r := find_joint_support_functions meshsupp i in
  0 <= intv_a r /\ intv_b r <= Z.of_nat (length meshsupp).
Proof.
  intros Hi. simpl. split.
  - destruct (scan_down_spec meshsupp i (Z.to_nat (i + 1)) i i)
      as [[-> _] | (Hr & _)]; lia.
  - destruct (scan_up_spec meshsupp i (Z.of_nat (length meshsupp))
                (Z.to_nat (Z.of_nat (length meshsupp) - (i + 1))) (i + 1) i)
      as [[-> _] | (Hr & _)]; lia.
Qed.

(** C3, amended: in a table whose left and right endpoints are both
    non-decreasing and whose supports are all non-empty,
    [find_joint_support_functions] returns for every function index the
    range of the brute-force overlap scan. *)
Theorem find_joint_support_functions_brute_force meshsupp i :
  left_sorted meshsupp -> right_sorted meshsupp ->
  supports_nonempty meshsupp ->
  0 <= i < Z.of_nat (length meshsupp) ->
  matches_brute_force meshsupp i.
Proof.
  intros HL HR HN Hi.
  pose proof (find_joint_support_functions_bounds meshsupp i Hi) as Hb.
  pose proof (find_joint_support_functions_contains meshsupp i) as Hc.
  assert (Hpt : forall j, 0 <= j < Z.of_nat (length meshsupp) ->
            (overlaps meshsupp j i = true <->
             intv_a (find_joint_support_functions meshsupp i) <= j
             < intv_b (find_joint_support_functions meshsupp i))).
  { intros j Hj. rewrite overlaps_iff. simpl in *.
    set (n := Z.of_nat (length meshsupp)) in *.
    pose proof (HN i Hi) as Hni. pose proof (HN j Hj) as Hnj.
    destruct (scan_down_spec meshsupp i (Z.to_nat (i + 1)) i i)
      as [[_ Hstop] | (Hlo & Hall & Hend)]; [lia | lia |].
    destruct (scan_up_spec meshsupp i n (Z.to_nat (n - (i + 1))) (i + 1) i)
      as [[Hup Hstop] | (Hhi & Hallu & Hendu)]; [lia | |].
    - (* the upward loop does not run *)
      rewrite Hup.
      set (lo := scan_down (Z.to_nat (i + 1)) meshsupp i i i) in *.
      split.
      + intros (_ & Hji & Hij & _). split.
        * destruct Hend as [-> | Hend]; [lia|].
          destruct (decide (lo <= j)); [assumption|].
          pose proof (HR j (lo - 1)). lia.
        * destruct (decide (j < i + 1)); [assumption|].
          destruct Hstop as [Hstop | Hstop]; [lia|].
          pose proof (HL (i + 1) j). lia.
      + intros Hr. pose proof (Hall j). pose proof (HL j i). lia.
    - set (lo := scan_down (Z.to_nat (i + 1)) meshsupp i i i) in *.
      set (hi := scan_up (Z.to_nat (n - (i + 1))) meshsupp n i (i + 1) i) in *.
      split.
      + intros (_ & Hji & Hij & _). split.
        * destruct Hend as [-> | Hend]; [lia|].
          destruct (decide (lo <= j)); [assumption|].
          pose proof (HR j (lo - 1)). lia.
        * destruct (decide (j < hi + 1)); [assumption|].
          destruct Hendu as [Hendu | Hendu]; [lia|].
          pose proof (HL (hi + 1) j). lia.
      + intros Hr. destruct (decide (j <= i)).
        * pose proof (Hall j). pose proof (HL j i). lia.
        * pose proof (Hallu j). pose proof (HL i j). lia. }
  split; [|exact Hpt].
  unfold brute_force_neighbors. cbv zeta in Hb, Hc.
  apply filter_seqZ_interval; [lia | lia | lia |].
  intros j Hj. apply Hpt. exact Hj.
Qed.

Lemma uniform_table_sorted :
  left_sorted [(0, 2); (1, 3); (2, 4)]
  /\ right_sorted [(0, 2); (1, 3); (2, 4)]
  /\ supports_nonempty [(0, 2); (1, 3); (2, 4)].
Proof.
  unfold left_sorted, right_sorted, supports_nonempty. simpl length.
  repeat split; intros j; intros;
    try (assert (Hk : k = 0 \/ k = 1 \/ k = 2) by lia);
    assert (Hj : j = 0 \/ j = 1 \/ j = 2) by lia;
    repeat match goal with H : _ \/ _ |- _ => destruct H end; subst;
    vm_compute; try discriminate; try reflexivity; lia.
Qed.

Lemma find_joint_support_functions_brute_force_witness :
  matches_brute_force [(0, 2); (1, 3); (2, 4)] 1.
Proof.
  apply find_joint_support_functions_brute_force;
    [apply uniform_table_sorted | apply uniform_table_sorted
    | apply uniform_table_sorted | simpl; lia].
Defined.

(** C3 as stated fails: the left endpoints of [nested_table] are
    non-decreasing, function 0 overlaps function 2, and the range
    returned for function 2 is [[2, 3)]. *)
Lemma find_joint_support_functions_left_sorted_only :
  left_sorted nested_table
  /\ 0 <= 2 < Z.of_nat (length nested_table)
  /\ find_joint_support_functions nested_table 2 = make_intv 2 3
  /\ brute_force_neighbors nested_table 2 = [0; 2]
  /\ ~ matches_brute_force nested_table 2.
Proof.
  split; [|split; [|split; [|split]]].
  - unfold left_sorted, nested_table. simpl length. intros j k Hj Hjk Hk.
    assert (Hk' : k = 0 \/ k = 1 \/ k = 2) by lia.
    assert (Hj' : j = 0 \/ j = 1 \/ j = 2) by lia.
    repeat match goal with H : _ \/ _ |- _ => destruct H end; subst;
      vm_compute; try discriminate; lia.
  - simpl. lia.
  - reflexivity.
  - reflexivity.
  - intros [Hbf _]. vm_compute in Hbf. discriminate.
Qed.

(** C9: the range returned by [find_joint_support_functions] contains [i]
    and so is never empty, whatever the table; hence none of the per-axis
    neighbour ranges of the 2D and 3D traversals is empty. *)
Theorem neighbor_range_never_empty :
  (forall meshsupp i,
     let r := find_joint_support_functions meshsupp i in
     intv_a r <= i < intv_b r /\ intv_a r < intv_b r)
  /\ (forall b i,
        let se := Asm2D.neigh_j b i in
        se.1.1 <= i.1 < se.2.1 /\ se.1.2 <= i.2 < se.2.2)
  /\ (forall b i,
        let se := Asm3D.neigh_j b i in
        se.1.1.1 <= i.1.1 < se.2.1.1 /\ se.1.1.2 <= i.1.2 < se.2.1.2
        /\ se.1.2 <= i.2 < se.2.2).
Proof.
  split; [|split].
  - intros meshsupp i.
    pose proof (find_joint_support_functions_contains meshsupp i). simpl in *. lia.
  - intros b i. unfold Asm2D.neigh_j. cbn [fst snd].
    split; apply find_joint_support_functions_contains.
  - intros b i. unfold Asm3D.neigh_j. cbn [fst snd].
    repeat split; apply find_joint_support_functions_contains.
Qed.

(* ================================================================= *)
(** ** ParallelDriver: the chunks *)

Lemma chunk_tasks_range n k :
  0 <= n -> 0 < k ->
  chunk_tasks (range_it n) k
  = inr (map (chunk_at n (n / k + 1))
             (seqZ 0 ((n + (n / k + 1) - 1) / (n / k + 1)))).
Proof.
  intros Hn Hk. unfold chunk_tasks.
  assert (Hdiv : 0 <= n / k) by (apply Z.div_pos; lia).
  destruct (k =? 0) eqn:E; [apply Z.eqb_eq in E; lia|].
  cbn [py_len PyRange_sliceable]. unfold range_len, range_it. cbn [start stop].
  replace (Z.max 0 (n - 0)) with n by lia.
  destruct (n / k + 1 =? 0) eqn:E2; [apply Z.eqb_eq in E2; lia|].
  f_equal. unfold range3.
  destruct (0 <? n / k + 1) eqn:E3; [|apply Z.ltb_ge in E3; lia].
  rewrite map_map. replace (n - 0 + (n / k + 1) - 1) with (n + (n / k + 1) - 1) by lia.
  apply map_ext. intros q.
  cbv [py_slice PyRange_sliceable range_len chunk_at start stop].
  replace (Z.max 0 (n - 0)) with n by lia. f_equal; lia.
Qed.

Lemma concat_chunks n s (m : nat) :
  0 < s -> 0 <= n ->
  (chunk_at n s <$> seqZ 0 (Z.of_nat m)) ≫= range_list
  = seqZ 0 (Z.min (Z.of_nat m * s) n).
Proof.
  intros Hs Hn. induction m as [|m IH].
  - simpl. rewrite seqZ_nil by lia. reflexivity.
  - rewrite seqZ_S, fmap_app, bind_app, IH. cbn [fmap list_fmap].
    rewrite bind_singleton. unfold range_list, range_len, chunk_at. cbn [start stop].
    rewrite Z.add_0_l.
    replace (Z.min (Z.of_nat (S m) * s) n)
      with (Z.min (Z.of_nat m * s) n
            + Z.max 0 (Z.min (Z.of_nat m * s + s) n - Z.min (Z.of_nat m * s) n))
      by nia.
    rewrite seqZ_app by nia. reflexivity.
Qed.

Lemma chunk_count_bounds n k :
  0 <= n -> 0 < k ->
  let s := n / k + 1 in
  let cnt := (n + s - 1) / s in
  0 <= cnt <= k /\ n <= cnt * s /\ (0 < cnt -> (cnt - 1) * s < n).
Proof.
  intros Hn Hk s cnt.
  assert (Hdiv : 0 <= n / k) by (apply Z.div_pos; lia).
  assert (Hs : 0 < s) by (unfold s; lia).
  assert (Hks : n < k * s).
  { unfold s. pose proof (Z.mul_succ_div_gt n k Hk). lia. }
  assert (Hc0 : 0 <= cnt) by (apply Z.div_pos; lia).
  pose proof (Z.mul_div_le (n + s - 1) s Hs) as Hle.
  pose proof (Z.mul_succ_div_gt (n + s - 1) s Hs) as Hgt.
  fold cnt in Hle, Hgt.
  split; [split; [exact Hc0|]|split].
  - assert (cnt < k + 1); [|lia].
    apply Z.div_lt_upper_bound; nia.
  - nia.
  - intros _. nia.
Qed.

(** The chunks the parallel drivers hand out partition the range. *)
Lemma chunk_tasks_range_partitions n k :
  0 <= n -> 0 < k ->
  partitions n (map (chunk_at n (n / k + 1))
                    (seqZ 0 ((n + (n / k + 1) - 1) / (n / k + 1)))).
Proof.
  intros Hn Hk.
  destruct (chunk_count_bounds n k Hn Hk) as (Hcnt & Hcov & Hlast).
  set (s := n / k + 1) in *. set (cnt := (n + s - 1) / s) in *.
  assert (Hs : 0 < s).
  { unfold s. assert (0 <= n / k) by (apply Z.div_pos; lia). lia. }
  split; [|split].
  - replace cnt with (Z.of_nat (Z.to_nat cnt)) by lia.
    rewrite concat_chunks by lia. f_equal. lia.
  - apply Forall_fmap, Forall_seqZ. intros q Hq. unfold chunk_at; simpl.
    assert ((q + 1) * s <= cnt * s) by nia. nia.
  - intros i c c' Hc Hc'.
    rewrite list_lookup_fmap in Hc, Hc'.
    destruct (seqZ 0 cnt !! i) as [q|] eqn:Hq; [|discriminate].
    destruct (seqZ 0 cnt !! S i) as [q'|] eqn:Hq'; [|discriminate].
    apply lookup_seqZ in Hq as [-> _]. apply lookup_seqZ in Hq' as [-> Hk'].
    simplify_eq/=. f_equal. lia.
Qed.

(** C8, amended: for [W > 1] the chunks of [range(n)] that the parallel
    driver hands out are contiguous, non-empty, in increasing order, and
    their concatenation is [0 .. n-1]; there are
    [ceil(n / (n // 4W + 1))] of them, which is at most [4W]. *)
Theorem chunk_tasks_partitions n W :
  0 <= n -> 1 < W ->
  exists chunks,
    chunk_tasks (range_it n) (4 * W) = inr chunks
    /\ partitions n chunks
    /\ Z.of_nat (length chunks)
       = (n + (n / (4 * W) + 1) - 1) / (n / (4 * W) + 1)
    /\ Z.of_nat (length chunks) <= 4 * W.
Proof.
  intros Hn HW. eexists. split; [apply chunk_tasks_range; lia|].
  split; [apply chunk_tasks_range_partitions; lia|].
  destruct (chunk_count_bounds n (4 * W)) as (Hcnt & _); [lia|lia|].
  rewrite length_map, length_seqZ.
  split; [|rewrite Z2Nat.id by apply Hcnt; apply Hcnt].
  apply Z2Nat.id, Hcnt.
Qed.

Lemma chunk_tasks_partitions_witness :
  exists chunks,
    chunk_tasks (range_it 10) (4 * 2) = inr chunks
    /\ partitions 10 chunks
    /\ Z.of_nat (length chunks) = (10 + (10 / (4 * 2) + 1) - 1) / (10 / (4 * 2) + 1)
    /\ Z.of_nat (length chunks) <= 4 * 2.
Proof. apply (chunk_tasks_partitions 10 2); lia. Defined.

(** C8 as stated fails: with 2 workers the 8 indices of [range(8)] are
    split into 4 chunks, not 8. *)
Lemma chunk_tasks_not_4W :
  chunk_tasks (range_it 8) (4 * 2)
  = inr [mkRange 0 2; mkRange 2 4; mkRange 4 6; mkRange 6 8]
  /\ ~ (exists chunks, chunk_tasks (range_it 8) (4 * 2) = inr chunks
                       /\ Z.of_nat (length chunks) = 4 * 2).
Proof.
  split; [reflexivity|].
  intros (chunks & Hc & Hlen). vm_compute in Hc. simplify_eq.
Qed.

(* ================================================================= *)
(** ** TileAccumulator *)

Section Accumulator.
Context {F : Type} `{FloatOps F}.

Lemma tuple_differs_false num row old :
  tuple_differs num row old = false
  <-> index_tuple num row = index_tuple num old.
Proof.
  unfold tuple_differs, index_tuple.
  induction (seq 0 (Z.to_nat num)) as [|k l IH]; simpl.
  - split; reflexivity.
  - rewrite orb_false_iff, negb_false_iff, Z.eqb_eq, IH.
    split; [intros [-> ->]; reflexivity | intros E; inversion E; auto].
Qed.

Lemma adopt_tuple_lookup (n : nat) row (old : list Z) k :
  (n <= length old)%nat ->
  row_get (fold_left (fun o k => <[k := row_get row k]> o) (seq 0 n) old) k
  = if decide (k < n)%nat then row_get row k else row_get old k.
Proof.
  induction n as [|n IH]; intros Hn.
  - cbn [seq fold_left]. destruct (decide (k < 0)%nat); [lia | reflexivity].
  - rewrite seq_S, fold_left_app. cbn [fold_left Nat.add].
    set (prev := fold_left _ (seq 0 n) old) in *.
    assert (Hlen : length prev = length old).
    { unfold prev. clear. generalize (seq 0 n), old.
      intros l. induction l as [|x l IHl]; intros o; simpl; [reflexivity|].
      rewrite IHl. apply length_insert. }
    specialize (IH ltac:(lia)).
    destruct (decide (k < S n)%nat) as [Hk | Hk];
      destruct (decide (k < n)%nat) as [Hk' | Hk']; try lia.
    + unfold row_get at 1. rewrite list_lookup_insert_ne by lia. exact IH.
    + replace k with n by lia. unfold row_get at 1.
      rewrite list_lookup_insert_eq by lia. reflexivity.
    + unfold row_get at 1. rewrite list_lookup_insert_ne by lia. exact IH.
Qed.

Lemma adopt_tuple_index num row old :
  (Z.to_nat num <= length old)%nat ->
  index_tuple num (adopt_tuple num row old) = index_tuple num row.
Proof.
  intros Hn. unfold index_tuple, adopt_tuple.
  apply map_ext_in. intros k Hk. apply in_seq in Hk.
  rewrite adopt_tuple_lookup by exact Hn.
  destruct (decide (k < Z.to_nat num)%nat); [reflexivity | lia].
Qed.

Lemma adopt_tuple_length num row old :
  length (adopt_tuple num row old) = length old.
Proof.
  unfold adopt_tuple. generalize (seq 0 (Z.to_nat num)). intros l. revert old.
  induction l as [|x l IHl]; intros o; simpl; [reflexivity|].
  rewrite IHl. apply length_insert.
Qed.

(** The shape of [runs] on a non-empty input: the first run carries the
    tuple and the value of the first row; a row put in front joins it or
    starts a run of its own. *)
Lemma runs_cons num row (v : F) indices values :
  exists ws rest,
    (forall v', runs num (row :: indices) (v' :: values)
                = (index_tuple num row, (v', ws)) :: rest)
    /\ (forall row' (v' : F), index_tuple num row' = index_tuple num row ->
          runs num (row' :: row :: indices) (v' :: v :: values)
          = (index_tuple num row, (v', v :: ws)) :: rest)
    /\ (forall row' (v' : F), index_tuple num row' <> index_tuple num row ->
          runs num (row' :: row :: indices) (v' :: v :: values)
          = (index_tuple num row', (v', []))
            :: (index_tuple num row, (v, ws)) :: rest).
Proof.
  assert (Hhead : exists ws rest,
            forall v', runs num (row :: indices) (v' :: values)
                       = (index_tuple num row, (v', ws)) :: rest).
  { cbn [runs]. destruct (runs num indices values) as [|[t [w ws]] rs].
    - exists [], []. reflexivity.
    - destruct (decide (index_tuple num row = t)) as [<- | Hne].
      + exists (w :: ws), rs. reflexivity.
      + exists [], ((t, (w, ws)) :: rs). reflexivity. }
  destruct Hhead as (ws & rest & Hhead). exists ws, rest.
  split; [exact Hhead|]. split; intros row' v' Ht.
  - change (runs num (row' :: row :: indices) (v' :: v :: values))
      with (match runs num (row :: indices) (v :: values) with
            | (t, (w, ws)) :: rs =>
                if decide (index_tuple num row' = t)
                then (t, (v', w :: ws)) :: rs
                else (index_tuple num row', (v', [])) :: (t, (w, ws)) :: rs
            | [] => [(index_tuple num row', (v', []))]
            end).
    rewrite Hhead. case_decide; [reflexivity | contradiction].
  - change (runs num (row' :: row :: indices) (v' :: v :: values))
      with (match runs num (row :: indices) (v :: values) with
            | (t, (w, ws)) :: rs =>
                if decide (index_tuple num row' = t)
                then (t, (v', w :: ws)) :: rs
                else (index_tuple num row', (v', [])) :: (t, (w, ws)) :: rs
            | [] => [(index_tuple num row', (v', []))]
            end).
    rewrite Hhead. case_decide; [contradiction | reflexivity].
Qed.

End Accumulator.

Section AccumulatorRuns.
Context {F : Type} `{FloatOps F}.

Lemma runs_head_ext num row row' indices (values : list F) :
  index_tuple num row = index_tuple num row' ->
  runs num (row :: indices) values = runs num (row' :: indices) values.
Proof.
  intros E. destruct values as [|v values]; [reflexivity|].
  cbn [runs]. rewrite E. reflexivity.
Qed.

Lemma runs_length_pos num row (v : F) indices values :
  (1 <= length (runs num (row :: indices) (v :: values)))%nat.
Proof.
  destruct (runs_cons num row v indices values) as (ws & rest & Hh & _).
  rewrite Hh. simpl. lia.
Qed.

(** [process] from a state in which an entry is being summed: the state
    counts as a first row with the current tuple and the current partial
    sum.  The entries from the cursor on become the sums of the runs. *)
Lemma process_started indices : forall values acc (s : F),
  0 <= idx acc ->
  _result acc !! Z.to_nat (idx acc) = Some s ->
  (Z.to_nat (num_indices acc) <= length (old_indices acc))%nat ->
  (length indices <= length values)%nat ->
  (Z.to_nat (idx acc)
   + length (runs (num_indices acc) (old_indices acc :: indices) (s :: values))
   <= length (_result acc))%nat ->
  exists acc',
    process acc indices values = Some acc'
    /\ num_indices acc' = num_indices acc
    /\ idx acc'
       = idx acc + Z.of_nat (length (runs (num_indices acc)
                                (old_indices acc :: indices) (s :: values))) - 1
    /\ _result acc'
       = take (Z.to_nat (idx acc)) (_result acc)
         ++ map run_sum (runs (num_indices acc) (old_indices acc :: indices)
                              (s :: values))
         ++ drop (Z.to_nat (idx acc)
                  + length (runs (num_indices acc)
                              (old_indices acc :: indices) (s :: values)))
                 (_result acc).
Proof.
  induction indices as [|row indices IH]; intros values acc s Hidx Hs Hold Hlen Hroom.
  - exists acc. cbn [runs process] in *.
    split; [reflexivity|]. split; [reflexivity|].
    split; [cbn [length]; lia|].
    cbn [map run_sum length fold_left snd fst].
    rewrite Nat.add_1_r. symmetry. apply take_drop_middle. exact Hs.
  - destruct values as [|v values]; [simpl in Hlen; lia|].
    simpl in Hlen. apply le_S_n in Hlen.
    destruct acc as [i num res old]. cbn [idx num_indices _result old_indices] in *.
    pose proof (lookup_lt_Some _ _ _ Hs) as Hlt.
    destruct (runs_cons num row v indices values) as (ws & rest & Hhead & Hsame & Hdiff).
    cbn [process]. unfold process_row, index_changed.
    cbn [idx num_indices _result old_indices].
    destruct (tuple_differs num row old) eqn:Hch.
    + (* a new entry *)
      assert (Hne : index_tuple num old <> index_tuple num row).
      { intros E. symmetry in E. apply tuple_differs_false in E. congruence. }
      rewrite (Hdiff old s Hne) in *. cbn [length] in Hroom.
      unfold result_write. cbn [idx num_indices _result old_indices].
      replace ((0 <=? i + 1) && (i + 1 <? Z.of_nat (length res))) with true
        by (symmetry; apply andb_true_iff; split;
            [apply Z.leb_le | apply Z.ltb_lt]; lia).
      replace (Z.to_nat (i + 1)) with (S (Z.to_nat i)) by lia.
      assert (Hruns : runs num (adopt_tuple num row old :: indices) (v :: values)
                      = (index_tuple num row, (v, ws)) :: rest).
      { rewrite (runs_head_ext num _ row) by (apply adopt_tuple_index; exact Hold).
        apply Hhead. }
      destruct (IH values
                  (mkAccumulator (i + 1) num (<[S (Z.to_nat i) := v]> res)
                     (adopt_tuple num row old)) v)
        as (acc' & Hp & Hnum & Hi' & Hres);
        cbn [idx num_indices _result old_indices].
      * lia.
      * replace (Z.to_nat (i + 1)) with (S (Z.to_nat i)) by lia.
        apply list_lookup_insert_eq. lia.
      * rewrite adopt_tuple_length. exact Hold.
      * exact Hlen.
      * rewrite length_insert, Hruns. cbn [length]. lia.
      * exists acc'. cbn [idx num_indices _result old_indices] in *.
        rewrite Hruns in Hi', Hres.
        split; [exact Hp|]. split; [exact Hnum|]. split.
        { rewrite Hi'. cbn [length]. lia. }
        rewrite Hres. replace (Z.to_nat (i + 1)) with (S (Z.to_nat i)) by lia.
        rewrite take_insert_ge by lia. rewrite (take_S_r _ _ _ Hs).
        rewrite drop_insert_lt by (cbn [length]; lia).
        cbn [map length]. unfold run_sum at 3. cbn [fold_left fst snd].
        rewrite <- app_assoc. cbn [app].
        replace (S (Z.to_nat i) + S (length rest))%nat
          with (Z.to_nat i + S (S (length rest)))%nat by lia.
        reflexivity.
    + (* the same entry *)
      apply tuple_differs_false in Hch.
      rewrite (Hsame old s (eq_sym Hch)) in *. cbn [length] in Hroom.
      unfold result_read, result_write. cbn [idx num_indices _result old_indices].
      replace ((0 <=? i) && (i <? Z.of_nat (length res))) with true
        by (symmetry; apply andb_true_iff; split;
            [apply Z.leb_le | apply Z.ltb_lt]; lia).
      rewrite Hs.
      replace ((0 <=? i) && (i <? Z.of_nat (length res))) with true
        by (symmetry; apply andb_true_iff; split;
            [apply Z.leb_le | apply Z.ltb_lt]; lia).
      assert (Hruns : runs num (old :: indices) (fadd s v :: values)
                      = (index_tuple num row, (fadd s v, ws)) :: rest).
      { rewrite (runs_head_ext num old row) by (symmetry; exact Hch).
        apply Hhead. }
      destruct (IH values
                  (mkAccumulator i num (<[Z.to_nat i := fadd s v]> res) old)
                  (fadd s v))
        as (acc' & Hp & Hnum & Hi' & Hres);
        cbn [idx num_indices _result old_indices].
      * lia.
      * apply list_lookup_insert_eq. lia.
      * exact Hold.
      * exact Hlen.
      * rewrite length_insert, Hruns. cbn [length]. lia.
      * exists acc'. cbn [idx num_indices _result old_indices] in *.
        rewrite Hruns in Hi', Hres.
        split; [exact Hp|]. split; [exact Hnum|]. split.
        { rewrite Hi'. cbn [length]. lia. }
        rewrite Hres. rewrite take_insert_ge by lia.
        cbn [length]. rewrite drop_insert_lt by lia.
        cbn [map]. unfold run_sum at 1 3. cbn [fold_left fst snd].
        reflexivity.
Qed.

End AccumulatorRuns.

Section AccumulatorFresh.
Context {F : Type} `{FloatOps F}.

Lemma init_inv num buf (acc : MatrixEntryAccumulator F) :
  MatrixEntryAccumulator_init num buf = Some acc ->
  num <= 16 /\ acc = mkAccumulator (-1) num buf (replicate 16 SENTINEL).
Proof.
  unfold MatrixEntryAccumulator_init.
  destruct (num <=? 16) eqn:Hn; [|discriminate].
  apply Z.leb_le in Hn. intros E. split; [exact Hn | congruence].
Qed.

Lemma row_get_sentinel (k : nat) :
  (k < 16)%nat -> row_get (replicate 16 SENTINEL) k = SENTINEL.
Proof.
  intros Hk. unfold row_get. rewrite lookup_replicate_2 by exact Hk. reflexivity.
Qed.

Lemma index_tuple_sentinel num :
  num <= 16 ->
  index_tuple num (replicate 16 SENTINEL) = replicate (Z.to_nat num) SENTINEL.
Proof.
  intros Hn. unfold index_tuple.
  rewrite <- (length_seq (Z.to_nat num) 0) at 2.
  assert (Hall : Forall (fun k => (k < 16)%nat) (seq 0 (Z.to_nat num))).
  { apply Forall_forall. intros k Hk. apply list_elem_of_In, in_seq in Hk. lia. }
  induction Hall as [|k l Hk _ IH]; [reflexivity|].
  cbn [map length]. rewrite row_get_sentinel by exact Hk.
  change (replicate (S (length l)) SENTINEL)
    with (SENTINEL :: replicate (length l) SENTINEL).
  f_equal. exact IH.
Qed.

(** On a fresh accumulator a row counts as changed exactly when one of
    its first [num_indices] components is not the sentinel. *)
Lemma index_changed_fresh num buf (acc : MatrixEntryAccumulator F) row :
  MatrixEntryAccumulator_init num buf = Some acc ->
  (index_changed acc row).2 = true
  <-> exists k, (k < Z.to_nat num)%nat /\ row_get row k <> SENTINEL.
Proof.
  intros Hinit. apply init_inv in Hinit as [Hn ->].
  unfold index_changed. cbn [num_indices old_indices].
  assert (Hd : tuple_differs num row (replicate 16 SENTINEL) = true
               <-> exists k, (k < Z.to_nat num)%nat /\ row_get row k <> SENTINEL).
  { unfold tuple_differs. rewrite existsb_exists. split.
    - intros (k & Hk & Hne). apply in_seq in Hk. exists k. split; [lia|].
      rewrite row_get_sentinel in Hne by lia.
      apply negb_true_iff, Z.eqb_neq in Hne. exact Hne.
    - intros (k & Hk & Hne). exists k. split; [apply in_seq; lia|].
      rewrite row_get_sentinel by lia. apply negb_true_iff, Z.eqb_neq. exact Hne. }
  destruct (tuple_differs num row (replicate 16 SENTINEL)); cbn [snd].
  - exact Hd.
  - exact Hd.
Qed.

Lemma index_changed_fresh_tuple num buf (acc : MatrixEntryAccumulator F) row :
  MatrixEntryAccumulator_init num buf = Some acc ->
  (index_changed acc row).2 = true
  <-> index_tuple num row <> replicate (Z.to_nat num) SENTINEL.
Proof.
  intros Hinit. apply init_inv in Hinit as [Hn ->].
  rewrite <- index_tuple_sentinel by exact Hn.
  unfold index_changed. cbn [num_indices old_indices].
  pose proof (tuple_differs_false num row (replicate 16 SENTINEL)) as Hf.
  destruct (tuple_differs num row (replicate 16 SENTINEL)); cbn [snd].
  - split; [|reflexivity]. intros _ E. apply Hf in E. discriminate.
  - split; [discriminate|]. intros Hne. exfalso. apply Hne, Hf. reflexivity.
Qed.

(** The first round on a fresh accumulator. *)
Lemma process_row_fresh num buf (acc : MatrixEntryAccumulator F) row v :
  MatrixEntryAccumulator_init num buf = Some acc ->
  if (index_changed acc row).2
  then process_row acc row v
       = if 0 <? Z.of_nat (length buf)
         then Some (mkAccumulator 0 num (<[0%nat := v]> buf)
                      (adopt_tuple num row (replicate 16 SENTINEL)))
         else None
  else process_row acc row v = None.
Proof.
  intros Hinit. apply init_inv in Hinit as [Hn ->].
  unfold process_row, index_changed.
  cbn [num_indices old_indices idx _result].
  destruct (tuple_differs num row (replicate 16 SENTINEL)); cbn [snd].
  - unfold result_write. cbn [num_indices old_indices idx _result].
    reflexivity.
  - reflexivity.
Qed.

Lemma process_fresh num buf (acc : MatrixEntryAccumulator F) indices values :
  MatrixEntryAccumulator_init num buf = Some acc ->
  match indices with
  | row :: _ => index_tuple num row <> replicate (Z.to_nat num) SENTINEL
  | [] => True
  end ->
  (length indices <= length values)%nat ->
  (length (runs num indices values) <= length buf)%nat ->
  exists acc',
    process acc indices values = Some acc'
    /\ idx acc' = Z.of_nat (length (runs num indices values)) - 1
    /\ _result acc'
       = map run_sum (runs num indices values)
         ++ drop (length (runs num indices values)) buf.
Proof.
  intros Hinit Hfirst Hlen Hroom.
  destruct indices as [|row indices].
  - exists acc. apply init_inv in Hinit as [Hn ->].
    repeat split.
  - destruct values as [|v values]; [simpl in Hlen; lia|].
    simpl in Hlen. apply le_S_n in Hlen.
    pose proof (process_row_fresh num buf acc row v Hinit) as Hrow.
    apply (index_changed_fresh_tuple num buf acc row Hinit) in Hfirst.
    rewrite Hfirst in Hrow.
    pose proof (runs_length_pos num row v indices values) as Hpos.
    replace (0 <? Z.of_nat (length buf)) with true in Hrow
      by (symmetry; apply Z.ltb_lt; lia).
    assert (Hn : num <= 16) by (apply init_inv in Hinit; tauto).
    cbn [process]. rewrite Hrow.
    assert (Hruns : runs num (adopt_tuple num row (replicate 16 SENTINEL) :: indices)
                      (v :: values)
                    = runs num (row :: indices) (v :: values)).
    { apply runs_head_ext, adopt_tuple_index. rewrite length_replicate. lia. }
    destruct (process_started indices values
                (mkAccumulator 0 num (<[0%nat := v]> buf)
                   (adopt_tuple num row (replicate 16 SENTINEL))) v)
      as (acc' & Hp & _ & Hi' & Hres);
      cbn [idx num_indices _result old_indices].
    + lia.
    + apply list_lookup_insert_eq. lia.
    + rewrite adopt_tuple_length, length_replicate. lia.
    + exact Hlen.
    + rewrite Hruns, length_insert. change (Z.to_nat 0) with 0%nat. lia.
    + cbn [idx num_indices _result old_indices] in *. rewrite Hruns in *.
      exists acc'. split; [exact Hp|]. split; [lia|].
      rewrite Hres. change (Z.to_nat 0) with 0%nat.
      rewrite take_0, Nat.add_0_l, app_nil_l.
      f_equal. apply drop_insert_lt. lia.
Qed.

(** C7, amended: on a fresh accumulator whose buffer holds at least as
    many entries as the input has maximal runs of consecutive rows with
    equal index tuples, and for an input whose first row's tuple is not the
    all-0xffffffff sentinel, [process] produces one entry per maximal run,
    equal to the sum of the run's values in input order, and [result]
    exposes exactly these entries (length = cursor + 1). *)
Theorem process_sums_runs num buf (acc : MatrixEntryAccumulator F)
    indices values :
  MatrixEntryAccumulator_init num buf = Some acc ->
  match indices with
  | row :: _ => index_tuple num row <> replicate (Z.to_nat num) SENTINEL
  | [] => True
  end ->
  (length indices <= length values)%nat ->
  (length (runs num indices values) <= length buf)%nat ->
  exists acc',
    process acc indices values = Some acc'
    /\ result acc' = map run_sum (runs num indices values)
    /\ Z.of_nat (length (result acc')) = idx acc' + 1.
Proof.
  intros Hinit Hfirst Hlen Hroom.
  destruct (process_fresh num buf acc indices values Hinit Hfirst Hlen Hroom)
    as (acc' & Hp & Hi & Hres).
  exists acc'. split; [exact Hp|].
  assert (Hr : result acc' = map run_sum (runs num indices values)).
  { unfold result. rewrite Hi, Hres.
    apply take_app_length'. rewrite length_map. lia. }
  split; [exact Hr|]. rewrite Hr, length_map. lia.
Qed.

(** C10: the first row after construction starts a new entry, at cursor
    0, exactly when its tuple differs from the sentinel in one of the
    first [num_indices] components, and otherwise accesses [_result[-1]];
    if no row's tuple is the sentinel and the buffer has room for every
    run, no access of [process] leaves the buffer. *)
Theorem process_in_bounds num buf (acc : MatrixEntryAccumulator F) :
  MatrixEntryAccumulator_init num buf = Some acc ->
  (forall row,
     (index_changed acc row).2 = true
     <-> exists k, (k < Z.to_nat num)%nat /\ row_get row k <> SENTINEL)
  /\ (forall row v,
        if (index_changed acc row).2
        then process_row acc row v
             = if 0 <? Z.of_nat (length buf)
               then Some (mkAccumulator 0 num (<[0%nat := v]> buf)
                            (adopt_tuple num row (replicate 16 SENTINEL)))
               else None
        else process_row acc row v = None)
  /\ (forall indices values,
        Forall (fun row => index_tuple num row
                           <> replicate (Z.to_nat num) SENTINEL) indices ->
        (length indices <= length values)%nat ->
        (length (runs num indices values) <= length buf)%nat ->
        exists acc',
          process acc indices values = Some acc'
          /\ -1 <= idx acc' < Z.of_nat (length buf)
          /\ length (_result acc') = length buf).
Proof.
  intros Hinit. split; [|split].
  - intros row. apply (index_changed_fresh num buf acc row Hinit).
  - intros row v. apply (process_row_fresh num buf acc row v Hinit).
  - intros indices values Hall Hlen Hroom.
    destruct (process_fresh num buf acc indices values Hinit) as (acc' & Hp & Hi & Hres).
    + destruct Hall; [exact I | assumption].
    + exact Hlen.
    + exact Hroom.
    + exists acc'. split; [exact Hp|]. split; [lia|].
      rewrite Hres, length_app, length_map, length_drop. lia.
Qed.

End AccumulatorFresh.

Lemma process_sums_runs_witness :
  exists acc',
    process fresh_2_3 [[1; 2]; [1; 2]; [3; 4]] [1.5; 2.25; 4]%float = Some acc'
    /\ result acc'
       = map run_sum (runs 2 [[1; 2]; [1; 2]; [3; 4]] [1.5; 2.25; 4]%float)
    /\ Z.of_nat (length (result acc')) = idx acc' + 1.
Proof.
  apply (process_sums_runs 2 [0; 0; 0]%float fresh_2_3).
  - reflexivity.
  - vm_compute. discriminate.
  - simpl. lia.
  - vm_compute. lia.
Defined.

(** C7 as stated fails: a stream of one row whose tuple is the sentinel
    has one maximal run, but a fresh accumulator takes the row for a
    continuation of the current entry and accesses [_result[-1]]; no entry
    is produced. *)
Lemma process_sentinel_row :
  MatrixEntryAccumulator_init 1 [0%float] = Some fresh_1_1
  /\ runs 1 [[SENTINEL]] [1%float] = [([SENTINEL], (1%float, []))]
  /\ (index_changed fresh_1_1 [SENTINEL]).2 = false
  /\ process fresh_1_1 [[SENTINEL]] [1%float] = None
  /\ ~ (exists acc',
          process fresh_1_1 [[SENTINEL]] [1%float] = Some acc'
          /\ result acc' = map run_sum (runs 1 [[SENTINEL]] [1%float])).
Proof.
  repeat split; try reflexivity.
  intros (acc' & Hp & _). vm_compute in Hp. discriminate.
Qed.

Lemma process_in_bounds_witness :
  (forall row,
     (index_changed fresh_2_3 row).2 = true
     <-> exists k, (k < Z.to_nat 2)%nat /\ row_get row k <> SENTINEL)
  /\ (forall row v,
        if (index_changed fresh_2_3 row).2
        then process_row fresh_2_3 row v
             = if 0 <? Z.of_nat (length [0; 0; 0]%float)
               then Some (mkAccumulator 0 2 (<[0%nat := v]> [0; 0; 0]%float)
                            (adopt_tuple 2 row (replicate 16 SENTINEL)))
               else None
        else process_row fresh_2_3 row v = None)
  /\ (forall indices values,
        Forall (fun row => index_tuple 2 row
                           <> replicate (Z.to_nat 2) SENTINEL) indices ->
        (length indices <= length values)%nat ->
        (length (runs 2 indices values) <= length [0; 0; 0]%float)%nat ->
        exists acc',
          process fresh_2_3 indices values = Some acc'
          /\ -1 <= idx acc' < Z.of_nat (length [0; 0; 0]%float)
          /\ length (_result acc') = length [0; 0; 0]%float).
Proof. apply (process_in_bounds 2 [0; 0; 0]%float fresh_2_3). reflexivity. Defined.

(** [runs] is the decomposition into maximal runs: consecutive runs have
    different tuples, and the runs laid out again are the input. *)
Lemma runs_adjacent {F} num indices : forall (values : list F) (k : nat) r r',
  runs num indices values !! k = Some r ->
  runs num indices values !! S k = Some r' ->
  r.1 <> r'.1.
Proof.
  induction indices as [|row indices IH]; intros values k r r' Hr Hr'.
  - discriminate.
  - destruct values as [|v values]; [discriminate|].
    cbn [runs] in Hr, Hr'. specialize (IH values).
    destruct (runs num indices values) as [|[t [w ws]] rs]; [discriminate|].
    destruct (decide (index_tuple num row = t)) as [E | E].
    + destruct k as [|k].
      * simplify_eq/=. exact (IH 0%nat _ r' eq_refl Hr').
      * apply (IH (S k) r r'); [exact Hr | exact Hr'].
    + destruct k as [|k].
      * simplify_eq/=. exact E.
      * apply (IH k r r'); [exact Hr | exact Hr'].
Qed.

Lemma runs_expand {F} num indices : forall (values : list F),
  concat (map (fun r => map (pair r.1) (r.2.1 :: r.2.2)) (runs num indices values))
  = zip (map (index_tuple num) indices) values.
Proof.
  induction indices as [|row indices IH]; intros values.
  - reflexivity.
  - destruct values as [|v values]; [reflexivity|].
    cbn [runs]. specialize (IH values).
    destruct (runs num indices values) as [|[t [w ws]] rs].
    + simpl in *. rewrite <- IH. reflexivity.
    + destruct (decide (index_tuple num row = t)) as [E | E].
      * simpl in *. rewrite <- IH, E. reflexivity.
      * simpl in *. rewrite <- IH. reflexivity.
Qed.

(* ================================================================= *)
(** ** Assembler: entries of functions with disjoint supports *)

Lemma gauss_range_disjoint nqp meshsupp_k ik jk :
  disjoint_supports meshsupp_k ik jk ->
  gauss_range nqp meshsupp_k ik jk = None.
Proof.
  unfold disjoint_supports, gauss_range, intersect_intervals, supp_intv.
  cbn [intv_a intv_b]. intros Hd.
  destruct (_ >=? _) eqn:E; [reflexivity|].
  rewrite Z.geb_leb in E. apply Z.leb_gt in E. lia.
Qed.

Lemma gauss_range_sym nqp meshsupp_k ik jk :
  gauss_range nqp meshsupp_k ik jk = gauss_range nqp meshsupp_k jk ik.
Proof.
  unfold gauss_range, intersect_intervals. cbn [intv_a intv_b].
  rewrite (Z.max_comm (intv_a (supp_intv meshsupp_k ik))).
  rewrite (Z.min_comm (intv_b (supp_intv meshsupp_k ik))).
  reflexivity.
Qed.


(* ================================================================= *)
(** ** Assembler: symmetry of the entries in exact arithmetic *)

Lemma for_range_ext {S} n (f g : Z -> S -> S) s :
  (forall i r, f i r = g i r) -> for_range n f s = for_range n g s.
Proof.
  intros E. unfold for_range. revert s.
  induction (seqZ 0 n) as [|i l IH]; intros s; simpl; [reflexivity|].
  rewrite E. apply IH.
Qed.

Lemma get1_Forall {A} (P : A -> Prop) d (l : list A) i :
  P d -> Forall P l -> P (get1 d l i).
Proof.
  intros Hd Hl. unfold get1. destruct (l !! Z.to_nat i) as [x|] eqn:E; simpl.
  - eapply Forall_lookup_1; eauto.
  - exact Hd.
Qed.

Lemma get2_Forall {A} (P : A -> Prop) d (J : Grid2 A) i0 i1 :
  P d -> Forall (Forall P) J -> P (get2 d J i0 i1).
Proof.
  intros Hd HJ. unfold get2. apply get1_Forall; [exact Hd|].
  apply (get1_Forall (Forall P)); [constructor | exact HJ].
Qed.

Lemma get3_Forall {A} (P : A -> Prop) d (J : Grid3 A) i0 i1 i2 :
  P d -> Forall (Forall (Forall P)) J -> P (get3 d J i0 i1 i2).
Proof.
  intros Hd HJ. unfold get3. apply get1_Forall; [exact Hd|].
  apply (get2_Forall (Forall P)); [constructor | exact HJ].
Qed.

Lemma slice_Forall {A} (P : A -> Prop) a b (l : list A) :
  Forall P l -> Forall P (slice a b l).
Proof. intros Hl. unfold slice. apply Forall_take, Forall_drop, Hl. Qed.

Lemma slice2_Forall {A} (P : A -> Prop) (J : Grid2 A) a0 b0 a1 b1 :
  Forall (Forall P) J -> Forall (Forall P) (slice2 J a0 b0 a1 b1).
Proof.
  intros HJ. unfold slice2. apply Forall_fmap.
  eapply Forall_impl; [apply slice_Forall, HJ|].
  intros r Hr. apply slice_Forall, Hr.
Qed.

Lemma slice3_Forall {A} (P : A -> Prop) (J : Grid3 A) a0 b0 a1 b1 a2 b2 :
  Forall (Forall (Forall P)) J ->
  Forall (Forall (Forall P)) (slice3 J a0 b0 a1 b1 a2 b2).
Proof.
  intros HJ. unfold slice3. apply Forall_fmap.
  eapply Forall_impl; [apply slice_Forall, HJ|].
  intros r Hr. apply slice2_Forall, Hr.
Qed.

Section ExactArithmetic.
Context {R : Type} {ops : FloatOps R}.
Hypothesis Rth : ring_theory f0 f1 fadd fmul fsub fneg (@eq R).

Add Ring exact_ring : Rth.

Lemma combine_mass_2d_sym J (Vu0 Vu1 Vv0 Vv1 : Ptr R) :
  combine_mass_2d J Vu0 Vu1 Vv0 Vv1 = combine_mass_2d J Vv0 Vv1 Vu0 Vu1.
Proof.
  unfold combine_mass_2d.
  apply for_range_ext; intros i0 r. apply for_range_ext; intros i1 r'. ring.
Qed.

Lemma combine_mass_3d_sym J (Vu0 Vu1 Vu2 Vv0 Vv1 Vv2 : Ptr R) :
  combine_mass_3d J Vu0 Vu1 Vu2 Vv0 Vv1 Vv2
  = combine_mass_3d J Vv0 Vv1 Vv2 Vu0 Vu1 Vu2.
Proof.
  unfold combine_mass_3d.
  apply for_range_ext; intros i0 r. apply for_range_ext; intros i1 r'.
  apply for_range_ext; intros i2 r''. ring.
Qed.

Lemma combine_stiff_2d_sym B (VDu0 VDu1 VDv0 VDv1 : Ptr R) :
  Forall (Forall sym2) B ->
  combine_stiff_2d B VDu0 VDu1 VDv0 VDv1
  = combine_stiff_2d B VDv0 VDv1 VDu0 VDu1.
Proof.
  intros HB. unfold combine_stiff_2d.
  apply for_range_ext; intros i0 r. apply for_range_ext; intros i1 r'.
  assert (Hs : sym2 (get2 zero2 B i0 i1))
    by (apply get2_Forall; [reflexivity | exact HB]).
  cbv zeta. unfold sym2 in Hs. rewrite Hs. ring.
Qed.

Lemma combine_stiff_3d_sym B (VDu0 VDu1 VDu2 VDv0 VDv1 VDv2 : Ptr R) :
  Forall (Forall (Forall sym3)) B ->
  combine_stiff_3d B VDu0 VDu1 VDu2 VDv0 VDv1 VDv2
  = combine_stiff_3d B VDv0 VDv1 VDv2 VDu0 VDu1 VDu2.
Proof.
  intros HB. unfold combine_stiff_3d.
  apply for_range_ext; intros i0 r. apply for_range_ext; intros i1 r'.
  apply for_range_ext; intros i2 r''.
  assert (Hs : sym3 (get3 zero3 B i0 i1 i2))
    by (apply get3_Forall; [repeat split | exact HB]).
  cbv zeta. destruct Hs as (H01 & H02 & H12). rewrite H01, H02, H12. ring.
Qed.

Lemma matmatT_2x2_at_sym (M : Mat2 R) : sym2 (matmatT_2x2_at M).
Proof. unfold sym2, matmatT_2x2_at, dot2. cbn [m01 m10]. ring. Qed.

Lemma matmatT_3x3_at_sym (M : Mat3 R) : sym3 (matmatT_3x3_at M).
Proof.
  unfold sym3, matmatT_3x3_at, dot3. cbn [x01 x10 x02 x20 x12 x21].
  repeat split; ring.
Qed.

Lemma scale2_sym (M : Mat2 R) w : sym2 M -> sym2 (scale2 M w).
Proof. unfold sym2, scale2. cbn [m01 m10]. intros ->. reflexivity. Qed.

Lemma scale3_sym (M : Mat3 R) w : sym3 M -> sym3 (scale3 M w).
Proof.
  unfold sym3, scale3. cbn [x01 x10 x02 x20 x12 x21].
  intros (-> & -> & ->). repeat split.
Qed.

Lemma metric_2d_sym jacinv (weights : Grid2 R) :
  Forall (Forall sym2) (metric_2d jacinv weights).
Proof.
  unfold metric_2d. apply Forall_fmap, Forall_forall. intros i0 _.
  apply Forall_fmap, Forall_forall. intros i1 _.
  apply scale2_sym, get2_Forall; [reflexivity|].
  unfold matmatT_2x2. apply Forall_fmap, Forall_forall. intros r _.
  apply Forall_fmap, Forall_forall. intros M _. apply matmatT_2x2_at_sym.
Qed.

Lemma metric_3d_sym jacinv (weights : Grid3 R) :
  Forall (Forall (Forall sym3)) (metric_3d jacinv weights).
Proof.
  unfold metric_3d. apply Forall_fmap, Forall_forall. intros i0 _.
  apply Forall_fmap, Forall_forall. intros i1 _.
  apply Forall_fmap, Forall_forall. intros i2 _.
  apply scale3_sym, get3_Forall; [repeat split|].
  unfold matmatT_3x3. apply Forall_fmap, Forall_forall. intros p _.
  apply Forall_fmap, Forall_forall. intros r _.
  apply Forall_fmap, Forall_forall. intros M _. apply matmatT_3x3_at_sym.
Qed.


End ExactArithmetic.




(* ================================================================= *)
(** ** Assembler: construction *)

Lemma base_init_2d_inr kvs :
  (exists b, Asm2D.base_init kvs = inr b) <-> length kvs = 2%nat.
Proof.
  unfold Asm2D.base_init.
  destruct kvs as [|k0 [|k1 [|k2 kvs]]]; simpl; split;
    try (intros [b Hb]; discriminate); try (intros; discriminate); eauto.
Qed.

Lemma base_init_3d_inr kvs :
  (exists b, Asm3D.base_init kvs = inr b) <-> length kvs = 3%nat.
Proof.
  unfold Asm3D.base_init.
  destruct kvs as [|k0 [|k1 [|k2 [|k3 kvs]]]]; simpl; split;
    try (intros [b Hb]; discriminate); try (intros; discriminate); eauto.
Qed.



(* ================================================================= *)
(** ** Loops that follow a chain *)

Lemma fold_bind_None {I A} (body : I -> A -> option A) l :
  fold_left (fun oa i => oa ≫= body i) l None = None.
Proof. induction l as [|x l IH]; [reflexivity | exact IH]. Qed.

(** A [do_while] loop whose iterator follows the chain [l] from [x] runs
    the body on [x :: l] in order, if the fuel exceeds the length of [l]. *)
Lemma do_while_chain {I A} (next : I -> I * bool) (body : I -> A -> option A) l :
  forall x fuel acc,
    chain next x l -> (length l < fuel)%nat ->
    snd <$> do_while fuel
              (fun '(i, a) =>
                 match body i a with
                 | Some a' => let '(i', more) := next i in Some ((i', a'), more)
                 | None => None
                 end) (x, acc)
    = fold_left (fun oa i => oa ≫= body i) (x :: l) (Some acc).
Proof.
  induction l as [|y l IH]; intros x fuel acc Hc Hf;
    (destruct fuel as [|fuel]; [simpl in Hf; lia|]); cbn [do_while fold_left].
  - simpl in Hc. cbn [mbind option_bind].
    destruct (body x acc) as [a'|]; [|reflexivity].
    destruct (next x) as [i' more]. simpl in Hc. subst more. reflexivity.
  - destruct Hc as [Hn Hc]. cbn [mbind option_bind].
    destruct (body x acc) as [a'|].
    + rewrite Hn. apply IH; [exact Hc | simpl in Hf; lia].
    + symmetry. apply (fold_bind_None body (y :: l)).
Qed.

(** The same with a body that cannot fail. *)
Lemma fold_bind_Some {I A} (body : I -> A -> A) l acc :
  fold_left (fun oa i => oa ≫= (fun a => Some (body i a))) l (Some acc)
  = Some (fold_left (fun a i => body i a) l acc).
Proof.
  revert acc. induction l as [|x l IH]; intros acc; [reflexivity|].
  cbn [fold_left mbind option_bind]. apply IH.
Qed.

Lemma fold_left_app_bind {I A} (g : I -> list A -> list A) (f : I -> list A)
    l acc :
  (forall i a, g i a = a ++ f i) ->
  fold_left (fun a i => g i a) l acc = acc ++ l ≫= f.
Proof.
  intros Hg. revert acc. induction l as [|x l IH]; intros acc; cbn [fold_left].
  - symmetry. apply app_nil_r.
  - rewrite IH, Hg, bind_cons, app_assoc. reflexivity.
Qed.

(* ================================================================= *)
(** ** Sparse matrices with one triplet per coordinate *)

Section SparseFacts.
Context {F : Type} `{FloatOps F}.

Lemma tocsr_lookup_gen (l : list (Triplet F)) : forall (m : gmap (Z * Z) F) k v,
  NoDup (l.*1) ->
  (forall t, t ∈ l -> m !! t.1 = None) ->
  fold_left add_triplet l m !! k = Some v <-> (k, v) ∈ l \/ m !! k = Some v.
Proof.
  induction l as [|[k0 v0] l IH]; intros m k v Hnd Hm; cbn [fold_left].
  - rewrite elem_of_nil. tauto.
  - rewrite fmap_cons in Hnd. apply NoDup_cons in Hnd as [Hk0 Hnd].
    assert (Hadd : add_triplet m (k0, v0) = <[k0 := v0]> m).
    { unfold add_triplet, coord. cbn [fst snd]. apply map_eq. intros k'.
      rewrite lookup_partial_alter, lookup_insert.
      destruct (decide (k0 = k')); [|reflexivity].
      pose proof (Hm (k0, v0) ltac:(apply elem_of_cons; auto)) as Hn.
      cbn [fst] in Hn. rewrite Hn. reflexivity. }
    rewrite Hadd, IH; [| exact Hnd |].
    + rewrite elem_of_cons, lookup_insert.
      destruct (decide (k0 = k)) as [-> | Hne].
      * pose proof (Hm (k, v0) ltac:(apply elem_of_cons; auto)) as Hn.
        cbn [fst] in Hn. rewrite Hn. split.
        -- intros [Hin | [= ->]]; [|auto].
           exfalso. apply Hk0. apply list_elem_of_fmap. exists (k, v). auto.
        -- intros [[[= ->] | Hin] | ?]; [auto | | discriminate].
           exfalso. apply Hk0. apply list_elem_of_fmap. exists (k, v). auto.
      * split.
        -- intros [? | ?]; auto.
        -- intros [[[= -> ->] | ?] | ?]; [contradiction | auto | auto].
    + intros t Ht. rewrite lookup_insert_ne.
      * apply Hm. apply elem_of_cons. auto.
      * intros ->. apply Hk0. apply list_elem_of_fmap. exists t. auto.
Qed.

Lemma tocsr_lookup shape (l : list (Triplet F)) k v :
  NoDup (l.*1) ->
  sm_data (coo_tocsr shape l) !! k = Some v <-> (k, v) ∈ l.
Proof.
  intros Hnd. cbn [coo_tocsr sm_data]. rewrite tocsr_lookup_gen.
  - rewrite lookup_empty. split; [intros [?|?]; [auto | discriminate] | auto].
  - exact Hnd.
  - intros t _. apply lookup_empty.
Qed.

Lemma tocsr_ext shape (l1 l2 : list (Triplet F)) :
  NoDup (l1.*1) -> NoDup (l2.*1) -> (forall t, t ∈ l1 <-> t ∈ l2) ->
  coo_tocsr shape l1 = coo_tocsr shape l2.
Proof.
  intros H1 H2 E. unfold coo_tocsr. f_equal. apply map_eq. intros k.
  apply option_eq. intros v.
  rewrite (tocsr_lookup shape l1 k v H1), (tocsr_lookup shape l2 k v H2).
  apply E.
Qed.

Lemma csr_add_tocsr shape (l1 l2 : list (Triplet F)) :
  NoDup ((l1 ++ l2).*1) ->
  csr_add (coo_tocsr shape l1) (coo_tocsr shape l2) = coo_tocsr shape (l1 ++ l2).
Proof.
  intros Hnd. assert (Hnd' := Hnd).
  rewrite fmap_app in Hnd'. apply NoDup_app in Hnd' as (H1 & Hdisj & H2).
  unfold csr_add. cbn [sm_shape coo_tocsr].
  unfold coo_tocsr at 3. f_equal.
  apply map_eq. intros k. apply option_eq. intros v.
  rewrite lookup_union_with.
  change (fold_left add_triplet (l1 ++ l2) ∅)
    with (sm_data (coo_tocsr shape (l1 ++ l2))).
  rewrite (tocsr_lookup shape (l1 ++ l2) k v Hnd), elem_of_app.
  rewrite <- (tocsr_lookup shape l1 k v H1), <- (tocsr_lookup shape l2 k v H2).
  cbn [sm_data coo_tocsr].
  destruct (fold_left add_triplet l1 ∅ !! k) as [v1|] eqn:E1;
    destruct (fold_left add_triplet l2 ∅ !! k) as [v2|] eqn:E2;
    cbn [union_with option_union_with].
  - exfalso.
    apply (tocsr_lookup shape l1 k v1 H1) in E1.
    apply (tocsr_lookup shape l2 k v2 H2) in E2.
    apply (Hdisj k).
    + apply list_elem_of_fmap. exists (k, v1). auto.
    + apply list_elem_of_fmap. exists (k, v2). auto.
  - split; [auto | intros [?|?]; [auto | discriminate]].
  - split; [auto | intros [?|?]; [discriminate | auto]].
  - split; [discriminate | intros [?|?]; discriminate].
Qed.

Lemma py_sum_tocsr shape (Ts : list (list (Triplet F))) T0 :
  NoDup ((T0 ++ mjoin Ts).*1) ->
  fold_left (fun acc A =>
               match acc with
               | PyInt0 => PyCsr A
               | PyCsr R => PyCsr (csr_add R A)
               end) (coo_tocsr shape <$> Ts) (PyCsr (coo_tocsr shape T0))
  = PyCsr (coo_tocsr shape (T0 ++ mjoin Ts)).
Proof.
  revert T0. induction Ts as [|T Ts IH]; intros T0 Hnd.
  - cbn. rewrite app_nil_r. reflexivity.
  - cbn [fmap list_fmap fold_left mjoin list_join] in *.
    rewrite app_assoc in Hnd.
    rewrite csr_add_tocsr.
    + rewrite IH by exact Hnd. rewrite app_assoc. reflexivity.
    + rewrite fmap_app in Hnd. apply NoDup_app in Hnd as (Hnd & _). exact Hnd.
Qed.

End SparseFacts.

(* ================================================================= *)
(** ** What a traversal emits *)

Lemma fmap_bind_list {A B C} (g : B -> C) (f : A -> list B) (l : list A) :
  g <$> (l ≫= f) = l ≫= (fun x => g <$> f x).
Proof.
  induction l as [|x l IH]; [reflexivity|].
  rewrite !bind_cons, fmap_app, IH. reflexivity.
Qed.

Section Traversal.
Context {F : Type} {I : Type}.
Variable to_seq : I -> Z.
Variable impl : I -> I -> F.
Variable neigh : I -> list I.
Variable valid : I -> Prop.
Hypothesis to_seq_inj :
  forall i j, valid i -> valid j -> to_seq i = to_seq j -> i = j.
Hypothesis neigh_valid : forall i j, valid i -> j ∈ neigh i -> valid j.
Hypothesis neigh_NoDup : forall i, valid i -> NoDup (neigh i).

Lemma elem_of_emit i j (t : Triplet F) :
  t ∈ emit to_seq impl i j
  <-> to_seq i <= to_seq j /\ t.2 = impl i j
      /\ (t.1 = (to_seq i, to_seq j) \/ t.1 = (to_seq j, to_seq i)).
Proof.
  unfold emit. destruct t as [k v]. cbn [fst snd].
  destruct (to_seq j >=? to_seq i) eqn:Hge.
  - rewrite Z.geb_leb in Hge. apply Z.leb_le in Hge.
    destruct (to_seq i =? to_seq j) eqn:He; cbn [negb].
    + apply Z.eqb_eq in He. rewrite list_elem_of_singleton. split.
      * intros [= -> ->]. auto.
      * intros (_ & -> & [-> | ->]); rewrite ?He; reflexivity.
    + rewrite !elem_of_cons, elem_of_nil. split.
      * intros [[= -> ->] | [[= -> ->] | []]]; auto.
      * intros (_ & -> & [-> | ->]); auto.
  - rewrite Z.geb_leb in Hge. apply Z.leb_gt in Hge.
    rewrite elem_of_nil. split; [tauto | lia].
Qed.

(** A coordinate determines the pair of linear indices it comes from. *)
Lemma emit_key i j (k : Z * Z) :
  k ∈ (emit to_seq impl i j).*1 ->
  to_seq i = Z.min k.1 k.2 /\ to_seq j = Z.max k.1 k.2.
Proof.
  intros Hk. apply list_elem_of_fmap in Hk as (t & -> & Ht).
  apply elem_of_emit in Ht as (Hle & _ & [-> | ->]); cbn [fst snd]; lia.
Qed.

Lemma NoDup_emit i j : NoDup ((emit to_seq impl i j).*1).
Proof.
  unfold emit. destruct (to_seq j >=? to_seq i); [|constructor].
  destruct (to_seq i =? to_seq j) eqn:He; cbn [negb fmap list_fmap fst].
  - apply NoDup_singleton.
  - apply Z.eqb_neq in He. apply NoDup_cons. split; [|apply NoDup_singleton].
    rewrite list_elem_of_singleton. intros [= E _]. contradiction.
Qed.

Lemma NoDup_row_triplets i :
  valid i -> NoDup ((row_triplets to_seq impl neigh i).*1).
Proof.
  intros Hi. unfold row_triplets. rewrite fmap_bind_list.
  apply NoDup_bind.
  - intros j1 j2 k Hj1 Hj2 Hk1 Hk2.
    apply emit_key in Hk1 as [_ E1]. apply emit_key in Hk2 as [_ E2].
    apply to_seq_inj; [eauto | eauto | congruence].
  - intros j _. apply NoDup_emit.
  - apply neigh_NoDup, Hi.
Qed.

Lemma row_key i (k : Z * Z) :
  k ∈ (row_triplets to_seq impl neigh i).*1 -> to_seq i = Z.min k.1 k.2.
Proof.
  unfold row_triplets. rewrite fmap_bind_list.
  intros (j & Hk & _)%list_elem_of_bind. apply (emit_key i j k Hk).
Qed.

Lemma NoDup_traversal_triplets rows :
  NoDup rows -> Forall valid rows ->
  NoDup ((traversal_triplets to_seq impl neigh rows).*1).
Proof.
  intros Hnd Hv. unfold traversal_triplets. rewrite fmap_bind_list.
  rewrite Forall_forall in Hv.
  apply NoDup_bind.
  - intros i1 i2 k Hi1 Hi2 Hk1 Hk2.
    apply row_key in Hk1. apply row_key in Hk2.
    apply to_seq_inj; [auto | auto | congruence].
  - intros i Hi. apply NoDup_row_triplets. auto.
  - exact Hnd.
Qed.

Lemma elem_of_traversal_triplets rows (t : Triplet F) :
  t ∈ traversal_triplets to_seq impl neigh rows
  <-> exists i j, i ∈ rows /\ j ∈ neigh i /\ t ∈ emit to_seq impl i j.
Proof.
  unfold traversal_triplets, row_triplets. rewrite list_elem_of_bind. split.
  - intros (i & Ht & Hi). apply list_elem_of_bind in Ht as (j & Ht & Hj). eauto.
  - intros (i & j & Hi & Hj & Ht). exists i. split; [|exact Hi].
    apply list_elem_of_bind. eauto.
Qed.

(** Two enumerations of the same rows give the same matrix. *)
Lemma traversal_tocsr_ext `{FloatOps F} shape rows1 rows2 :
  NoDup rows1 -> NoDup rows2 -> Forall valid rows1 ->
  (forall i, i ∈ rows1 <-> i ∈ rows2) ->
  coo_tocsr shape (traversal_triplets to_seq impl neigh rows1)
  = coo_tocsr shape (traversal_triplets to_seq impl neigh rows2).
Proof.
  intros H1 H2 Hv E.
  assert (Hv2 : Forall valid rows2).
  { rewrite Forall_forall in *. intros i Hi. apply Hv, E, Hi. }
  apply tocsr_ext.
  - apply NoDup_traversal_triplets; assumption.
  - apply NoDup_traversal_triplets; assumption.
  - intros t. rewrite !elem_of_traversal_triplets. split.
    + intros (i & j & Hi & Hj). exists i, j. split; [apply E, Hi | exact Hj].
    + intros (i & j & Hi & Hj). exists i, j. split; [apply E, Hi | exact Hj].
Qed.

(** The stored entries of the matrix of a traversal. *)
Lemma traversal_lookup `{FloatOps F} shape rows r c v :
  NoDup rows -> Forall valid rows ->
  sm_data (coo_tocsr shape (traversal_triplets to_seq impl neigh rows))
    !! (r, c) = Some v
  <-> exists i j,
        i ∈ rows /\ j ∈ neigh i /\ to_seq i <= to_seq j /\ v = impl i j
        /\ ((r, c) = (to_seq i, to_seq j) \/ (r, c) = (to_seq j, to_seq i)).
Proof.
  intros Hnd Hv.
  rewrite tocsr_lookup by (apply NoDup_traversal_triplets; assumption).
  rewrite elem_of_traversal_triplets. split.
  - intros (i & j & Hi & Hj & Ht). apply elem_of_emit in Ht. cbn [fst snd] in Ht.
    exists i, j. tauto.
  - intros (i & j & Hi & Hj & Hle & -> & Hk). exists i, j.
    split; [exact Hi|]. split; [exact Hj|]. apply elem_of_emit. cbn [fst snd]. tauto.
Qed.

End Traversal.

(* ================================================================= *)
(** ** The 2D traversal *)

Lemma wrap64_small z : 0 <= z < 2 ^ 64 -> wrap64 z = z.
Proof. intros Hz. unfold wrap64. apply Z.mod_small. exact Hz. Qed.

Section Box2.
Variables s e : Asm2D.Index.
Hypothesis Hs1 : 0 <= s.1 < e.1.
Hypothesis Hs2 : 0 <= s.2 < e.2.
Hypothesis He1 : e.1 < 2 ^ 64.
Hypothesis He2 : e.2 < 2 ^ 64.

Let next (c : Asm2D.Index) := Asm2D.next_lexicographic2 c s e.
Let row (b : Z) : list Asm2D.Index := (fun a => (a, b)) <$> seqZ s.1 (e.1 - s.1).

Lemma next2_step c0 c1 :
  0 <= c0 -> c0 + 1 < e.1 -> next (c0, c1) = ((c0 + 1, c1), true).
Proof.
  intros H0 H1. unfold next, Asm2D.next_lexicographic2. cbn [fst snd].
  rewrite wrap64_small by lia.
  destruct (c0 + 1 =? e.1) eqn:E; [apply Z.eqb_eq in E; lia | reflexivity].
Qed.

Lemma next2_carry c1 :
  0 <= c1 -> c1 + 1 < e.2 -> next (e.1 - 1, c1) = ((s.1, c1 + 1), true).
Proof.
  intros H0 H1. unfold next, Asm2D.next_lexicographic2. cbn [fst snd].
  rewrite !wrap64_small by lia.
  replace (e.1 - 1 + 1) with e.1 by lia. rewrite Z.eqb_refl.
  destruct (c1 + 1 =? e.2) eqn:E; [apply Z.eqb_eq in E; lia | reflexivity].
Qed.

Lemma next2_stop : (next (e.1 - 1, e.2 - 1)).2 = false.
Proof.
  unfold next, Asm2D.next_lexicographic2. cbn [fst snd].
  rewrite !wrap64_small by lia.
  replace (e.1 - 1 + 1) with e.1 by lia. replace (e.2 - 1 + 1) with e.2 by lia.
  rewrite !Z.eqb_refl. reflexivity.
Qed.

Lemma chain2_row c1 tail (n : nat) : forall c0,
  Z.to_nat (e.1 - c0 - 1) = n -> s.1 <= c0 < e.1 ->
  chain next (e.1 - 1, c1) tail ->
  chain next (c0, c1)
    (((fun a => (a, c1)) <$> seqZ (c0 + 1) (e.1 - c0 - 1)) ++ tail).
Proof.
  induction n as [|n IH]; intros c0 Hn Hc0 Ht.
  - rewrite seqZ_nil by lia. replace c0 with (e.1 - 1) by lia. exact Ht.
  - rewrite seqZ_cons by lia. cbn [fmap list_fmap app chain]. split.
    + apply next2_step; lia.
    + replace (Z.succ (c0 + 1)) with (c0 + 1 + 1) by lia.
      replace (Z.pred (e.1 - c0 - 1)) with (e.1 - (c0 + 1) - 1) by lia.
      apply IH; [lia | lia | exact Ht].
Qed.

Lemma chain2_rows (m : nat) : forall c1,
  Z.to_nat (e.2 - c1 - 1) = m -> s.2 <= c1 < e.2 ->
  chain next (e.1 - 1, c1) (seqZ (c1 + 1) (e.2 - c1 - 1) ≫= row).
Proof.
  induction m as [|m IH]; intros c1 Hm Hc1.
  - rewrite seqZ_nil by lia. replace c1 with (e.2 - 1) by lia.
    apply next2_stop.
  - rewrite seqZ_cons by lia. rewrite bind_cons. unfold row at 1.
    rewrite (seqZ_cons s.1) by lia. cbn [fmap list_fmap app chain]. split.
    + apply next2_carry; lia.
    + replace (Z.succ s.1) with (s.1 + 1) by lia.
      replace (Z.pred (e.1 - s.1)) with (e.1 - s.1 - 1) by lia.
      apply (chain2_row (c1 + 1) _ (Z.to_nat (e.1 - s.1 - 1)));
        [reflexivity | lia |].
      replace (Z.succ (c1 + 1)) with (c1 + 1 + 1) by lia.
      replace (Z.pred (e.2 - c1 - 1)) with (e.2 - (c1 + 1) - 1) by lia.
      apply IH; lia.
Qed.

(** From [s], [next_lexicographic2] runs through [box2 s e]. *)
Lemma chain_box2 :
  exists l, box2 s e = s :: l /\ chain next s l.
Proof.
  exists (((fun a => (a, s.2)) <$> seqZ (s.1 + 1) (e.1 - s.1 - 1))
          ++ (seqZ (s.2 + 1) (e.2 - s.2 - 1) ≫= row)).
  split.
  - change (box2 s e) with (seqZ s.2 (e.2 - s.2) ≫= row).
    rewrite (seqZ_cons s.2) by lia. rewrite bind_cons. unfold row at 1.
    rewrite (seqZ_cons s.1) by lia. cbn [fmap list_fmap app].
    replace (Z.succ s.1) with (s.1 + 1) by lia.
    replace (Z.pred (e.1 - s.1)) with (e.1 - s.1 - 1) by lia.
    replace (Z.succ s.2) with (s.2 + 1) by lia.
    replace (Z.pred (e.2 - s.2)) with (e.2 - s.2 - 1) by lia.
    rewrite <- (surjective_pairing s). reflexivity.
  - rewrite (surjective_pairing s) at 1.
    apply (chain2_row s.2 _ (Z.to_nat (e.1 - s.1 - 1))); [reflexivity | lia |].
    apply (chain2_rows (Z.to_nat (e.2 - s.2 - 1))); [reflexivity | lia].
Qed.

End Box2.

Lemma elem_of_box2 s e (i : Asm2D.Index) :
  i ∈ box2 s e <-> s.1 <= i.1 < e.1 /\ s.2 <= i.2 < e.2.
Proof.
  unfold box2. rewrite list_elem_of_bind. split.
  - intros (b & Hi & Hb). apply list_elem_of_fmap in Hi as (a & -> & Ha).
    apply elem_of_seqZ in Ha, Hb. cbn [fst snd]. lia.
  - intros [H1 H2]. exists i.2. split.
    + apply list_elem_of_fmap. exists i.1. split; [destruct i; reflexivity|].
      apply elem_of_seqZ. lia.
    + apply elem_of_seqZ. lia.
Qed.

Lemma NoDup_box2 s e : NoDup (box2 s e).
Proof.
  unfold box2. apply NoDup_bind.
  - intros b1 b2 i _ _ H1 H2.
    apply list_elem_of_fmap in H1 as (a1 & -> & _).
    apply list_elem_of_fmap in H2 as (a2 & [= _ ->] & _). reflexivity.
  - intros b _. apply NoDup_fmap_2; [|apply NoDup_seqZ].
    intros a1 a2 [= ->]. reflexivity.
  - apply NoDup_seqZ.
Qed.

Lemma length_box2 s e :
  0 <= e.1 - s.1 -> 0 <= e.2 - s.2 ->
  Z.of_nat (length (box2 s e)) = (e.1 - s.1) * (e.2 - s.2).
Proof.
  intros H1 H2. unfold box2.
  assert (Hgen : forall l : list Z,
            Z.of_nat (length (l ≫= fun b => (fun a => (a, b)) <$> seqZ s.1 (e.1 - s.1)))
            = (e.1 - s.1) * Z.of_nat (length l)).
  { induction l as [|b l IH];
      [change (Z.of_nat 0 = (e.1 - s.1) * Z.of_nat 0); lia|].
    rewrite bind_cons, length_app, length_fmap, length_seqZ.
    rewrite Nat2Z.inj_add, IH. cbn [length]. lia. }
  rewrite Hgen, length_seqZ, Z2Nat.id by lia. reflexivity.
Qed.

Lemma fold_bind_rows {I A} (body : I -> list A -> option (list A))
    (f : I -> list A) l : forall acc,
  (forall i a, i ∈ l -> body i a = Some (a ++ f i)) ->
  fold_left (fun oa i => oa ≫= body i) l (Some acc) = Some (acc ++ l ≫= f).
Proof.
  induction l as [|x l IH]; intros acc Hb; cbn [fold_left].
  - rewrite app_nil_r. reflexivity.
  - cbn [mbind option_bind]. rewrite Hb by (apply elem_of_cons; auto).
    rewrite IH.
    + rewrite bind_cons, app_assoc. reflexivity.
    + intros i a Hi. apply Hb. apply elem_of_cons. auto.
Qed.

Section Traverse2D.
Context {F : Type} `{FloatOps F}.
Variable asm : Asm2D.Assembler F.
Hypothesis Hwf : wf2 (Asm2D.base asm).

Local Abbreviation b := (Asm2D.base asm).
Local Abbreviation n0 := (Asm2D.ndofs (Asm2D.base asm)).1.
Local Abbreviation n1 := (Asm2D.ndofs (Asm2D.base asm)).2.

Lemma to_seq2_valid i :
  valid2 b i -> Asm2D.to_seq b i = i.1 * n1 + i.2 /\ 0 <= i.1 * n1 + i.2 < n0 * n1.
Proof.
  intros [H0 H1]. destruct Hwf as (Hn0 & Hn1 & HN & _).
  assert (0 <= i.1 * n1 + i.2 < n0 * n1) by nia.
  split; [|assumption]. unfold Asm2D.to_seq. apply wrap64_small. lia.
Qed.

Lemma to_seq2_inj i j :
  valid2 b i -> valid2 b j -> Asm2D.to_seq b i = Asm2D.to_seq b j -> i = j.
Proof.
  intros Hi Hj E.
  destruct (to_seq2_valid i Hi) as [Ei _]. destruct (to_seq2_valid j Hj) as [Ej _].
  rewrite Ei, Ej in E. clear Ei Ej.
  destruct Hi as [Hi0 Hi1], Hj as [Hj0 Hj1].
  destruct i as [i0 i1], j as [j0 j1]. cbn [fst snd] in *.
  assert (i0 = j0) by nia. subst. f_equal. lia.
Qed.

Lemma neigh_j2_bounds i :
  valid2 b i ->
  0 <= (Asm2D.neigh_j b i).1.1 <= i.1 /\ i.1 < (Asm2D.neigh_j b i).2.1 <= n0
  /\ 0 <= (Asm2D.neigh_j b i).1.2 <= i.2 /\ i.2 < (Asm2D.neigh_j b i).2.2 <= n1.
Proof.
  intros [H0 H1]. destruct Hwf as (_ & _ & _ & Hl0 & Hl1).
  unfold Asm2D.neigh_j. cbn [fst snd].
  pose proof (find_joint_support_functions_contains (Asm2D.meshsupp b).1 i.1) as C0.
  pose proof (find_joint_support_functions_contains (Asm2D.meshsupp b).2 i.2) as C1.
  pose proof (find_joint_support_functions_bounds (Asm2D.meshsupp b).1 i.1) as B0.
  pose proof (find_joint_support_functions_bounds (Asm2D.meshsupp b).2 i.2) as B1.
  cbv zeta in *. rewrite Hl0 in B0. rewrite Hl1 in B1.
  specialize (B0 H0). specialize (B1 H1). lia.
Qed.

Lemma neigh2_valid i j : valid2 b i -> j ∈ neigh2 b i -> valid2 b j.
Proof.
  intros Hi Hj. apply elem_of_box2 in Hj.
  pose proof (neigh_j2_bounds i Hi). unfold valid2. lia.
Qed.

Lemma visit2_emit i j entries :
  Asm2D.visit asm i (Asm2D.to_seq b i) j entries
  = entries ++ emit (Asm2D.to_seq b) (Asm2D.assemble_impl asm) i j.
Proof.
  unfold Asm2D.visit, emit.
  destruct (Asm2D.to_seq b j >=? Asm2D.to_seq b i); [|symmetry; apply app_nil_r].
  destruct (negb (Asm2D.to_seq b i =? Asm2D.to_seq b j)).
  - rewrite <- app_assoc. reflexivity.
  - reflexivity.
Qed.

Lemma loop_j2_spec fuel i entries :
  valid2 b i -> (Z.to_nat (n0 * n1) < fuel)%nat ->
  Asm2D.loop_j fuel asm i entries
  = Some (entries
          ++ row_triplets (Asm2D.to_seq b) (Asm2D.assemble_impl asm) (neigh2 b) i).
Proof.
  intros Hi Hf. pose proof (neigh_j2_bounds i Hi) as Hb.
  destruct Hwf as (Hn0 & Hn1 & HN & _).
  unfold Asm2D.loop_j, row_triplets, neigh2.
  destruct (Asm2D.neigh_j b i) as [ns ne] eqn:En. cbn [fst snd] in *.
  destruct (chain_box2 ns ne) as (l & Hbox & Hchain); [lia | lia | nia | nia |].
  assert (Hlen : (length l < fuel)%nat).
  { pose proof (length_box2 ns ne ltac:(lia) ltac:(lia)) as Hl.
    rewrite Hbox in Hl. cbn [length] in Hl.
    assert ((ne.1 - ns.1) * (ne.2 - ns.2) <= n0 * n1) by nia. lia. }
  etransitivity.
  { apply (do_while_chain (fun c => Asm2D.next_lexicographic2 c ns ne)
             (fun j a => Some (Asm2D.visit asm i (Asm2D.to_seq b i) j a))
             l ns fuel entries Hchain Hlen). }
  rewrite fold_bind_Some. f_equal. rewrite Hbox.
  apply fold_left_app_bind. intros j a. apply visit2_emit.
Qed.

(** The sequential traversal of the rows [[s, e)] ends and returns the
    matrix of the triplets it emits. *)
Lemma generic_assemble_2d_spec fuel chunk_start chunk_end :
  let s := (Asm2D.dof_range b chunk_start chunk_end).1 in
  let e := (Asm2D.dof_range b chunk_start chunk_end).2 in
  0 <= s.1 < e.1 -> e.1 <= n0 ->
  (Z.to_nat (n0 * n1) < fuel)%nat ->
  Asm2D.generic_assemble_2d fuel asm chunk_start chunk_end
  = Some (coo_tocsr (n0 * n1, n0 * n1) (triplets2 asm s e)).
Proof.
  intros s e Hs He Hf.
  assert (Hwf' := Hwf). destruct Hwf' as (Hn0 & Hn1 & HN & _).
  unfold Asm2D.generic_assemble_2d.
  rewrite (surjective_pairing (Asm2D.dof_range b chunk_start chunk_end)).
  fold s e.
  assert (Hs2 : s.2 = 0) by reflexivity.
  assert (He2 : e.2 = n1) by reflexivity.
  destruct (chain_box2 s e) as (l & Hbox & Hchain); [lia | lia | nia | nia |].
  assert (Hlen : (length l < fuel)%nat).
  { pose proof (length_box2 s e ltac:(lia) ltac:(lia)) as Hl.
    rewrite Hbox in Hl. cbn [length] in Hl.
    assert ((e.1 - s.1) * (e.2 - s.2) <= n0 * n1) by nia. lia. }
  pose proof (do_while_chain (fun c => Asm2D.next_lexicographic2 c s e)
                (fun i a => Asm2D.loop_j fuel asm i a) l s fuel [] Hchain Hlen)
    as Hloop.
  rewrite (fold_bind_rows _
             (row_triplets (Asm2D.to_seq b) (Asm2D.assemble_impl asm) (neigh2 b)))
    in Hloop.
  2:{ intros i a Hi. apply loop_j2_spec; [|exact Hf].
      rewrite <- Hbox in Hi. apply elem_of_box2 in Hi. unfold valid2. lia. }
  rewrite <- Hbox in Hloop. cbn [app] in Hloop.
  destruct (do_while fuel _ (s, [])) as [[i' entries]|]; [|discriminate].
  cbn in Hloop. injection Hloop as ->.
  rewrite wrap64_small by lia. reflexivity.
Qed.

End Traverse2D.

(* ================================================================= *)
(** ** The sum of the matrices of the chunks *)

Lemma list_bind_assoc {A B C} (f : A -> list B) (g : B -> list C) (l : list A) :
  (l ≫= f) ≫= g = l ≫= (fun x => f x ≫= g).
Proof.
  induction l as [|x l IH]; [reflexivity|].
  rewrite !bind_cons, bind_app, IH. reflexivity.
Qed.

Lemma join_fmap_bind {A B} (f : A -> list B) (l : list A) :
  mjoin (f <$> l) = l ≫= f.
Proof.
  induction l as [|x l IH]; [reflexivity|].
  cbn [fmap list_fmap mjoin list_join]. rewrite bind_cons. f_equal. exact IH.
Qed.

(** If the lists [f c] are pairwise disjoint and every element of [g c]
    projects into [f c], the lists [g c] are pairwise disjoint too. *)
Lemma NoDup_bind_proj {C A B} (f : C -> list A) (g : C -> list B)
    (proj : B -> A) (l : list C) :
  (forall c x, x ∈ g c -> proj x ∈ f c) ->
  (forall c, NoDup (g c)) ->
  NoDup (l ≫= f) -> NoDup (l ≫= g).
Proof.
  intros Hp Hg. induction l as [|c l IH]; intros Hnd; [constructor|].
  rewrite bind_cons in *. apply NoDup_app in Hnd as (_ & Hdisj & Hnd).
  apply NoDup_app. split; [apply Hg|]. split; [|apply IH, Hnd].
  intros x Hx Hx'. apply list_elem_of_bind in Hx' as (c' & Hx' & Hc').
  apply (Hdisj (proj x)); [apply Hp, Hx|].
  apply list_elem_of_bind. exists c'. split; [apply Hp, Hx' | exact Hc'].
Qed.

Lemma elem_of_range_list c x : x ∈ range_list c <-> start c <= x < stop c.
Proof. unfold range_list, range_len. rewrite elem_of_seqZ. lia. Qed.

Lemma partitions_chunk n chunks c :
  partitions n chunks -> c ∈ chunks -> 0 <= start c /\ start c < stop c <= n.
Proof.
  intros (Hcat & Hne & _) Hc.
  rewrite Forall_forall in Hne. specialize (Hne c Hc).
  assert (Hin : forall x, x ∈ range_list c -> 0 <= x < n).
  { intros x Hx.
    assert (Hx' : x ∈ chunks ≫= range_list)
      by (apply list_elem_of_bind; eauto).
    rewrite Hcat in Hx'. apply elem_of_seqZ in Hx'. lia. }
  pose proof (Hin (start c) ltac:(apply elem_of_range_list; lia)).
  pose proof (Hin (stop c - 1) ltac:(apply elem_of_range_list; lia)).
  lia.
Qed.

Section ParallelSum.
Context {F : Type} `{FloatOps F} {I : Type}.
Variable to_seq : I -> Z.
Variable impl : I -> I -> F.
Variable neigh : I -> list I.
Variable valid : I -> Prop.
Hypothesis to_seq_inj :
  forall i j, valid i -> valid j -> to_seq i = to_seq j -> i = j.
Hypothesis neigh_valid : forall i j, valid i -> j ∈ neigh i -> valid j.
Hypothesis neigh_NoDup : forall i, valid i -> NoDup (neigh i).

(** The rows of the chunk [[s, e)] of axis 0, and the axis-0 component of
    a row. *)
Variable rows_of : Z -> Z -> list I.
Variable axis0 : I -> Z.
Variable n : Z.
Hypothesis rows_elem :
  forall s e i, 0 <= s -> e <= n ->
    (i ∈ rows_of s e <-> s <= axis0 i < e /\ valid i).
Hypothesis rows_NoDup : forall s e, NoDup (rows_of s e).
Variable shape : Z * Z.

Let T (s e : Z) : list (Triplet F) :=
  traversal_triplets to_seq impl neigh (rows_of s e).

(** Summing the matrices of the chunks gives the matrix of the whole
    range. *)
Lemma parallel_sum chunks :
  1 <= n -> partitions n chunks ->
  py_sum ((fun c => coo_tocsr shape (T (start c) (stop c))) <$> chunks)
  = PyCsr (coo_tocsr shape (T 0 n)).
Proof.
  intros Hn Hpart.
  set (rows_par := chunks ≫= fun c => rows_of (start c) (stop c)).
  assert (Helem : forall i, i ∈ rows_par <-> i ∈ rows_of 0 n).
  { intros i. unfold rows_par. rewrite list_elem_of_bind.
    rewrite rows_elem by lia. split.
    - intros (c & Hi & Hc).
      pose proof (partitions_chunk n chunks c Hpart Hc) as Hb.
      apply rows_elem in Hi; lia || (split; [lia | tauto]).
    - intros [Hi Hv].
      assert (Hx : axis0 i ∈ chunks ≫= range_list).
      { destruct Hpart as [-> _]. apply elem_of_seqZ. lia. }
      apply list_elem_of_bind in Hx as (c & Hx & Hc).
      pose proof (partitions_chunk n chunks c Hpart Hc) as Hb.
      exists c. split; [|exact Hc].
      apply rows_elem; [lia | lia |]. apply elem_of_range_list in Hx. tauto. }
  assert (Hnd : NoDup rows_par).
  { unfold rows_par.
    assert (Hgood : Forall (fun c => 0 <= start c /\ stop c <= n) chunks).
    { apply Forall_forall. intros c Hc.
      pose proof (partitions_chunk n chunks c Hpart Hc). lia. }
    destruct Hpart as (Hcat & _). assert (Hnd : NoDup (chunks ≫= range_list))
      by (rewrite Hcat; apply NoDup_seqZ).
    clear Hcat Helem rows_par. induction chunks as [|c chunks IH]; [constructor|].
    rewrite bind_cons in *. apply Forall_cons in Hgood as [Hc Hgood].
    apply NoDup_app in Hnd as (_ & Hdisj & Hnd).
    apply NoDup_app. split; [apply rows_NoDup|]. split; [|apply IH; assumption].
    intros x Hx Hx'. apply list_elem_of_bind in Hx' as (c' & Hx' & Hc').
    rewrite Forall_forall in Hgood. specialize (Hgood c' Hc').
    apply rows_elem in Hx; [|lia|lia]. apply rows_elem in Hx'; [|lia|lia].
    apply (Hdisj (axis0 x)); [apply elem_of_range_list; tauto|].
    apply list_elem_of_bind. exists c'. split; [|exact Hc'].
    apply elem_of_range_list. tauto. }
  assert (Hvalid : Forall valid rows_par).
  { apply Forall_forall. intros i Hi. apply Helem, rows_elem in Hi; [tauto|lia|lia]. }
  assert (Hsum : py_sum ((fun c => coo_tocsr shape (T (start c) (stop c))) <$> chunks)
                 = PyCsr (coo_tocsr shape
                            (traversal_triplets to_seq impl neigh rows_par))).
  { assert (HT : NoDup ((chunks ≫= fun c => T (start c) (stop c)).*1)).
    { unfold T, traversal_triplets. rewrite <- list_bind_assoc.
      apply (NoDup_traversal_triplets to_seq impl neigh valid);
        [exact to_seq_inj | exact neigh_valid | exact neigh_NoDup
        | exact Hnd | exact Hvalid]. }
    assert (Hrows : traversal_triplets to_seq impl neigh rows_par
                    = chunks ≫= fun c => T (start c) (stop c)).
    { unfold T, traversal_triplets, rows_par. apply list_bind_assoc. }
    rewrite Hrows.
    destruct chunks as [|c chunks].
    { exfalso. destruct Hpart as (Hcat & _). cbn in Hcat.
      rewrite seqZ_cons in Hcat by lia. discriminate. }
    unfold py_sum. cbn [fmap list_fmap fold_left].
    assert (E : (fun c => coo_tocsr shape (T (start c) (stop c))) <$> chunks
                = coo_tocsr shape <$> ((fun c => T (start c) (stop c)) <$> chunks))
      by (rewrite <- list_fmap_compose; reflexivity).
    rewrite E. clear E.
    rewrite bind_cons in HT |- *.
    rewrite <- join_fmap_bind in HT |- *.
    apply py_sum_tocsr. exact HT. }
  rewrite Hsum. f_equal.
  apply (traversal_tocsr_ext to_seq impl neigh valid);
    [exact to_seq_inj | exact neigh_valid | exact neigh_NoDup
    | exact Hnd | apply rows_NoDup | exact Hvalid | exact Helem].
Qed.

End ParallelSum.

Lemma mapM_Some_fmap {A B} (f : A -> option B) (g : A -> B) (l : list A) :
  (forall x, x ∈ l -> f x = Some (g x)) -> mapM f l = Some (g <$> l).
Proof.
  induction l as [|x l IH]; intros Hf; [reflexivity|].
  cbn [mapM]. rewrite Hf by (apply elem_of_cons; auto).
  rewrite IH by (intros y Hy; apply Hf, elem_of_cons; auto). reflexivity.
Qed.

Section Parallel2D.
Context {F : Type} `{FloatOps F}.
Variable asm : Asm2D.Assembler F.
Hypothesis Hwf : wf2 (Asm2D.base asm).

Local Abbreviation b := (Asm2D.base asm).
Local Abbreviation n0 := (Asm2D.ndofs (Asm2D.base asm)).1.
Local Abbreviation n1 := (Asm2D.ndofs (Asm2D.base asm)).2.

Lemma neigh2_NoDup i : NoDup (neigh2 b i).
Proof. apply NoDup_box2. Qed.

Lemma generic_assemble_2d_whole fuel :
  (Z.to_nat (n0 * n1) < fuel)%nat ->
  Asm2D.generic_assemble_2d fuel asm (-1) (-1)
  = Some (coo_tocsr (n0 * n1, n0 * n1) (triplets2 asm (0, 0) (n0, n1))).
Proof.
  intros Hf. destruct Hwf as (Hn0 & Hn1 & _).
  apply (generic_assemble_2d_spec asm Hwf fuel (-1) (-1)); cbn; lia.
Qed.

Lemma generic_assemble_2d_chunk fuel c :
  (Z.to_nat (n0 * n1) < fuel)%nat ->
  0 <= start c -> start c < stop c <= n0 ->
  Asm2D.generic_assemble_2d fuel asm (start c) (stop c)
  = Some (coo_tocsr (n0 * n1, n0 * n1)
            (triplets2 asm (start c, 0) (stop c, n1))).
Proof.
  intros Hf Hs He.
  pose proof (generic_assemble_2d_spec asm Hwf fuel (start c) (stop c)) as Hspec.
  unfold Asm2D.dof_range in Hspec. cbn [fst snd] in Hspec.
  replace (start c >=? 0) with true in Hspec
    by (symmetry; rewrite Z.geb_leb; apply Z.leb_le; lia).
  replace (stop c >=? 0) with true in Hspec
    by (symmetry; rewrite Z.geb_leb; apply Z.leb_le; lia).
  apply Hspec; [lia | lia | exact Hf].
Qed.

Lemma generic_assemble_2d_parallel_spec fuel num_threads :
  (Z.to_nat (n0 * n1) < fuel)%nat ->
  Asm2D.generic_assemble_2d_parallel fuel num_threads asm
  = Some (inr (PyCsr (coo_tocsr (n0 * n1, n0 * n1)
                        (triplets2 asm (0, 0) (n0, n1))))).
Proof.
  intros Hf. assert (Hwf' := Hwf). destruct Hwf' as (Hn0 & Hn1 & _).
  unfold Asm2D.generic_assemble_2d_parallel.
  destruct (num_threads <=? 1) eqn:HW.
  - rewrite generic_assemble_2d_whole by exact Hf. reflexivity.
  - apply Z.leb_gt in HW.
    rewrite chunk_tasks_range by lia.
    pose proof (chunk_tasks_range_partitions n0 (4 * num_threads)
                  ltac:(lia) ltac:(lia)) as Hpart.
    set (chunks := map _ _) in *.
    unfold Asm2D.shared_clone.
    rewrite (mapM_Some_fmap _
               (fun c => coo_tocsr (n0 * n1, n0 * n1)
                           (triplets2 asm (start c, 0) (stop c, n1)))).
    2:{ intros c Hc. pose proof (partitions_chunk n0 chunks c Hpart Hc).
        apply generic_assemble_2d_chunk; [exact Hf | lia | lia]. }
    cbn [fmap option_fmap option_map]. do 2 f_equal.
    apply (parallel_sum (Asm2D.to_seq b) (Asm2D.assemble_impl asm) (neigh2 b)
             (valid2 b) (to_seq2_inj asm Hwf) (neigh2_valid asm Hwf)
             (fun i _ => neigh2_NoDup i)
             (fun s e => box2 (s, 0) (e, n1)) fst n0).
    + intros s e i Hs He. rewrite elem_of_box2. unfold valid2. cbn [fst snd]. lia.
    + intros s e. apply NoDup_box2.
    + lia.
    + exact Hpart.
Qed.

End Parallel2D.

(* ================================================================= *)
(** ** The 3D traversal *)

Section Box3.
Variables s e : Asm3D.Index.
Hypothesis Hs1 : 0 <= s.1.1 < e.1.1.
Hypothesis Hs2 : 0 <= s.1.2 < e.1.2.
Hypothesis Hs3 : 0 <= s.2 < e.2.
Hypothesis He1 : e.1.1 < 2 ^ 64.
Hypothesis He2 : e.1.2 < 2 ^ 64.
Hypothesis He3 : e.2 < 2 ^ 64.

Let next (c : Asm3D.Index) := Asm3D.next_lexicographic3 c s e.
Let row (c b : Z) : list Asm3D.Index :=
  (fun a => (a, b, c)) <$> seqZ s.1.1 (e.1.1 - s.1.1).
Let plane (c : Z) : list Asm3D.Index := seqZ s.1.2 (e.1.2 - s.1.2) ≫= row c.

Lemma next3_step c0 c1 c2 :
  0 <= c0 -> c0 + 1 < e.1.1 -> next (c0, c1, c2) = ((c0 + 1, c1, c2), true).
Proof.
  intros H0 H1. unfold next, Asm3D.next_lexicographic3. cbn [fst snd].
  rewrite wrap64_small by lia.
  destruct (c0 + 1 =? e.1.1) eqn:E; [apply Z.eqb_eq in E; lia | reflexivity].
Qed.

Lemma next3_carry1 c1 c2 :
  0 <= c1 -> c1 + 1 < e.1.2 ->
  next (e.1.1 - 1, c1, c2) = ((s.1.1, c1 + 1, c2), true).
Proof.
  intros H0 H1. unfold next, Asm3D.next_lexicographic3. cbn [fst snd].
  rewrite !wrap64_small by lia.
  replace (e.1.1 - 1 + 1) with e.1.1 by lia. rewrite Z.eqb_refl.
  destruct (c1 + 1 =? e.1.2) eqn:E; [apply Z.eqb_eq in E; lia | reflexivity].
Qed.

Lemma next3_carry2 c2 :
  0 <= c2 -> c2 + 1 < e.2 ->
  next (e.1.1 - 1, e.1.2 - 1, c2) = ((s.1.1, s.1.2, c2 + 1), true).
Proof.
  intros H0 H1. unfold next, Asm3D.next_lexicographic3. cbn [fst snd].
  rewrite !wrap64_small by lia.
  replace (e.1.1 - 1 + 1) with e.1.1 by lia.
  replace (e.1.2 - 1 + 1) with e.1.2 by lia. rewrite !Z.eqb_refl.
  destruct (c2 + 1 =? e.2) eqn:E; [apply Z.eqb_eq in E; lia | reflexivity].
Qed.

Lemma next3_stop : (next (e.1.1 - 1, e.1.2 - 1, e.2 - 1)).2 = false.
Proof.
  unfold next, Asm3D.next_lexicographic3. cbn [fst snd].
  rewrite !wrap64_small by lia.
  replace (e.1.1 - 1 + 1) with e.1.1 by lia.
  replace (e.1.2 - 1 + 1) with e.1.2 by lia.
  replace (e.2 - 1 + 1) with e.2 by lia.
  rewrite !Z.eqb_refl. reflexivity.
Qed.

Lemma chain3_row c1 c2 tail (n : nat) : forall c0,
  Z.to_nat (e.1.1 - c0 - 1) = n -> s.1.1 <= c0 < e.1.1 ->
  chain next (e.1.1 - 1, c1, c2) tail ->
  chain next (c0, c1, c2)
    (((fun a => (a, c1, c2)) <$> seqZ (c0 + 1) (e.1.1 - c0 - 1)) ++ tail).
Proof.
  induction n as [|n IH]; intros c0 Hn Hc0 Ht.
  - rewrite seqZ_nil by lia. replace c0 with (e.1.1 - 1) by lia. exact Ht.
  - rewrite seqZ_cons by lia. cbn [fmap list_fmap app chain]. split.
    + apply next3_step; lia.
    + replace (Z.succ (c0 + 1)) with (c0 + 1 + 1) by lia.
      replace (Z.pred (e.1.1 - c0 - 1)) with (e.1.1 - (c0 + 1) - 1) by lia.
      apply IH; [lia | lia | exact Ht].
Qed.

Lemma chain3_plane c2 tail (m : nat) : forall c1,
  Z.to_nat (e.1.2 - c1 - 1) = m -> s.1.2 <= c1 < e.1.2 ->
  chain next (e.1.1 - 1, e.1.2 - 1, c2) tail ->
  chain next (e.1.1 - 1, c1, c2)
    ((seqZ (c1 + 1) (e.1.2 - c1 - 1) ≫= row c2) ++ tail).
Proof.
  induction m as [|m IH]; intros c1 Hm Hc1 Ht.
  - rewrite seqZ_nil by lia. replace c1 with (e.1.2 - 1) by lia. exact Ht.
  - rewrite seqZ_cons by lia. rewrite bind_cons. unfold row at 1.
    rewrite (seqZ_cons s.1.1) by lia. cbn [fmap list_fmap app chain]. split.
    + apply next3_carry1; lia.
    + replace (Z.succ s.1.1) with (s.1.1 + 1) by lia.
      replace (Z.pred (e.1.1 - s.1.1)) with (e.1.1 - s.1.1 - 1) by lia.
      rewrite <- app_assoc.
      apply (chain3_row (c1 + 1) c2 _ (Z.to_nat (e.1.1 - s.1.1 - 1)));
        [reflexivity | lia |].
      replace (Z.succ (c1 + 1)) with (c1 + 1 + 1) by lia.
      replace (Z.pred (e.1.2 - c1 - 1)) with (e.1.2 - (c1 + 1) - 1) by lia.
      apply IH; [lia | lia | exact Ht].
Qed.

Lemma chain3_planes (k : nat) : forall c2,
  Z.to_nat (e.2 - c2 - 1) = k -> s.2 <= c2 < e.2 ->
  chain next (e.1.1 - 1, e.1.2 - 1, c2) (seqZ (c2 + 1) (e.2 - c2 - 1) ≫= plane).
Proof.
  induction k as [|k IH]; intros c2 Hk Hc2.
  - rewrite seqZ_nil by lia. replace c2 with (e.2 - 1) by lia. apply next3_stop.
  - rewrite seqZ_cons by lia. rewrite bind_cons. unfold plane at 1.
    rewrite (seqZ_cons s.1.2) by lia. rewrite bind_cons. unfold row at 1.
    rewrite (seqZ_cons s.1.1) by lia. cbn [fmap list_fmap app chain]. split.
    + apply next3_carry2; lia.
    + replace (Z.succ s.1.1) with (s.1.1 + 1) by lia.
      replace (Z.pred (e.1.1 - s.1.1)) with (e.1.1 - s.1.1 - 1) by lia.
      replace (Z.succ s.1.2) with (s.1.2 + 1) by lia.
      replace (Z.pred (e.1.2 - s.1.2)) with (e.1.2 - s.1.2 - 1) by lia.
      rewrite <- !app_assoc.
      apply (chain3_row s.1.2 (c2 + 1) _ (Z.to_nat (e.1.1 - s.1.1 - 1)));
        [reflexivity | lia |].
      apply (chain3_plane (c2 + 1) _ (Z.to_nat (e.1.2 - s.1.2 - 1)));
        [reflexivity | lia |].
      replace (Z.succ (c2 + 1)) with (c2 + 1 + 1) by lia.
      replace (Z.pred (e.2 - c2 - 1)) with (e.2 - (c2 + 1) - 1) by lia.
      apply IH; lia.
Qed.

(** From [s], [next_lexicographic3] runs through [box3 s e]. *)
Lemma chain_box3 :
  exists l, box3 s e = s :: l /\ chain next s l.
Proof.
  exists (((fun a => (a, s.1.2, s.2)) <$> seqZ (s.1.1 + 1) (e.1.1 - s.1.1 - 1))
          ++ (seqZ (s.1.2 + 1) (e.1.2 - s.1.2 - 1) ≫= row s.2)
          ++ (seqZ (s.2 + 1) (e.2 - s.2 - 1) ≫= plane)).
  split.
  - change (box3 s e) with (seqZ s.2 (e.2 - s.2) ≫= plane).
    rewrite (seqZ_cons s.2) by lia. rewrite bind_cons. unfold plane at 1.
    rewrite (seqZ_cons s.1.2) by lia. rewrite bind_cons. unfold row at 1.
    rewrite (seqZ_cons s.1.1) by lia. cbn [fmap list_fmap app].
    replace (Z.succ s.1.1) with (s.1.1 + 1) by lia.
    replace (Z.pred (e.1.1 - s.1.1)) with (e.1.1 - s.1.1 - 1) by lia.
    replace (Z.succ s.1.2) with (s.1.2 + 1) by lia.
    replace (Z.pred (e.1.2 - s.1.2)) with (e.1.2 - s.1.2 - 1) by lia.
    replace (Z.succ s.2) with (s.2 + 1) by lia.
    replace (Z.pred (e.2 - s.2)) with (e.2 - s.2 - 1) by lia.
    rewrite <- !app_assoc.
    rewrite <- (surjective_pairing s.1), <- (surjective_pairing s). reflexivity.
  - rewrite (surjective_pairing s) at 1. rewrite (surjective_pairing s.1) at 1.
    apply (chain3_row s.1.2 s.2 _ (Z.to_nat (e.1.1 - s.1.1 - 1)));
      [reflexivity | lia |].
    apply (chain3_plane s.2 _ (Z.to_nat (e.1.2 - s.1.2 - 1)));
      [reflexivity | lia |].
    apply (chain3_planes (Z.to_nat (e.2 - s.2 - 1))); [reflexivity | lia].
Qed.

End Box3.

Lemma elem_of_box3 s e (i : Asm3D.Index) :
  i ∈ box3 s e
  <-> s.1.1 <= i.1.1 < e.1.1 /\ s.1.2 <= i.1.2 < e.1.2 /\ s.2 <= i.2 < e.2.
Proof.
  unfold box3. rewrite list_elem_of_bind. split.
  - intros (c & Hi & Hc). apply list_elem_of_bind in Hi as (b & Hi & Hb).
    apply list_elem_of_fmap in Hi as (a & -> & Ha).
    apply elem_of_seqZ in Ha, Hb, Hc. cbn [fst snd]. lia.
  - intros (H1 & H2 & H3). exists i.2. split; [|apply elem_of_seqZ; lia].
    apply list_elem_of_bind. exists i.1.2. split; [|apply elem_of_seqZ; lia].
    apply list_elem_of_fmap. exists i.1.1.
    split; [destruct i as [[? ?] ?]; reflexivity | apply elem_of_seqZ; lia].
Qed.

Lemma NoDup_box3 s e : NoDup (box3 s e).
Proof.
  unfold box3. apply NoDup_bind.
  - intros c1 c2 i _ _ H1 H2.
    apply list_elem_of_bind in H1 as (b1 & H1 & _).
    apply list_elem_of_bind in H2 as (b2 & H2 & _).
    apply list_elem_of_fmap in H1 as (a1 & -> & _).
    apply list_elem_of_fmap in H2 as (a2 & [= _ _ ->] & _). reflexivity.
  - intros c _. apply NoDup_bind.
    + intros b1 b2 i _ _ H1 H2.
      apply list_elem_of_fmap in H1 as (a1 & -> & _).
      apply list_elem_of_fmap in H2 as (a2 & [= _ ->] & _). reflexivity.
    + intros b _. apply NoDup_fmap_2; [|apply NoDup_seqZ].
      intros a1 a2 [= ->]. reflexivity.
    + apply NoDup_seqZ.
  - apply NoDup_seqZ.
Qed.

Lemma length_box3 s e :
  0 <= e.1.1 - s.1.1 -> 0 <= e.1.2 - s.1.2 -> 0 <= e.2 - s.2 ->
  Z.of_nat (length (box3 s e))
  = (e.1.1 - s.1.1) * (e.1.2 - s.1.2) * (e.2 - s.2).
Proof.
  intros H1 H2 H3. unfold box3.
  assert (Hrow : forall (c : Z) (l : list Z),
            Z.of_nat (length (l ≫= fun b =>
                        (fun a => (a, b, c)) <$> seqZ s.1.1 (e.1.1 - s.1.1)))
            = (e.1.1 - s.1.1) * Z.of_nat (length l)).
  { intros c. induction l as [|b l IH];
      [change (Z.of_nat 0 = (e.1.1 - s.1.1) * Z.of_nat 0); lia|].
    rewrite bind_cons, length_app, length_fmap, length_seqZ.
    rewrite Nat2Z.inj_add, IH. cbn [length]. lia. }
  assert (Hpl : forall l : list Z,
            Z.of_nat (length (l ≫= fun c =>
                        seqZ s.1.2 (e.1.2 - s.1.2) ≫= fun b =>
                        (fun a => (a, b, c)) <$> seqZ s.1.1 (e.1.1 - s.1.1)))
            = (e.1.1 - s.1.1) * (e.1.2 - s.1.2) * Z.of_nat (length l)).
  { induction l as [|c l IH];
      [change (Z.of_nat 0 = (e.1.1 - s.1.1) * (e.1.2 - s.1.2) * Z.of_nat 0); lia|].
    rewrite bind_cons, length_app, Nat2Z.inj_add, IH, Hrow, length_seqZ.
    rewrite Z2Nat.id by lia. cbn [length]. lia. }
  rewrite Hpl, length_seqZ, Z2Nat.id by lia. reflexivity.
Qed.

Section Traverse3D.
Context {F : Type} `{FloatOps F}.
Variable asm : Asm3D.Assembler F.
Hypothesis Hwf : wf3 (Asm3D.base asm).

Local Abbreviation b := (Asm3D.base asm).
Local Abbreviation n0 := (Asm3D.ndofs (Asm3D.base asm)).1.1.
Local Abbreviation n1 := (Asm3D.ndofs (Asm3D.base asm)).1.2.
Local Abbreviation n2 := (Asm3D.ndofs (Asm3D.base asm)).2.

Lemma to_seq3_valid i :
  valid3 b i ->
  Asm3D.to_seq b i = (i.1.1 * n1 + i.1.2) * n2 + i.2
  /\ 0 <= i.1.1 * n1 + i.1.2 < n0 * n1
  /\ 0 <= (i.1.1 * n1 + i.1.2) * n2 + i.2 < n0 * n1 * n2.
Proof.
  intros (H0 & H1 & H2). destruct Hwf as (Hn0 & Hn1 & Hn2 & HN & _).
  assert (Hab : 0 <= i.1.1 * n1 + i.1.2 < n0 * n1) by nia.
  assert (0 <= (i.1.1 * n1 + i.1.2) * n2 + i.2 < n0 * n1 * n2) by nia.
  split; [|split; assumption]. unfold Asm3D.to_seq. apply wrap64_small. lia.
Qed.

Lemma to_seq3_inj i j :
  valid3 b i -> valid3 b j -> Asm3D.to_seq b i = Asm3D.to_seq b j -> i = j.
Proof.
  intros Hi Hj E.
  destruct (to_seq3_valid i Hi) as (Ei & Hi' & _).
  destruct (to_seq3_valid j Hj) as (Ej & Hj' & _).
  rewrite Ei, Ej in E. clear Ei Ej.
  destruct Hi as (Hi0 & Hi1 & Hi2), Hj as (Hj0 & Hj1 & Hj2).
  destruct i as [[i0 i1] i2], j as [[j0 j1] j2]. cbn [fst snd] in *.
  assert (Hab : i0 * n1 + i1 = j0 * n1 + j1) by nia.
  assert (i0 = j0) by nia. subst.
  assert (i1 = j1) by lia. subst. f_equal. lia.
Qed.

Lemma neigh_j3_bounds i :
  valid3 b i ->
  (0 <= (Asm3D.neigh_j b i).1.1.1 <= i.1.1
   /\ i.1.1 < (Asm3D.neigh_j b i).2.1.1 <= n0)
  /\ (0 <= (Asm3D.neigh_j b i).1.1.2 <= i.1.2
      /\ i.1.2 < (Asm3D.neigh_j b i).2.1.2 <= n1)
  /\ (0 <= (Asm3D.neigh_j b i).1.2 <= i.2
      /\ i.2 < (Asm3D.neigh_j b i).2.2 <= n2).
Proof.
  intros (H0 & H1 & H2). destruct Hwf as (_ & _ & _ & _ & Hl0 & Hl1 & Hl2).
  unfold Asm3D.neigh_j. cbn [fst snd].
  pose proof (find_joint_support_functions_contains (Asm3D.meshsupp b).1.1 i.1.1) as C0.
  pose proof (find_joint_support_functions_contains (Asm3D.meshsupp b).1.2 i.1.2) as C1.
  pose proof (find_joint_support_functions_contains (Asm3D.meshsupp b).2 i.2) as C2.
  pose proof (find_joint_support_functions_bounds (Asm3D.meshsupp b).1.1 i.1.1) as B0.
  pose proof (find_joint_support_functions_bounds (Asm3D.meshsupp b).1.2 i.1.2) as B1.
  pose proof (find_joint_support_functions_bounds (Asm3D.meshsupp b).2 i.2) as B2.
  cbv zeta in *. rewrite Hl0 in B0. rewrite Hl1 in B1. rewrite Hl2 in B2.
  specialize (B0 H0). specialize (B1 H1). specialize (B2 H2). lia.
Qed.

Lemma neigh3_valid i j : valid3 b i -> j ∈ neigh3 b i -> valid3 b j.
Proof.
  intros Hi Hj. apply elem_of_box3 in Hj.
  pose proof (neigh_j3_bounds i Hi). unfold valid3. lia.
Qed.

Lemma neigh3_NoDup i : NoDup (neigh3 b i).
Proof. apply NoDup_box3. Qed.

Lemma visit3_emit i j entries :
  Asm3D.visit asm i (Asm3D.to_seq b i) j entries
  = entries ++ emit (Asm3D.to_seq b) (Asm3D.assemble_impl asm) i j.
Proof.
  unfold Asm3D.visit, emit.
  destruct (Asm3D.to_seq b j >=? Asm3D.to_seq b i); [|symmetry; apply app_nil_r].
  destruct (negb (Asm3D.to_seq b i =? Asm3D.to_seq b j)).
  - rewrite <- app_assoc. reflexivity.
  - reflexivity.
Qed.

Lemma loop_j3_spec fuel i entries :
  valid3 b i -> (Z.to_nat (n0 * n1 * n2) < fuel)%nat ->
  Asm3D.loop_j fuel asm i entries
  = Some (entries
          ++ row_triplets (Asm3D.to_seq b) (Asm3D.assemble_impl asm) (neigh3 b) i).
Proof.
  intros Hi Hf. pose proof (neigh_j3_bounds i Hi) as Hb.
  destruct Hwf as (Hn0 & Hn1 & Hn2 & HN & _).
  unfold Asm3D.loop_j, row_triplets, neigh3.
  destruct (Asm3D.neigh_j b i) as [ns ne] eqn:En. cbn [fst snd] in *.
  assert (Hn01 : n0 * n1 < 2 ^ 64) by nia.
  destruct (chain_box3 ns ne) as (l & Hbox & Hchain);
    [lia | lia | lia | nia | nia | nia |].
  assert (Hlen : (length l < fuel)%nat).
  { pose proof (length_box3 ns ne ltac:(lia) ltac:(lia) ltac:(lia)) as Hl.
    rewrite Hbox in Hl. cbn [length] in Hl.
    assert ((ne.1.1 - ns.1.1) * (ne.1.2 - ns.1.2) <= n0 * n1) by nia.
    assert ((ne.1.1 - ns.1.1) * (ne.1.2 - ns.1.2) * (ne.2 - ns.2)
            <= n0 * n1 * n2) by nia.
    lia. }
  etransitivity.
  { apply (do_while_chain (fun c => Asm3D.next_lexicographic3 c ns ne)
             (fun j a => Some (Asm3D.visit asm i (Asm3D.to_seq b i) j a))
             l ns fuel entries Hchain Hlen). }
  rewrite fold_bind_Some. f_equal. rewrite Hbox.
  apply fold_left_app_bind. intros j a. apply visit3_emit.
Qed.

Lemma generic_assemble_3d_spec fuel chunk_start chunk_end :
  let s := (Asm3D.dof_range b chunk_start chunk_end).1 in
  let e := (Asm3D.dof_range b chunk_start chunk_end).2 in
  0 <= s.1.1 < e.1.1 -> e.1.1 <= n0 ->
  (Z.to_nat (n0 * n1 * n2) < fuel)%nat ->
  Asm3D.generic_assemble_3d fuel asm chunk_start chunk_end
  = Some (coo_tocsr (n0 * n1 * n2, n0 * n1 * n2) (triplets3 asm s e)).
Proof.
  intros s e Hs He Hf.
  assert (Hwf' := Hwf). destruct Hwf' as (Hn0 & Hn1 & Hn2 & HN & _).
  unfold Asm3D.generic_assemble_3d.
  rewrite (surjective_pairing (Asm3D.dof_range b chunk_start chunk_end)).
  fold s e.
  assert (Hs2 : s.1.2 = 0) by reflexivity.
  assert (He2 : e.1.2 = n1) by reflexivity.
  assert (Hs3 : s.2 = 0) by reflexivity.
  assert (He3 : e.2 = n2) by reflexivity.
  assert (Hn01 : n0 * n1 < 2 ^ 64) by nia.
  destruct (chain_box3 s e) as (l & Hbox & Hchain);
    [lia | lia | lia | nia | nia | nia |].
  assert (Hlen : (length l < fuel)%nat).
  { pose proof (length_box3 s e ltac:(lia) ltac:(lia) ltac:(lia)) as Hl.
    rewrite Hbox in Hl. cbn [length] in Hl.
    assert ((e.1.1 - s.1.1) * (e.1.2 - s.1.2) <= n0 * n1) by nia.
    assert ((e.1.1 - s.1.1) * (e.1.2 - s.1.2) * (e.2 - s.2)
            <= n0 * n1 * n2) by nia.
    lia. }
  pose proof (do_while_chain (fun c => Asm3D.next_lexicographic3 c s e)
                (fun i a => Asm3D.loop_j fuel asm i a) l s fuel [] Hchain Hlen)
    as Hloop.
  rewrite (fold_bind_rows _
             (row_triplets (Asm3D.to_seq b) (Asm3D.assemble_impl asm) (neigh3 b)))
    in Hloop.
  2:{ intros i a Hi. apply loop_j3_spec; [|exact Hf].
      rewrite <- Hbox in Hi. apply elem_of_box3 in Hi. unfold valid3. lia. }
  rewrite <- Hbox in Hloop. cbn [app] in Hloop.
  destruct (do_while fuel _ (s, [])) as [[i' entries]|]; [|discriminate].
  cbn in Hloop. injection Hloop as ->.
  rewrite wrap64_small by lia. reflexivity.
Qed.

Lemma generic_assemble_3d_whole fuel :
  (Z.to_nat (n0 * n1 * n2) < fuel)%nat ->
  Asm3D.generic_assemble_3d fuel asm (-1) (-1)
  = Some (coo_tocsr (n0 * n1 * n2, n0 * n1 * n2)
            (triplets3 asm (0, 0, 0) (n0, n1, n2))).
Proof.
  intros Hf. destruct Hwf as (Hn0 & Hn1 & _).
  apply (generic_assemble_3d_spec fuel (-1) (-1)); cbn; lia.
Qed.

Lemma generic_assemble_3d_chunk fuel c :
  (Z.to_nat (n0 * n1 * n2) < fuel)%nat ->
  0 <= start c -> start c < stop c <= n0 ->
  Asm3D.generic_assemble_3d fuel asm (start c) (stop c)
  = Some (coo_tocsr (n0 * n1 * n2, n0 * n1 * n2)
            (triplets3 asm (start c, 0, 0) (stop c, n1, n2))).
Proof.
  intros Hf Hs He.
  pose proof (generic_assemble_3d_spec fuel (start c) (stop c)) as Hspec.
  unfold Asm3D.dof_range in Hspec. cbn [fst snd] in Hspec.
  replace (start c >=? 0) with true in Hspec
    by (symmetry; rewrite Z.geb_leb; apply Z.leb_le; lia).
  replace (stop c >=? 0) with true in Hspec
    by (symmetry; rewrite Z.geb_leb; apply Z.leb_le; lia).
  apply Hspec; [lia | lia | exact Hf].
Qed.

Lemma generic_assemble_3d_parallel_spec fuel num_threads :
  (Z.to_nat (n0 * n1 * n2) < fuel)%nat ->
  Asm3D.generic_assemble_3d_parallel fuel num_threads asm
  = Some (inr (PyCsr (coo_tocsr (n0 * n1 * n2, n0 * n1 * n2)
                        (triplets3 asm (0, 0, 0) (n0, n1, n2))))).
Proof.
  intros Hf. assert (Hwf' := Hwf). destruct Hwf' as (Hn0 & Hn1 & Hn2 & _).
  unfold Asm3D.generic_assemble_3d_parallel.
  destruct (num_threads <=? 1) eqn:HW.
  - rewrite generic_assemble_3d_whole by exact Hf. reflexivity.
  - apply Z.leb_gt in HW.
    rewrite chunk_tasks_range by lia.
    pose proof (chunk_tasks_range_partitions n0 (4 * num_threads)
                  ltac:(lia) ltac:(lia)) as Hpart.
    set (chunks := map _ _) in *.
    unfold Asm3D.shared_clone.
    rewrite (mapM_Some_fmap _
               (fun c => coo_tocsr (n0 * n1 * n2, n0 * n1 * n2)
                           (triplets3 asm (start c, 0, 0) (stop c, n1, n2)))).
    2:{ intros c Hc. pose proof (partitions_chunk n0 chunks c Hpart Hc).
        apply generic_assemble_3d_chunk; [exact Hf | lia | lia]. }
    cbn [fmap option_fmap option_map]. do 2 f_equal.
    apply (parallel_sum (Asm3D.to_seq b) (Asm3D.assemble_impl asm) (neigh3 b)
             (valid3 b) to_seq3_inj neigh3_valid (fun i _ => neigh3_NoDup i)
             (fun s e => box3 (s, 0, 0) (e, n1, n2)) (fun i => i.1.1) n0).
    + intros s e i Hs He. rewrite elem_of_box3. unfold valid3. cbn [fst snd]. lia.
    + intros s e. apply NoDup_box3.
    + lia.
    + exact Hpart.
Qed.

End Traverse3D.

(* ================================================================= *)
(** ** SparsityTraversal and ParallelDriver: the claims *)

(** C2, amended: on a well-formed assembler and a non-empty range of
    axis-0 rows, [generic_assemble] ends; for every row [i] of the range
    crossed with the full ranges of the other axes, in the order of
    [next_lexicographic], it visits the [j] of the per-axis neighbour
    ranges only, evaluates [assemble_impl(i,j)] exactly when [jj >= ii],
    emits [(ii, jj, entry)] and, when [ii != jj], [(jj, ii, entry)], and
    accumulates the triplets into a matrix of shape [(N,N)].  The stored
    entries are exactly these values: at [(ii, jj)] and [(jj, ii)] for a
    traversed [i] and a neighbour [j] with [jj >= ii]. *)
Theorem generic_assemble_triplets {F} `{FloatOps F} :
  (forall (asm : Asm2D.Assembler F) chunk_start chunk_end fuel,
     let b := Asm2D.base asm in
     let N := (Asm2D.ndofs b).1 * (Asm2D.ndofs b).2 in
     let s := (Asm2D.dof_range b chunk_start chunk_end).1 in
     let e := (Asm2D.dof_range b chunk_start chunk_end).2 in
     wf2 b -> 0 <= s.1 < e.1 -> e.1 <= (Asm2D.ndofs b).1 ->
     (Z.to_nat N < fuel)%nat ->
     exists M,
       Asm2D.generic_assemble_2d fuel asm chunk_start chunk_end = Some M
       /\ M = coo_tocsr (N, N)
                (traversal_triplets (Asm2D.to_seq b) (Asm2D.assemble_impl asm)
                   (neigh2 b) (box2 s e))
       /\ forall r c v,
            sm_data M !! (r, c) = Some v
            <-> exists i j,
                  i ∈ box2 s e /\ j ∈ neigh2 b i
                  /\ Asm2D.to_seq b i <= Asm2D.to_seq b j
                  /\ v = Asm2D.assemble_impl asm i j
                  /\ ((r, c) = (Asm2D.to_seq b i, Asm2D.to_seq b j)
                      \/ (r, c) = (Asm2D.to_seq b j, Asm2D.to_seq b i)))
  /\ (forall (asm : Asm3D.Assembler F) chunk_start chunk_end fuel,
        let b := Asm3D.base asm in
        let N := (Asm3D.ndofs b).1.1 * (Asm3D.ndofs b).1.2 * (Asm3D.ndofs b).2 in
        let s := (Asm3D.dof_range b chunk_start chunk_end).1 in
        let e := (Asm3D.dof_range b chunk_start chunk_end).2 in
        wf3 b -> 0 <= s.1.1 < e.1.1 -> e.1.1 <= (Asm3D.ndofs b).1.1 ->
        (Z.to_nat N < fuel)%nat ->
        exists M,
          Asm3D.generic_assemble_3d fuel asm chunk_start chunk_end = Some M
          /\ M = coo_tocsr (N, N)
                   (traversal_triplets (Asm3D.to_seq b) (Asm3D.assemble_impl asm)
                      (neigh3 b) (box3 s e))
          /\ forall r c v,
               sm_data M !! (r, c) = Some v
               <-> exists i j,
                     i ∈ box3 s e /\ j ∈ neigh3 b i
                     /\ Asm3D.to_seq b i <= Asm3D.to_seq b j
                     /\ v = Asm3D.assemble_impl asm i j
                     /\ ((r, c) = (Asm3D.to_seq b i, Asm3D.to_seq b j)
                         \/ (r, c) = (Asm3D.to_seq b j, Asm3D.to_seq b i))).
Proof.
  split.
  - intros asm cs ce fuel b N s e Hwf Hs He Hf.
    eexists. split; [apply (generic_assemble_2d_spec asm Hwf fuel cs ce Hs He Hf)|].
    split; [reflexivity|]. intros r c v.
    apply (traversal_lookup (Asm2D.to_seq b) (Asm2D.assemble_impl asm) (neigh2 b)
             (valid2 b) (to_seq2_inj asm Hwf) (neigh2_valid asm Hwf)
             (fun i _ => neigh2_NoDup asm i)).
    + apply NoDup_box2.
    + apply Forall_forall. intros i Hi. apply elem_of_box2 in Hi.
      destruct Hwf as (Hn0 & Hn1 & _). unfold valid2.
      assert (s.2 = 0) by reflexivity.
      assert (e.2 = (Asm2D.ndofs b).2) by reflexivity. lia.
  - intros asm cs ce fuel b N s e Hwf Hs He Hf.
    eexists. split; [apply (generic_assemble_3d_spec asm Hwf fuel cs ce Hs He Hf)|].
    split; [reflexivity|]. intros r c v.
    apply (traversal_lookup (Asm3D.to_seq b) (Asm3D.assemble_impl asm) (neigh3 b)
             (valid3 b) (to_seq3_inj asm Hwf) (neigh3_valid asm Hwf)
             (fun i _ => neigh3_NoDup asm i)).
    + apply NoDup_box3.
    + apply Forall_forall. intros i Hi. apply elem_of_box3 in Hi.
      destruct Hwf as (Hn0 & Hn1 & Hn2 & _). unfold valid3.
      assert (s.1.2 = 0) by reflexivity.
      assert (e.1.2 = (Asm3D.ndofs b).1.2) by reflexivity.
      assert (s.2 = 0) by reflexivity.
      assert (e.2 = (Asm3D.ndofs b).2) by reflexivity. lia.
Qed.


Lemma unit_square_wf : wf2 UnitSquare.base_data.
Proof. unfold wf2. cbn. repeat split; lia. Qed.

Lemma generic_assemble_triplets_witness :
  let asm := Asm2D.MassAssembler2D_asm UnitSquare.mass in
  let b := UnitSquare.base_data in
  exists M,
    Asm2D.generic_assemble_2d 10 asm 1 2 = Some M
    /\ M = coo_tocsr (9, 9)
             (traversal_triplets (Asm2D.to_seq b) (Asm2D.assemble_impl asm)
                (neigh2 b) (box2 (1, 0) (2, 3)))
    /\ forall r c v,
         sm_data M !! (r, c) = Some v
         <-> exists i j,
               i ∈ box2 (1, 0) (2, 3) /\ j ∈ neigh2 b i
               /\ Asm2D.to_seq b i <= Asm2D.to_seq b j
               /\ v = Asm2D.assemble_impl asm i j
               /\ ((r, c) = (Asm2D.to_seq b i, Asm2D.to_seq b j)
                   \/ (r, c) = (Asm2D.to_seq b j, Asm2D.to_seq b i)).
Proof.
  apply (proj1 (@generic_assemble_triplets PrimFloat.float binary64)
           (Asm2D.MassAssembler2D_asm UnitSquare.mass) 1 2 10%nat).
  - exact unit_square_wf.
  - cbn. lia.
  - cbn. lia.
  - cbn. lia.
Defined.

(** C2 as stated fails in its last clause.  On the unit square, the
    traversal of the chunk [[1, 2)] of axis 0 visits the row of linear
    index 3, and [assemble_impl] is not zero between the dofs 3 and 0, but
    the matrix has no entry at (3, 0): a column left of the diagonal is
    filled only by the mirror of another traversed row.  In the traversal
    of the whole range the entry at (5, 2) is the mirrored value
    [assemble_impl] of (2, 5), which in double precision is not
    [assemble_impl] of (5, 2). *)
Lemma chunk_matrix_not_dense_rows :
  let asm := Asm2D.MassAssembler2D_asm UnitSquare.mass in
  let b := UnitSquare.base_data in
  ((1, 0) ∈ box2 (1, 0) (2, 3)
   /\ Asm2D.to_seq b (1, 0) = 3 /\ Asm2D.to_seq b (0, 0) = 0
   /\ PrimFloat.eqb (Asm2D.assemble_impl asm (1, 0) (0, 0)) 0%float = false
   /\ exists M, Asm2D.generic_assemble_2d 10 asm 1 2 = Some M
                /\ sm_data M !! (3, 0) = None)
  /\ (Asm2D.to_seq b (1, 2) = 5 /\ Asm2D.to_seq b (0, 2) = 2
      /\ Asm2D.assemble_impl asm (1, 2) (0, 2)
         <> Asm2D.assemble_impl asm (0, 2) (1, 2)
      /\ exists M, Asm2D.generic_assemble_2d 10 asm (-1) (-1) = Some M
                   /\ sm_data M !! (5, 2)
                      = Some (Asm2D.assemble_impl asm (0, 2) (1, 2))).
Proof.
  intros asm b. split; [split; [|split; [|split; [|split]]]
                       | split; [|split; [|split]]].
  - apply elem_of_box2. cbn. lia.
  - reflexivity.
  - reflexivity.
  - vm_compute. reflexivity.
  - eexists. split; vm_compute; reflexivity.
  - reflexivity.
  - reflexivity.
  - intros E.
    apply (f_equal (fun x => PrimFloat.eqb x
             (Asm2D.assemble_impl asm (0, 2) (1, 2)))) in E.
    vm_compute in E. discriminate.
  - eexists. split; vm_compute; reflexivity.
Qed.


(* ################################################################# *)
(** * Further properties of the code *)

(* ----------------------------------------------------------------- *)
(** *** Linear and multi-indices *)

(** X1: in 2D, [from_seq] undoes [to_seq] on every multi-index within the
    dof counts, and [to_seq] undoes [from_seq] on every linear index below
    [N = ndofs[0] * ndofs[1]], whose multi-index lies within the dof
    counts. *)
Theorem seq_round_trip_2d (b : Asm2D.BaseAssembler2D) :
  0 < (Asm2D.ndofs b).2 ->
  (Asm2D.ndofs b).1 * (Asm2D.ndofs b).2 <= 2 ^ 64 ->
  (forall i, valid2 b i -> Asm2D.from_seq b (Asm2D.to_seq b i) = i)
  /\ (forall n, 0 <= n < (Asm2D.ndofs b).1 * (Asm2D.ndofs b).2 ->
        valid2 b (Asm2D.from_seq b n)
        /\ Asm2D.to_seq b (Asm2D.from_seq b n) = n).
Proof.
  destruct b as [q [n0 n1] ms]. cbn [Asm2D.ndofs fst snd]. intros Hn1 HN.
  split.
  - intros [i0 i1] [H0 H1]. cbn [Asm2D.ndofs fst snd] in H0, H1.
    unfold Asm2D.to_seq, Asm2D.from_seq. cbn [Asm2D.ndofs fst snd].
    rewrite wrap64_small by nia.
    f_equal.
    + symmetry. apply (Z.div_unique_pos _ _ i0 i1); lia.
    + symmetry. apply (Z.mod_unique_pos _ _ i0 i1); lia.
  - intros n Hn.
    pose proof (Z.div_mod n n1 ltac:(lia)) as Hdm.
    pose proof (Z.mod_pos_bound n n1 Hn1) as Hm.
    assert (0 <= n / n1 < n0) as Hq.
    { split; [apply Z.div_pos; lia|].
      apply Z.div_lt_upper_bound; lia. }
    split.
    + split; cbn [Asm2D.from_seq Asm2D.ndofs fst snd]; lia.
    + unfold Asm2D.to_seq, Asm2D.from_seq. cbn [Asm2D.ndofs fst snd].
      rewrite wrap64_small by lia. lia.
Qed.

Lemma seq_round_trip_2d_witness :
  (forall i, valid2 UnitSquare.base_data i ->
     Asm2D.from_seq UnitSquare.base_data (Asm2D.to_seq UnitSquare.base_data i) = i)
  /\ (forall n, 0 <= n < 3 * 3 ->
        valid2 UnitSquare.base_data (Asm2D.from_seq UnitSquare.base_data n)
        /\ Asm2D.to_seq UnitSquare.base_data
             (Asm2D.from_seq UnitSquare.base_data n) = n).
Proof.
  apply (seq_round_trip_2d UnitSquare.base_data); simpl; lia.
Defined.

(** X2: in 3D, [from_seq] undoes [to_seq] on every multi-index within the
    dof counts and [to_seq] undoes [from_seq] on every linear index below
    [N = ndofs[0] * ndofs[1] * ndofs[2]]; the free function [from_seq3]
    raises nothing for positive dof counts and returns what the method
    [from_seq] returns. *)
Theorem seq_round_trip_3d (b : Asm3D.BaseAssembler3D) :
  0 < (Asm3D.ndofs b).1.2 -> 0 < (Asm3D.ndofs b).2 ->
  (Asm3D.ndofs b).1.1 * (Asm3D.ndofs b).1.2 * (Asm3D.ndofs b).2 <= 2 ^ 64 ->
  (forall i, valid3 b i -> Asm3D.from_seq b (Asm3D.to_seq b i) = i)
  /\ (forall n,
        0 <= n < (Asm3D.ndofs b).1.1 * (Asm3D.ndofs b).1.2 * (Asm3D.ndofs b).2 ->
        valid3 b (Asm3D.from_seq b n)
        /\ Asm3D.to_seq b (Asm3D.from_seq b n) = n)
  /\ (forall n, from_seq3 n (Asm3D.ndofs b) = Some (Asm3D.from_seq b n)).
Proof.
  destruct b as [q [[n0 n1] n2] ms]. cbn [Asm3D.ndofs fst snd].
  intros Hn1 Hn2 HN.
  split; [|split].
  - intros [[i0 i1] i2] (H0 & H1 & H2). cbn [Asm3D.ndofs fst snd] in H0, H1, H2.
    unfold Asm3D.to_seq, Asm3D.from_seq. cbn [Asm3D.ndofs fst snd].
    assert (0 <= i0 * n1 + i1 < n0 * n1) as Hp by nia.
    rewrite wrap64_small by nia.
    assert (((i0 * n1 + i1) * n2 + i2) / n2 = i0 * n1 + i1) as ->.
    { symmetry. apply (Z.div_unique_pos _ _ _ i2); lia. }
    f_equal; [f_equal|].
    + symmetry. apply (Z.div_unique_pos _ _ i0 i1); lia.
    + symmetry. apply (Z.mod_unique_pos _ _ i0 i1); lia.
    + symmetry. apply (Z.mod_unique_pos _ _ (i0 * n1 + i1) i2); lia.
  - intros n Hn.
    pose proof (Z.div_mod n n2 ltac:(lia)) as Hdm.
    pose proof (Z.mod_pos_bound n n2 Hn2) as Hm.
    assert (0 <= n / n2 < n0 * n1) as Hq.
    { split; [apply Z.div_pos; lia|].
      apply Z.div_lt_upper_bound; lia. }
    pose proof (Z.div_mod (n / n2) n1 ltac:(lia)) as Hdm'.
    pose proof (Z.mod_pos_bound (n / n2) n1 Hn1) as Hm'.
    assert (0 <= n / n2 / n1 < n0) as Hq'.
    { split; [apply Z.div_pos; lia|].
      apply Z.div_lt_upper_bound; lia. }
    split.
    + repeat split; cbn [Asm3D.from_seq Asm3D.ndofs fst snd]; lia.
    + unfold Asm3D.to_seq, Asm3D.from_seq. cbn [Asm3D.ndofs fst snd].
      replace (n / n2 / n1 * n1 + (n / n2) mod n1) with (n / n2) by lia.
      rewrite wrap64_small by lia. lia.
  - intros n. unfold from_seq3, Asm3D.from_seq. cbn [Asm3D.ndofs fst snd].
    destruct (Z.eqb_spec n2 0); [lia|].
    destruct (Z.eqb_spec n1 0); [lia|]. reflexivity.
Qed.

Lemma seq_round_trip_3d_witness :
  let b := Asm3D.mkBase 2 (2, 3, 4) ([], [], []) in
  (forall i, valid3 b i -> Asm3D.from_seq b (Asm3D.to_seq b i) = i)
  /\ (forall n, 0 <= n < 2 * 3 * 4 ->
        valid3 b (Asm3D.from_seq b n)
        /\ Asm3D.to_seq b (Asm3D.from_seq b n) = n)
  /\ (forall n, from_seq3 n (2, 3, 4) = Some (Asm3D.from_seq b n)).
Proof.
  apply (seq_round_trip_3d (Asm3D.mkBase 2 (2, 3, 4) ([], [], [])));
    simpl; lia.
Defined.

(* ----------------------------------------------------------------- *)
(** *** The iterators [next_lexicographic2] and [next_lexicographic3] *)

Lemma bind_singleton {A} (l : list A) : l ≫= (fun i => [i]) = l.
Proof. induction l as [|x l IH]; [reflexivity|]. cbn. now rewrite IH. Qed.

Lemma do_while_collect {I} (next : I -> I * bool) l x fuel :
  chain next x l -> (length l < fuel)%nat ->
  snd <$> do_while fuel
            (fun '(cur, seen) =>
               let '(c, more) := next cur in Some ((c, seen ++ [cur]), more))
            (x, [])
  = Some (x :: l).
Proof.
  intros Hc Hf.
  pose proof (do_while_chain next (fun i a => Some (a ++ [i])) l x fuel []
                Hc Hf) as E.
  cbv beta iota in E. rewrite E.
  rewrite (fold_bind_Some (fun i a => a ++ [i])).
  rewrite (fold_left_app_bind (fun i a => a ++ [i]) (fun i => [i]))
    by reflexivity.
  now rewrite bind_singleton.
Qed.

(** X3: started at [start] with [start < end] on both axes, the loop
    [while True: ...; if not next_lexicographic2(cur, start, end): break]
    stops, and it visits every multi-index of the box [[start, end)] once,
    the first component running fastest: as many as the box has points. *)
Theorem next_lexicographic2_visits_box s e fuel :
  0 <= s.1 < e.1 -> 0 <= s.2 < e.2 -> e.1 < 2 ^ 64 -> e.2 < 2 ^ 64 ->
  (e.1 - s.1) * (e.2 - s.2) <= Z.of_nat fuel ->
  visited2 fuel s e = Some (box2 s e)
  /\ NoDup (box2 s e)
  /\ (forall i, i ∈ box2 s e <-> s.1 <= i.1 < e.1 /\ s.2 <= i.2 < e.2)
  /\ Z.of_nat (length (box2 s e)) = (e.1 - s.1) * (e.2 - s.2).
Proof.
  intros Hs1 Hs2 He1 He2 Hf.
  pose proof (length_box2 s e ltac:(lia) ltac:(lia)) as Hlen.
  split; [|split; [apply NoDup_box2|split; [apply elem_of_box2|exact Hlen]]].
  destruct (chain_box2 s e Hs1 Hs2 He1 He2) as (l & Hbox & Hchain).
  rewrite Hbox in Hlen |- *. cbn [length] in Hlen.
  apply do_while_collect; [exact Hchain|lia].
Qed.

Lemma next_lexicographic2_visits_box_witness :
  visited2 6 (1, 0) (3, 3) = Some (box2 (1, 0) (3, 3))
  /\ NoDup (box2 (1, 0) (3, 3))
  /\ (forall i, i ∈ box2 (1, 0) (3, 3) <-> 1 <= i.1 < 3 /\ 0 <= i.2 < 3)
  /\ Z.of_nat (length (box2 (1, 0) (3, 3))) = (3 - 1) * (3 - 0).
Proof.
  apply (next_lexicographic2_visits_box (1, 0) (3, 3) 6); simpl; lia.
Defined.

(** X4: the same for [next_lexicographic3]: the loop stops and visits
    every multi-index of the box once, the first component running
    fastest and the last slowest. *)
Theorem next_lexicographic3_visits_box s e fuel :
  0 <= s.1.1 < e.1.1 -> 0 <= s.1.2 < e.1.2 -> 0 <= s.2 < e.2 ->
  e.1.1 < 2 ^ 64 -> e.1.2 < 2 ^ 64 -> e.2 < 2 ^ 64 ->
  (e.1.1 - s.1.1) * (e.1.2 - s.1.2) * (e.2 - s.2) <= Z.of_nat fuel ->
  visited3 fuel s e = Some (box3 s e)
  /\ NoDup (box3 s e)
  /\ (forall i, i ∈ box3 s e
        <-> s.1.1 <= i.1.1 < e.1.1 /\ s.1.2 <= i.1.2 < e.1.2
            /\ s.2 <= i.2 < e.2)
  /\ Z.of_nat (length (box3 s e))
     = (e.1.1 - s.1.1) * (e.1.2 - s.1.2) * (e.2 - s.2).
Proof.
  intros Hs1 Hs2 Hs3 He1 He2 He3 Hf.
  pose proof (length_box3 s e ltac:(lia) ltac:(lia) ltac:(lia)) as Hlen.
  split; [|split; [apply NoDup_box3|split; [apply elem_of_box3|exact Hlen]]].
  destruct (chain_box3 s e Hs1 Hs2 Hs3 He1 He2 He3) as (l & Hbox & Hchain).
  rewrite Hbox in Hlen |- *. cbn [length] in Hlen.
  apply do_while_collect; [exact Hchain|lia].
Qed.

Lemma next_lexicographic3_visits_box_witness :
  visited3 8 (0, 1, 0) (2, 3, 2) = Some (box3 (0, 1, 0) (2, 3, 2))
  /\ NoDup (box3 (0, 1, 0) (2, 3, 2))
  /\ (forall i, i ∈ box3 (0, 1, 0) (2, 3, 2)
        <-> 0 <= i.1.1 < 2 /\ 1 <= i.1.2 < 3 /\ 0 <= i.2 < 2)
  /\ Z.of_nat (length (box3 (0, 1, 0) (2, 3, 2))) = (2 - 0) * (3 - 1) * (2 - 0).
Proof.
  apply (next_lexicographic3_visits_box (0, 1, 0) (2, 3, 2) 8); simpl; lia.
Defined.

(* ----------------------------------------------------------------- *)
(** *** The matrix of a traversal *)

Section Assembled2D.
Context {F : Type} `{FloatOps F}.
Variable asm : Asm2D.Assembler F.
Hypothesis Hwf : wf2 (Asm2D.base asm).

Local Abbreviation b := (Asm2D.base asm).
Local Abbreviation n0 := (Asm2D.ndofs (Asm2D.base asm)).1.
Local Abbreviation n1 := (Asm2D.ndofs (Asm2D.base asm)).2.

Lemma rows2_valid s e :
  0 <= s.1 -> e.1 <= n0 -> 0 <= s.2 -> e.2 <= n1 ->
  Forall (valid2 b) (box2 s e).
Proof.
  intros. apply Forall_forall. intros i Hi. apply elem_of_box2 in Hi.
  unfold valid2. lia.
Qed.

Lemma lookup_triplets2 shape s e r c v :
  0 <= s.1 -> e.1 <= n0 -> 0 <= s.2 -> e.2 <= n1 ->
  sm_data (coo_tocsr shape (triplets2 asm s e)) !! (r, c) = Some v
  <-> exists i j,
        i ∈ box2 s e /\ j ∈ neigh2 b i
        /\ Asm2D.to_seq b i <= Asm2D.to_seq b j
        /\ v = Asm2D.assemble_impl asm i j
        /\ ((r, c) = (Asm2D.to_seq b i, Asm2D.to_seq b j)
            \/ (r, c) = (Asm2D.to_seq b j, Asm2D.to_seq b i)).
Proof.
  intros. unfold triplets2.
  apply (traversal_lookup (Asm2D.to_seq b) (Asm2D.assemble_impl asm) (neigh2 b)
           (valid2 b) (to_seq2_inj asm Hwf) (neigh2_valid asm Hwf)
           (fun i _ => neigh2_NoDup asm i)).
  - apply NoDup_box2.
  - now apply rows2_valid.
Qed.

Lemma triplets2_symmetric shape s e :
  0 <= s.1 -> e.1 <= n0 -> 0 <= s.2 -> e.2 <= n1 ->
  sm_symmetric (coo_tocsr shape (triplets2 asm s e)).
Proof.
  intros Hs1 He1 Hs2 He2 r c. apply option_eq. intros v.
  rewrite !(lookup_triplets2 shape s e) by assumption.
  split; intros (i & j & Hi & Hj & Hle & Hv & Hrc);
    exists i, j; repeat split; try assumption;
    destruct Hrc as [E | E]; injection E as -> ->; auto.
Qed.

Lemma triplets2_in_shape shape s e r c v :
  0 <= s.1 -> e.1 <= n0 -> 0 <= s.2 -> e.2 <= n1 ->
  sm_data (coo_tocsr shape (triplets2 asm s e)) !! (r, c) = Some v ->
  0 <= r < n0 * n1 /\ 0 <= c < n0 * n1.
Proof.
  intros Hs1 He1 Hs2 He2 Hl.
  apply lookup_triplets2 in Hl; try assumption.
  destruct Hl as (i & j & Hi & Hj & _ & _ & Hrc).
  assert (valid2 b i) as Hvi.
  { eapply Forall_forall; [apply (rows2_valid s e)|exact Hi]; assumption. }
  pose proof (neigh2_valid asm Hwf i j Hvi Hj) as Hvj.
  destruct (to_seq2_valid asm Hwf i Hvi) as [Ei Hbi].
  destruct (to_seq2_valid asm Hwf j Hvj) as [Ej Hbj].
  destruct Hrc as [E | E]; injection E as -> ->; lia.
Qed.

Lemma triplets2_diagonal shape s e i :
  0 <= s.1 -> e.1 <= n0 -> 0 <= s.2 -> e.2 <= n1 ->
  i ∈ box2 s e ->
  sm_data (coo_tocsr shape (triplets2 asm s e))
    !! (Asm2D.to_seq b i, Asm2D.to_seq b i)
  = Some (Asm2D.assemble_impl asm i i).
Proof.
  intros Hs1 He1 Hs2 He2 Hi.
  apply lookup_triplets2; try assumption.
  exists i, i. repeat split; auto; try lia.
  unfold neigh2. apply elem_of_box2.
  pose proof (find_joint_support_functions_contains (Asm2D.meshsupp b).1 i.1).
  pose proof (find_joint_support_functions_contains (Asm2D.meshsupp b).2 i.2).
  unfold Asm2D.neigh_j. cbn [fst snd]. cbv zeta in *. lia.
Qed.

End Assembled2D.

(** X5: the matrix returned by [generic_assemble_2d], for the whole range
    or for a chunk of it, has shape [(N, N)], stores entries only at
    coordinates inside that shape, stores the diagonal entry of every
    traversed row, and is exactly symmetric: the entries at [(r, c)] and
    [(c, r)] are stored together and hold the same double. *)
Theorem generic_assemble_2d_symmetric {F} `{FloatOps F}
    (asm : Asm2D.Assembler F) chunk_start chunk_end fuel :
  let b := Asm2D.base asm in
  let N := (Asm2D.ndofs b).1 * (Asm2D.ndofs b).2 in
  let s := (Asm2D.dof_range b chunk_start chunk_end).1 in
  let e := (Asm2D.dof_range b chunk_start chunk_end).2 in
  wf2 b -> 0 <= s.1 < e.1 -> e.1 <= (Asm2D.ndofs b).1 ->
  (Z.to_nat N < fuel)%nat ->
  exists M,
    Asm2D.generic_assemble_2d fuel asm chunk_start chunk_end = Some M
    /\ sm_shape M = (N, N)
    /\ sm_symmetric M
    /\ (forall r c v, sm_data M !! (r, c) = Some v -> 0 <= r < N /\ 0 <= c < N)
    /\ (forall i, i ∈ box2 s e ->
          sm_data M !! (Asm2D.to_seq b i, Asm2D.to_seq b i)
          = Some (Asm2D.assemble_impl asm i i)).
Proof.
  intros b N s e Hwf Hs He Hf. subst b N.
  assert (s.2 = 0) as Hs2 by reflexivity.
  assert (e.2 = (Asm2D.ndofs (Asm2D.base asm)).2) as He2 by reflexivity.
  eexists. split; [apply (generic_assemble_2d_spec asm Hwf fuel _ _ Hs He Hf)|].
  split; [reflexivity|]. split; [|split].
  - apply (triplets2_symmetric asm Hwf _ s e); lia.
  - intros r c v. apply (triplets2_in_shape asm Hwf _ s e); lia.
  - intros i. apply (triplets2_diagonal asm Hwf _ s e); lia.
Qed.

Lemma generic_assemble_2d_symmetric_witness :
  let asm := Asm2D.MassAssembler2D_asm UnitSquare.mass in
  exists M,
    Asm2D.generic_assemble_2d 10 asm 1 3 = Some M
    /\ sm_shape M = (3 * 3, 3 * 3)
    /\ sm_symmetric M
    /\ (forall r c v,
          sm_data M !! (r, c) = Some v -> 0 <= r < 3 * 3 /\ 0 <= c < 3 * 3)
    /\ (forall i, i ∈ box2 (1, 0) (3, 3) ->
          sm_data M !! (Asm2D.to_seq UnitSquare.base_data i,
                        Asm2D.to_seq UnitSquare.base_data i)
          = Some (Asm2D.assemble_impl asm i i)).
Proof.
  apply (generic_assemble_2d_symmetric
           (Asm2D.MassAssembler2D_asm UnitSquare.mass) 1 3 10).
  - exact unit_square_wf.
  - simpl. lia.
  - simpl. lia.
  - simpl. lia.
Defined.

Section Assembled3D.
Context {F : Type} `{FloatOps F}.
Variable asm : Asm3D.Assembler F.
Hypothesis Hwf : wf3 (Asm3D.base asm).

Local Abbreviation b := (Asm3D.base asm).
Local Abbreviation n0 := (Asm3D.ndofs (Asm3D.base asm)).1.1.
Local Abbreviation n1 := (Asm3D.ndofs (Asm3D.base asm)).1.2.
Local Abbreviation n2 := (Asm3D.ndofs (Asm3D.base asm)).2.

Lemma rows3_valid s e :
  0 <= s.1.1 -> e.1.1 <= n0 -> 0 <= s.1.2 -> e.1.2 <= n1 ->
  0 <= s.2 -> e.2 <= n2 ->
  Forall (valid3 b) (box3 s e).
Proof.
  intros. apply Forall_forall. intros i Hi. apply elem_of_box3 in Hi.
  unfold valid3. lia.
Qed.

Lemma lookup_triplets3 shape s e r c v :
  0 <= s.1.1 -> e.1.1 <= n0 -> 0 <= s.1.2 -> e.1.2 <= n1 ->
  0 <= s.2 -> e.2 <= n2 ->
  sm_data (coo_tocsr shape (triplets3 asm s e)) !! (r, c) = Some v
  <-> exists i j,
        i ∈ box3 s e /\ j ∈ neigh3 b i
        /\ Asm3D.to_seq b i <= Asm3D.to_seq b j
        /\ v = Asm3D.assemble_impl asm i j
        /\ ((r, c) = (Asm3D.to_seq b i, Asm3D.to_seq b j)
            \/ (r, c) = (Asm3D.to_seq b j, Asm3D.to_seq b i)).
Proof.
  intros. unfold triplets3.
  apply (traversal_lookup (Asm3D.to_seq b) (Asm3D.assemble_impl asm) (neigh3 b)
           (valid3 b) (to_seq3_inj asm Hwf) (neigh3_valid asm Hwf)
           (fun i _ => neigh3_NoDup asm i)).
  - apply NoDup_box3.
  - now apply rows3_valid.
Qed.

Lemma triplets3_symmetric shape s e :
  0 <= s.1.1 -> e.1.1 <= n0 -> 0 <= s.1.2 -> e.1.2 <= n1 ->
  0 <= s.2 -> e.2 <= n2 ->
  sm_symmetric (coo_tocsr shape (triplets3 asm s e)).
Proof.
  intros Hs1 He1 Hs2 He2 Hs3 He3 r c. apply option_eq. intros v.
  rewrite !(lookup_triplets3 shape s e) by assumption.
  split; intros (i & j & Hi & Hj & Hle & Hv & Hrc);
    exists i, j; repeat split; try assumption;
    destruct Hrc as [E | E]; injection E as -> ->; auto.
Qed.

Lemma triplets3_in_shape shape s e r c v :
  0 <= s.1.1 -> e.1.1 <= n0 -> 0 <= s.1.2 -> e.1.2 <= n1 ->
  0 <= s.2 -> e.2 <= n2 ->
  sm_data (coo_tocsr shape (triplets3 asm s e)) !! (r, c) = Some v ->
  0 <= r < n0 * n1 * n2 /\ 0 <= c < n0 * n1 * n2.
Proof.
  intros Hs1 He1 Hs2 He2 Hs3 He3 Hl.
  apply lookup_triplets3 in Hl; try assumption.
  destruct Hl as (i & j & Hi & Hj & _ & _ & Hrc).
  assert (valid3 b i) as Hvi.
  { eapply Forall_forall; [apply (rows3_valid s e)|exact Hi]; assumption. }
  pose proof (neigh3_valid asm Hwf i j Hvi Hj) as Hvj.
  destruct (to_seq3_valid asm Hwf i Hvi) as (Ei & _ & Hbi).
  destruct (to_seq3_valid asm Hwf j Hvj) as (Ej & _ & Hbj).
  destruct Hrc as [E | E]; injection E as -> ->; lia.
Qed.

Lemma triplets3_diagonal shape s e i :
  0 <= s.1.1 -> e.1.1 <= n0 -> 0 <= s.1.2 -> e.1.2 <= n1 ->
  0 <= s.2 -> e.2 <= n2 ->
  i ∈ box3 s e ->
  sm_data (coo_tocsr shape (triplets3 asm s e))
    !! (Asm3D.to_seq b i, Asm3D.to_seq b i)
  = Some (Asm3D.assemble_impl asm i i).
Proof.
  intros Hs1 He1 Hs2 He2 Hs3 He3 Hi.
  apply lookup_triplets3; try assumption.
  exists i, i. repeat split; auto; try lia.
  unfold neigh3. apply elem_of_box3.
  pose proof (find_joint_support_functions_contains (Asm3D.meshsupp b).1.1 i.1.1).
  pose proof (find_joint_support_functions_contains (Asm3D.meshsupp b).1.2 i.1.2).
  pose proof (find_joint_support_functions_contains (Asm3D.meshsupp b).2 i.2).
  unfold Asm3D.neigh_j. cbn [fst snd]. cbv zeta in *. lia.
Qed.

End Assembled3D.

(** X6: the matrix returned by [generic_assemble_3d], for the whole range
    or for a chunk of it, has shape [(N, N)], stores entries only at
    coordinates inside that shape, stores the diagonal entry of every
    traversed row, and is exactly symmetric. *)
Theorem generic_assemble_3d_symmetric {F} `{FloatOps F}
    (asm : Asm3D.Assembler F) chunk_start chunk_end fuel :
  let b := Asm3D.base asm in
  let N := (Asm3D.ndofs b).1.1 * (Asm3D.ndofs b).1.2 * (Asm3D.ndofs b).2 in
  let s := (Asm3D.dof_range b chunk_start chunk_end).1 in
  let e := (Asm3D.dof_range b chunk_start chunk_end).2 in
  wf3 b -> 0 <= s.1.1 < e.1.1 -> e.1.1 <= (Asm3D.ndofs b).1.1 ->
  (Z.to_nat N < fuel)%nat ->
  exists M,
    Asm3D.generic_assemble_3d fuel asm chunk_start chunk_end = Some M
    /\ sm_shape M = (N, N)
    /\ sm_symmetric M
    /\ (forall r c v, sm_data M !! (r, c) = Some v -> 0 <= r < N /\ 0 <= c < N)
    /\ (forall i, i ∈ box3 s e ->
          sm_data M !! (Asm3D.to_seq b i, Asm3D.to_seq b i)
          = Some (Asm3D.assemble_impl asm i i)).
Proof.
  intros b N s e Hwf Hs He Hf. subst b N.
  assert (s.1.2 = 0) as Hs2 by reflexivity.
  assert (e.1.2 = (Asm3D.ndofs (Asm3D.base asm)).1.2) as He2 by reflexivity.
  assert (s.2 = 0) as Hs3 by reflexivity.
  assert (e.2 = (Asm3D.ndofs (Asm3D.base asm)).2) as He3 by reflexivity.
  eexists. split; [apply (generic_assemble_3d_spec asm Hwf fuel _ _ Hs He Hf)|].
  split; [reflexivity|]. split; [|split].
  - apply (triplets3_symmetric asm Hwf _ s e); lia.
  - intros r c v. apply (triplets3_in_shape asm Hwf _ s e); lia.
  - intros i. apply (triplets3_diagonal asm Hwf _ s e); lia.
Qed.

Lemma unit_box_wf : wf3 UnitBox.base_data.
Proof. unfold wf3. cbn. repeat split; lia. Qed.

Lemma generic_assemble_3d_symmetric_witness :
  let asm := Asm3D.MassAssembler3D_asm UnitBox.mass in
  exists M,
    Asm3D.generic_assemble_3d 5 asm (-1) (-1) = Some M
    /\ sm_shape M = (2 * 1 * 2, 2 * 1 * 2)
    /\ sm_symmetric M
    /\ (forall r c v,
          sm_data M !! (r, c) = Some v
          -> 0 <= r < 2 * 1 * 2 /\ 0 <= c < 2 * 1 * 2)
    /\ (forall i, i ∈ box3 (0, 0, 0) (2, 1, 2) ->
          sm_data M !! (Asm3D.to_seq UnitBox.base_data i,
                        Asm3D.to_seq UnitBox.base_data i)
          = Some (Asm3D.assemble_impl asm i i)).
Proof.
  apply (generic_assemble_3d_symmetric
           (Asm3D.MassAssembler3D_asm UnitBox.mass) (-1) (-1) 5).
  - exact unit_box_wf.
  - simpl. lia.
  - simpl. lia.
  - simpl. lia.
Defined.

(* ----------------------------------------------------------------- *)
(** *** Neighbour ranges in sorted tables *)

Lemma joint_support_overlaps meshsupp i j :
  sorted_table meshsupp ->
  0 <= i < Z.of_nat (length meshsupp) ->
  0 <= j < Z.of_nat (length meshsupp) ->
  (in_joint_support meshsupp i j <-> overlaps meshsupp j i = true).
Proof.
  intros (HL & HR & HN) Hi Hj. unfold in_joint_support.
  rewrite overlaps_iff. simpl.
  set (n := Z.of_nat (length meshsupp)) in *.
  pose proof (HN i Hi) as Hni. pose proof (HN j Hj) as Hnj.
  destruct (scan_down_spec meshsupp i (Z.to_nat (i + 1)) i i)
    as [[_ Hstop] | (Hlo & Hall & Hend)]; [lia | lia |].
  set (lo := scan_down (Z.to_nat (i + 1)) meshsupp i i i) in *.
  assert (lo <= j <-> supp0 meshsupp i < supp1 meshsupp j) as Hdown.
  { split.
    - intros Hl. destruct (decide (j <= i)) as [Hji|Hji].
      + apply Hall. lia.
      + pose proof (HR i j). lia.
    - intros Hij. destruct Hend as [-> | Hend]; [lia|].
      destruct (decide (lo <= j)); [assumption|].
      pose proof (HR j (lo - 1)). lia. }
  destruct (scan_up_spec meshsupp i n (Z.to_nat (n - (i + 1))) (i + 1) i)
    as [[Hup Hstop] | (Hhi & Hallu & Hendu)]; [lia | |].
  - rewrite Hup. split.
    + intros [Hl Hu]. apply Hdown in Hl. pose proof (HL j i). lia.
    + intros (_ & Hji & Hij & _). split; [now apply Hdown|].
      destruct (decide (j < i + 1)); [assumption|].
      destruct Hstop as [Hstop | Hstop]; [lia|].
      pose proof (HL (i + 1) j). lia.
  - set (hi := scan_up (Z.to_nat (n - (i + 1))) meshsupp n i (i + 1) i) in *.
    split.
    + intros [Hl Hu]. apply Hdown in Hl.
      destruct (decide (j <= i)).
      * pose proof (HL j i). lia.
      * pose proof (Hallu j). lia.
    + intros (_ & Hji & Hij & _). split; [now apply Hdown|].
      destruct (decide (j < hi + 1)); [assumption|].
      destruct Hendu as [Hendu | Hendu]; [lia|].
      pose proof (HL (hi + 1) j). lia.
Qed.

Lemma gauss_range_overlaps nqp meshsupp i j :
  gauss_range nqp meshsupp i j = None <-> overlaps meshsupp j i = false.
Proof.
  unfold gauss_range, overlaps, intersect_intervals. cbn [intv_a intv_b].
  destruct (Z.geb_spec (Z.max (intv_a (supp_intv meshsupp i))
                              (intv_a (supp_intv meshsupp j)))
                       (Z.min (intv_b (supp_intv meshsupp i))
                              (intv_b (supp_intv meshsupp j))));
    split; intros E; try discriminate; try reflexivity.
  - apply Z.ltb_ge. lia.
  - apply Z.ltb_ge in E. lia.
Qed.


Lemma uniform_table_is_sorted : sorted_table [(0, 2); (1, 3); (2, 4)].
Proof. exact uniform_table_sorted. Qed.


(* ----------------------------------------------------------------- *)
(** *** The assembled matrix against entry-wise assembly *)

Section Dense2D.
Context {F : Type} `{FloatOps F}.
Variable asm : Asm2D.Assembler F.
Hypothesis Hwf : wf2 (Asm2D.base asm).
Hypothesis Hzero : forall i j,
  valid2 (Asm2D.base asm) i -> valid2 (Asm2D.base asm) j ->
  j ∉ neigh2 (Asm2D.base asm) i -> Asm2D.assemble_impl asm i j = f0.

Local Abbreviation b := (Asm2D.base asm).
Local Abbreviation n0 := (Asm2D.ndofs (Asm2D.base asm)).1.
Local Abbreviation n1 := (Asm2D.ndofs (Asm2D.base asm)).2.
Local Abbreviation whole := (triplets2 asm (0, 0) (n0, n1)).

Lemma from_seq2_valid n :
  0 <= n < n0 * n1 ->
  valid2 b (Asm2D.from_seq b n) /\ Asm2D.to_seq b (Asm2D.from_seq b n) = n.
Proof.
  intros Hn. destruct Hwf as (Hn0 & Hn1 & HN & _).
  pose proof (Z.div_mod n n1 ltac:(lia)) as Hdm.
  pose proof (Z.mod_pos_bound n n1 ltac:(lia)) as Hm.
  assert (0 <= n / n1 < n0) as Hq.
  { split; [apply Z.div_pos; lia|]. apply Z.div_lt_upper_bound; lia. }
  split.
  - split; cbn [Asm2D.from_seq fst snd]; lia.
  - unfold Asm2D.to_seq, Asm2D.from_seq. cbn [fst snd].
    rewrite wrap64_small by lia. lia.
Qed.

Lemma whole2_rows i : i ∈ box2 (0, 0) (n0, n1) <-> valid2 b i.
Proof. rewrite elem_of_box2. unfold valid2. cbn [fst snd]. reflexivity. Qed.

Lemma whole2_upper shape r c :
  0 <= r -> r <= c -> c < n0 * n1 ->
  sm_get (coo_tocsr shape whole) r c = Asm2D.assemble asm r c.
Proof.
  intros Hr Hrc Hc.
  destruct (from_seq2_valid r ltac:(lia)) as [Hvi Ei].
  destruct (from_seq2_valid c ltac:(lia)) as [Hvj Ej].
  unfold Asm2D.assemble, sm_get.
  set (i := Asm2D.from_seq b r) in *. set (j := Asm2D.from_seq b c) in *.
  destruct (decide (j ∈ neigh2 b i)) as [Hin | Hout].
  - assert (sm_data (coo_tocsr shape whole) !! (r, c)
            = Some (Asm2D.assemble_impl asm i j)) as ->; [|reflexivity].
    apply (lookup_triplets2 asm Hwf); cbn [fst snd]; try lia.
    exists i, j. repeat split; try assumption; try lia.
    + now apply whole2_rows.
    + left. now rewrite Ei, Ej.
  - rewrite (Hzero i j Hvi Hvj Hout).
    destruct (sm_data (coo_tocsr shape whole) !! (r, c)) as [v|] eqn:E;
      [|reflexivity].
    exfalso. apply (lookup_triplets2 asm Hwf) in E; cbn [fst snd]; try lia.
    destruct E as (i' & j' & Hi' & Hj' & Hle & _ & Hpos).
    apply whole2_rows in Hi'.
    pose proof (neigh2_valid asm Hwf i' j' Hi' Hj') as Hvj'.
    destruct Hpos as [E | E]; injection E as Er Ec.
    + assert (i' = i) as -> by (apply (to_seq2_inj asm Hwf); congruence).
      assert (j' = j) as -> by (apply (to_seq2_inj asm Hwf); congruence).
      contradiction.
    + assert (j' = i) as -> by (apply (to_seq2_inj asm Hwf); congruence).
      assert (i' = j) as -> by (apply (to_seq2_inj asm Hwf); congruence).
      assert (i = j) as Eij by (apply (to_seq2_inj asm Hwf); try assumption; lia).
      rewrite Eij in Hj', Hout. contradiction.
Qed.

Lemma whole2_dense shape r c :
  0 <= r < n0 * n1 -> 0 <= c < n0 * n1 ->
  sm_get (coo_tocsr shape whole) r c
  = Asm2D.assemble asm (Z.min r c) (Z.max r c).
Proof.
  intros Hr Hc. destruct (decide (r <= c)) as [Hle | Hgt].
  - rewrite Z.min_l, Z.max_r by lia. apply whole2_upper; lia.
  - rewrite Z.min_r, Z.max_l by lia.
    unfold sm_get.
    rewrite (triplets2_symmetric asm Hwf shape (0, 0) (n0, n1))
      by (cbn [fst snd]; lia).
    apply whole2_upper; lia.
Qed.

End Dense2D.

Lemma neigh2_out_gauss b nqp i j :
  wf2 b -> sorted_table (Asm2D.meshsupp b).1 -> sorted_table (Asm2D.meshsupp b).2 ->
  valid2 b i -> valid2 b j -> j ∉ neigh2 b i ->
  gauss_range nqp (Asm2D.meshsupp b).1 i.1 j.1 = None
  \/ gauss_range nqp (Asm2D.meshsupp b).2 i.2 j.2 = None.
Proof.
  intros (_ & _ & _ & Hl0 & Hl1) Hs0 Hs1 [Hi0 Hi1] [Hj0 Hj1] Hout.
  assert (~ in_joint_support (Asm2D.meshsupp b).1 i.1 j.1
          \/ ~ in_joint_support (Asm2D.meshsupp b).2 i.2 j.2) as [Hn | Hn].
  { unfold neigh2 in Hout. rewrite elem_of_box2 in Hout.
    unfold Asm2D.neigh_j in Hout. cbn [fst snd] in Hout.
    unfold in_joint_support. lia. }
  - left. apply gauss_range_overlaps.
    rewrite joint_support_overlaps in Hn by (try assumption; lia).
    now destruct (overlaps _ _ _).
  - right. apply gauss_range_overlaps.
    rewrite joint_support_overlaps in Hn by (try assumption; lia).
    now destruct (overlaps _ _ _).
Qed.


Lemma unit_square_sorted : sorted_table UnitSquare.supports.
Proof.
  unfold sorted_table, left_sorted, right_sorted, supports_nonempty.
  simpl length.
  repeat split; intros j; intros;
    try (assert (Hk : k = 0 \/ k = 1 \/ k = 2) by lia);
    assert (Hj : j = 0 \/ j = 1 \/ j = 2) by lia;
    repeat match goal with H : _ \/ _ |- _ => destruct H end; subst;
    vm_compute; try discriminate; try reflexivity; lia.
Qed.


Section Dense3D.
Context {F : Type} `{FloatOps F}.
Variable asm : Asm3D.Assembler F.
Hypothesis Hwf : wf3 (Asm3D.base asm).
Hypothesis Hzero : forall i j,
  valid3 (Asm3D.base asm) i -> valid3 (Asm3D.base asm) j ->
  j ∉ neigh3 (Asm3D.base asm) i -> Asm3D.assemble_impl asm i j = f0.

Local Abbreviation b := (Asm3D.base asm).
Local Abbreviation n0 := (Asm3D.ndofs (Asm3D.base asm)).1.1.
Local Abbreviation n1 := (Asm3D.ndofs (Asm3D.base asm)).1.2.
Local Abbreviation n2 := (Asm3D.ndofs (Asm3D.base asm)).2.
Local Abbreviation whole := (triplets3 asm (0, 0, 0) (n0, n1, n2)).

Lemma from_seq3_valid n :
  0 <= n < n0 * n1 * n2 ->
  valid3 b (Asm3D.from_seq b n) /\ Asm3D.to_seq b (Asm3D.from_seq b n) = n.
Proof.
  intros Hn. destruct Hwf as (Hn0 & Hn1 & Hn2 & HN & _).
  pose proof (Z.div_mod n n2 ltac:(lia)) as Hdm.
  pose proof (Z.mod_pos_bound n n2 ltac:(lia)) as Hm.
  assert (0 <= n / n2 < n0 * n1) as Hq.
  { split; [apply Z.div_pos; lia|]. apply Z.div_lt_upper_bound; lia. }
  pose proof (Z.div_mod (n / n2) n1 ltac:(lia)) as Hdm'.
  pose proof (Z.mod_pos_bound (n / n2) n1 ltac:(lia)) as Hm'.
  assert (0 <= n / n2 / n1 < n0) as Hq'.
  { split; [apply Z.div_pos; lia|]. apply Z.div_lt_upper_bound; lia. }
  split.
  - repeat split; cbn [Asm3D.from_seq fst snd]; lia.
  - unfold Asm3D.to_seq, Asm3D.from_seq. cbn [fst snd].
    replace (n / n2 / n1 * n1 + (n / n2) mod n1) with (n / n2) by lia.
    rewrite wrap64_small by lia. lia.
Qed.

Lemma whole3_rows i : i ∈ box3 (0, 0, 0) (n0, n1, n2) <-> valid3 b i.
Proof. rewrite elem_of_box3. unfold valid3. cbn [fst snd]. reflexivity. Qed.

Lemma whole3_upper shape r c :
  0 <= r -> r <= c -> c < n0 * n1 * n2 ->
  sm_get (coo_tocsr shape whole) r c = Asm3D.assemble asm r c.
Proof.
  intros Hr Hrc Hc.
  destruct (from_seq3_valid r ltac:(lia)) as [Hvi Ei].
  destruct (from_seq3_valid c ltac:(lia)) as [Hvj Ej].
  unfold Asm3D.assemble, sm_get.
  set (i := Asm3D.from_seq b r) in *. set (j := Asm3D.from_seq b c) in *.
  destruct (decide (j ∈ neigh3 b i)) as [Hin | Hout].
  - assert (sm_data (coo_tocsr shape whole) !! (r, c)
            = Some (Asm3D.assemble_impl asm i j)) as ->; [|reflexivity].
    apply (lookup_triplets3 asm Hwf); cbn [fst snd]; try lia.
    exists i, j. repeat split; try assumption; try lia.
    + now apply whole3_rows.
    + left. now rewrite Ei, Ej.
  - rewrite (Hzero i j Hvi Hvj Hout).
    destruct (sm_data (coo_tocsr shape whole) !! (r, c)) as [v|] eqn:E;
      [|reflexivity].
    exfalso. apply (lookup_triplets3 asm Hwf) in E; cbn [fst snd]; try lia.
    destruct E as (i' & j' & Hi' & Hj' & Hle & _ & Hpos).
    apply whole3_rows in Hi'.
    pose proof (neigh3_valid asm Hwf i' j' Hi' Hj') as Hvj'.
    destruct Hpos as [E | E]; injection E as Er Ec.
    + assert (i' = i) as -> by (apply (to_seq3_inj asm Hwf); congruence).
      assert (j' = j) as -> by (apply (to_seq3_inj asm Hwf); congruence).
      contradiction.
    + assert (j' = i) as -> by (apply (to_seq3_inj asm Hwf); congruence).
      assert (i' = j) as -> by (apply (to_seq3_inj asm Hwf); congruence).
      assert (i = j) as Eij by (apply (to_seq3_inj asm Hwf); try assumption; lia).
      rewrite Eij in Hj', Hout. contradiction.
Qed.

Lemma whole3_dense shape r c :
  0 <= r < n0 * n1 * n2 -> 0 <= c < n0 * n1 * n2 ->
  sm_get (coo_tocsr shape whole) r c
  = Asm3D.assemble asm (Z.min r c) (Z.max r c).
Proof.
  intros Hr Hc. destruct (decide (r <= c)) as [Hle | Hgt].
  - rewrite Z.min_l, Z.max_r by lia. apply whole3_upper; lia.
  - rewrite Z.min_r, Z.max_l by lia.
    unfold sm_get.
    rewrite (triplets3_symmetric asm Hwf shape (0, 0, 0) (n0, n1, n2))
      by (cbn [fst snd]; lia).
    apply whole3_upper; lia.
Qed.

End Dense3D.

Lemma neigh3_out_gauss b nqp i j :
  wf3 b -> sorted_table (Asm3D.meshsupp b).1.1 ->
  sorted_table (Asm3D.meshsupp b).1.2 -> sorted_table (Asm3D.meshsupp b).2 ->
  valid3 b i -> valid3 b j -> j ∉ neigh3 b i ->
  gauss_range nqp (Asm3D.meshsupp b).1.1 i.1.1 j.1.1 = None
  \/ gauss_range nqp (Asm3D.meshsupp b).1.2 i.1.2 j.1.2 = None
  \/ gauss_range nqp (Asm3D.meshsupp b).2 i.2 j.2 = None.
Proof.
  intros (_ & _ & _ & _ & Hl0 & Hl1 & Hl2) Hs0 Hs1 Hs2
         (Hi0 & Hi1 & Hi2) (Hj0 & Hj1 & Hj2) Hout.
  assert (~ in_joint_support (Asm3D.meshsupp b).1.1 i.1.1 j.1.1
          \/ ~ in_joint_support (Asm3D.meshsupp b).1.2 i.1.2 j.1.2
          \/ ~ in_joint_support (Asm3D.meshsupp b).2 i.2 j.2)
    as [Hn | [Hn | Hn]].
  { unfold neigh3 in Hout. rewrite elem_of_box3 in Hout.
    unfold Asm3D.neigh_j in Hout. cbn [fst snd] in Hout.
    unfold in_joint_support. lia. }
  - left. apply gauss_range_overlaps.
    rewrite joint_support_overlaps in Hn by (try assumption; lia).
    now destruct (overlaps _ _ _).
  - right. left. apply gauss_range_overlaps.
    rewrite joint_support_overlaps in Hn by (try assumption; lia).
    now destruct (overlaps _ _ _).
  - right. right. apply gauss_range_overlaps.
    rewrite joint_support_overlaps in Hn by (try assumption; lia).
    now destruct (overlaps _ _ _).
Qed.


Lemma unit_box_sorted :
  sorted_table UnitBox.two_cells /\ sorted_table UnitBox.one_cell.
Proof.
  unfold sorted_table, left_sorted, right_sorted, supports_nonempty.
  simpl length.
  repeat split; intros j; intros;
    try (assert (Hk : k = 0 \/ k = 1) by lia);
    assert (Hj : j = 0 \/ j = 1) by lia;
    repeat match goal with H : _ \/ _ |- _ => destruct H end; subst;
    vm_compute; try discriminate; try reflexivity; lia.
Qed.


(* ----------------------------------------------------------------- *)
(** *** The entry points *)



Lemma base_init_2d_wf kv0 kv1 :
  kv_wf kv0 -> kv_wf kv1 -> kv_numdofs kv0 * kv_numdofs kv1 < 2 ^ 64 ->
  wf2 (Asm2D.mkBase (Z.max (kv_p kv0) (kv_p kv1) + 1)
         (kv_numdofs kv0, kv_numdofs kv1)
         (mesh_support_idx_all kv0, mesh_support_idx_all kv1)).
Proof.
  intros [H0 L0] [H1 L1] HN. unfold wf2. cbn [Asm2D.ndofs Asm2D.meshsupp fst snd].
  repeat split; assumption.
Qed.


Lemma hat_kv_wf : kv_wf hat_kv.
Proof. unfold kv_wf. cbn. lia. Qed.


Lemma base_init_3d_wf kv0 kv1 kv2 :
  kv_wf kv0 -> kv_wf kv1 -> kv_wf kv2 ->
  kv_numdofs kv0 * kv_numdofs kv1 * kv_numdofs kv2 < 2 ^ 64 ->
  wf3 (Asm3D.mkBase (Z.max (Z.max (kv_p kv0) (kv_p kv1)) (kv_p kv2) + 1)
         (kv_numdofs kv0, kv_numdofs kv1, kv_numdofs kv2)
         (mesh_support_idx_all kv0, mesh_support_idx_all kv1,
          mesh_support_idx_all kv2)).
Proof.
  intros [H0 L0] [H1 L1] [H2 L2] HN. unfold wf3.
  cbn [Asm3D.ndofs Asm3D.meshsupp fst snd]. repeat split; assumption.
Qed.


Lemma unit_box_kvs_wf : Forall kv_wf UnitBox.kvs.
Proof. repeat constructor; cbn; lia. Qed.


(* ----------------------------------------------------------------- *)
(** *** [multi_assemble] *)

Lemma for_range_S {S} (m : nat) (body : Z -> S -> S) s :
  for_range (Z.of_nat (Datatypes.S m)) body s
  = body (Z.of_nat m) (for_range (Z.of_nat m) body s).
Proof.
  unfold for_range.
  replace (Z.of_nat (Datatypes.S m)) with (Z.of_nat m + 1) by lia.
  rewrite seqZ_app by lia. rewrite fold_left_app. reflexivity.
Qed.

Lemma chunk_write {F} (f : Z * Z -> F) (c : list (Z * Z)) (off : nat) mem :
  (off + length c <= length mem)%nat ->
  for_range (shape0 c)
    (fun k mem => <[Z.to_nat (Z.of_nat off + k) := f (get1 (0, 0) c k)]> mem) mem
  = take off mem ++ map f c ++ drop (off + length c) mem.
Proof.
  intros Hlen. unfold shape0.
  assert (forall m : nat, (m <= length c)%nat ->
    for_range (Z.of_nat m)
      (fun k mem => <[Z.to_nat (Z.of_nat off + k) := f (get1 (0, 0) c k)]> mem)
      mem
    = take off mem ++ map f (take m c) ++ drop (off + m) mem) as Hm.
  { induction m as [|m IH]; intros Hmc.
    - rewrite Nat.add_0_r, take_0. cbn [map app]. rewrite take_drop.
      reflexivity.
    - rewrite for_range_S, IH by lia.
      destruct (lookup_lt_is_Some_2 c m ltac:(lia)) as [x Hx].
      destruct (lookup_lt_is_Some_2 mem (off + m) ltac:(lia)) as [y Hy].
      rewrite (take_S_r c m x Hx), map_app. cbn [map].
      rewrite (drop_S mem y (off + m) Hy).
      unfold get1. rewrite Nat2Z.id, Hx. cbn [default].
      replace (Z.to_nat (Z.of_nat off + Z.of_nat m)) with (off + m)%nat by lia.
      rewrite app_assoc.
      rewrite insert_app_r_alt
        by (rewrite length_app, length_take, length_map, length_take; lia).
      rewrite length_app, length_take, length_map, length_take.
      replace (off + m - (off `min` length mem + m `min` length c))%nat
        with 0%nat by lia.
      cbn [insert list_insert].
      rewrite <- !app_assoc. cbn [app].
      now replace (Datatypes.S (off + m)) with (off + Datatypes.S m)%nat by lia. }
  rewrite (Hm (length c)) by lia. now rewrite firstn_all.
Qed.

Lemma chunk_tasks_pos {T} `{Sliceable T} (t : T) k :
  0 <= py_len t -> 0 < k ->
  let s := py_len t / k + 1 in
  chunk_tasks t k
  = inr (map (fun q => py_slice t (q * s) (q * s + s))
             (seqZ 0 ((py_len t + s - 1) / s))).
Proof.
  intros Hn Hk s. unfold chunk_tasks.
  destruct (Z.eqb_spec k 0) as [|_]; [lia|].
  assert (0 <= py_len t / k) by (apply Z.div_pos; lia).
  fold s. destruct (Z.eqb_spec s 0) as [|_]; [lia|].
  unfold range3. destruct (Z.ltb_spec 0 s) as [_|]; [|lia].
  rewrite map_map. f_equal.
  replace (py_len t - 0 + s - 1) with (py_len t + s - 1) by lia.
  apply map_ext. intros q. now rewrite Z.add_0_l.
Qed.

Lemma zip_map_seqZ {B C} (g1 : Z -> B) (g2 : Z -> C) (qs : list Z) :
  zip (map g1 qs) (map g2 qs) = map (fun q => (g1 q, g2 q)) qs.
Proof. induction qs as [|q qs IH]; [reflexivity|]. cbn. now rewrite IH. Qed.

Lemma zip_pool {A B} (self : A) (g : Z -> B) pool :
  Forall (eq self) pool -> forall a cnt, 0 <= cnt ->
  zip pool (map g (seqZ a cnt))
  = map (fun q => (self, g q)) (seqZ a (Z.min (Z.of_nat (length pool)) cnt)).
Proof.
  induction 1 as [|x pool <- _ IH]; intros a cnt Hc.
  - cbn [length zip zip_with]. rewrite Z.min_l by lia. reflexivity.
  - destruct (decide (cnt = 0)) as [-> | Hne].
    + rewrite Z.min_r by lia. reflexivity.
    + rewrite (seqZ_cons a cnt) by lia.
      rewrite (seqZ_cons a (Z.min _ _)) by (cbn [length]; lia).
      cbn [map zip zip_with]. f_equal.
      rewrite (IH (Z.succ a) (Z.pred cnt)) by lia.
      f_equal. f_equal. cbn [length]. lia.
Qed.

Section MultiAssembleSpec.
Context {F : Type} {A : Type}.
Variables mac asc : A -> list (Z * Z) -> MemView -> list F -> list F.
Variable clone : A -> A.
Variable entry : A -> Z * Z -> F.
Hypothesis Hclone : forall a, clone a = a.
Hypothesis Hmac : forall a c (off : nat) len mem,
  (off + length c <= length mem)%nat ->
  mac a c (mkView (Z.of_nat off) len) mem
  = take off mem ++ map (entry a) c ++ drop (off + length c) mem.
Hypothesis Hasc : forall a c (off : nat) len mem,
  (off + length c <= length mem)%nat ->
  asc a c (mkView (Z.of_nat off) len) mem
  = take off mem ++ map (entry a) c ++ drop (off + length c) mem.

Variable self : A.
Variable garbage : Z -> F.
Variable l : list (Z * Z).
Variable s : nat.
Hypothesis Hs : (1 <= s)%nat.

Local Abbreviation n := (length l).
Local Abbreviation mem0 := (np_empty garbage (Z.of_nat (length l))).

(** The buffer after the first [t] chunks. *)
Lemma chunks_written (t : nat) :
  (t * s < n + s)%nat ->
  fold_left
    (fun mem '(asm, (idxchunk, out)) => asc asm idxchunk out mem)
    (map (fun q => (self,
                    (py_slice l (q * Z.of_nat s) (q * Z.of_nat s + Z.of_nat s),
                     py_slice (mkView 0 (Z.of_nat n)) (q * Z.of_nat s)
                       (q * Z.of_nat s + Z.of_nat s))))
         (seqZ 0 (Z.of_nat t)))
    mem0
  = map (entry self) (take (t * s) l)
    ++ map garbage (seqZ (Z.of_nat (Nat.min n (t * s)))
                         (Z.of_nat (n - Nat.min n (t * s)))).
Proof.
  induction t as [|t IH]; intros Ht.
  - cbn [seqZ map fold_left Nat.mul take]. rewrite Nat.min_0_r, Nat.sub_0_r.
    reflexivity.
  - replace (Z.of_nat (S t)) with (Z.of_nat t + 1) by lia.
    rewrite seqZ_app by lia. rewrite map_app, fold_left_app.
    rewrite IH by lia. cbn [seqZ map fold_left].
    replace (seqZ (0 + Z.of_nat t) 1) with [Z.of_nat t]
      by (rewrite Z.add_0_l; reflexivity).
    cbn [map fold_left].
    assert (t * s < n)%nat as Hlt by lia.
    cbn [py_slice list_sliceable MemView_sliceable view_off view_len].
    replace (0 + Z.min (Z.of_nat t * Z.of_nat s) (Z.of_nat n))
      with (Z.of_nat (t * s)) by lia.
    replace (Z.to_nat (Z.of_nat t * Z.of_nat s + Z.of_nat s
                       - Z.of_nat t * Z.of_nat s)) with s by lia.
    replace (Z.to_nat (Z.of_nat t * Z.of_nat s)) with (t * s)%nat by lia.
    rewrite Nat.min_r by lia.
    set (c := take s (drop (t * s) l)).
    assert (length c = Nat.min s (n - t * s)) as Hc
      by (unfold c; rewrite length_take, length_drop; reflexivity).
    rewrite Hasc
      by (rewrite length_app, !length_map, length_take, length_seqZ; lia).
    assert (length (map (entry self) (take (t * s) l)) = (t * s)%nat) as Hl
      by (rewrite length_map, length_take; lia).
    rewrite take_app_length' by (symmetry; exact Hl).
    rewrite drop_app_add' by (symmetry; exact Hl).
    assert (take (S t * s) l = take (t * s) l ++ c) as ->.
    { unfold c. rewrite take_take_drop. f_equal. lia. }
    rewrite map_app, <- app_assoc. f_equal. f_equal.
    rewrite skipn_map. f_equal.
    apply list_eq. intros i. rewrite lookup_drop.
    destruct (decide (i < n - Nat.min n (S t * s))%nat) as [Hi | Hi].
    + rewrite !lookup_seqZ_lt by lia. f_equal. lia.
    + rewrite !lookup_seqZ_ge by lia. reflexivity.
Qed.

End MultiAssembleSpec.

Lemma take_min_length {A} (l : list A) k :
  take (Nat.min (length l) k) l = take k l.
Proof.
  destruct (le_lt_dec (length l) k).
  - rewrite Nat.min_l by lia. now rewrite !firstn_all2 by lia.
  - now rewrite Nat.min_r by lia.
Qed.

Lemma multi_assemble_with_spec {F A}
    (mac asc : A -> list (Z * Z) -> MemView -> list F -> list F)
    (clone : A -> A) (entry : A -> Z * Z -> F)
    num_threads max_workers garbage self pool indices :
  (forall a, clone a = a) ->
  (forall a c (off : nat) len mem,
     (off + length c <= length mem)%nat ->
     mac a c (mkView (Z.of_nat off) len) mem
     = take off mem ++ map (entry a) c ++ drop (off + length c) mem) ->
  (forall a c (off : nat) len mem,
     (off + length c <= length mem)%nat ->
     asc a c (mkView (Z.of_nat off) len) mem
     = take off mem ++ map (entry a) c ++ drop (off + length c) mem) ->
  indices <> [] -> Forall (eq self) pool ->
  let n := length indices in
  let s := Z.to_nat (Z.of_nat n / num_threads + 1) in
  let pool' :=
    if num_threads <=? 1 then pool
    else match pool with
         | [] => self :: map (fun _ => self) (seqZ 1 (max_workers - 1))
         | _ :: _ => pool
         end in
  let m := Nat.min n (length pool' * s) in
  multi_assemble_with mac asc clone num_threads max_workers garbage self pool
    indices
  = inr (pool',
         if num_threads <=? 1 then map (entry self) indices
         else map (entry self) (take m indices)
              ++ map garbage (seqZ (Z.of_nat m) (Z.of_nat (n - m))))
  /\ Forall (eq self) pool'.
Proof.
  intros Hclone Hmac Hasc Hne Hpool.
  destruct indices as [|ij0 rest]; [contradiction|].
  unfold multi_assemble_with.
  assert (1 <= length (ij0 :: rest))%nat as Hn1 by (cbn; lia).
  remember (ij0 :: rest) as indices eqn:El. clear El Hne ij0 rest.
  cbv zeta. unfold shape0.
  set (n := length indices) in *.
  set (s := Z.to_nat (Z.of_nat n / num_threads + 1)).
  destruct (Z.leb_spec num_threads 1) as [Hk | Hk].
  - split; [|assumption]. f_equal. f_equal.
    rewrite (Hmac self indices 0%nat)
      by (unfold np_empty; rewrite length_map, length_seqZ; lia).
    rewrite take_0, drop_ge
      by (unfold np_empty; rewrite length_map, length_seqZ; lia).
    now rewrite app_nil_r.
  - assert (match pool with
            | [] => self :: map (fun _ => clone self) (seqZ 1 (max_workers - 1))
            | _ :: _ => pool
            end
            = match pool with
              | [] => self :: map (fun _ => self) (seqZ 1 (max_workers - 1))
              | _ :: _ => pool
              end) as ->.
    { destruct pool; [|reflexivity]. f_equal.
      apply map_ext. intros _. apply Hclone. }
    set (pool' := match pool with
                  | [] => self :: map (fun _ => self) (seqZ 1 (max_workers - 1))
                  | _ :: _ => pool
                  end).
    assert (Forall (eq self) pool') as Hpool'.
    { unfold pool'. destruct pool; [|assumption]. constructor; [reflexivity|].
      apply Forall_forall. intros x Hx.
      apply (list_elem_of_fmap (fun _ : Z => self)) in Hx.
      destruct Hx as (_ & -> & _). reflexivity. }
    split; [|assumption].
    set (m := Nat.min n (length pool' * s)).
    pose proof (chunk_count_bounds (Z.of_nat n) num_threads ltac:(lia) ltac:(lia))
      as Hcnt. cbv zeta in Hcnt.
    assert (0 <= Z.of_nat n / num_threads) by (apply Z.div_pos; lia).
    rewrite (chunk_tasks_pos indices num_threads)
      by (cbn [py_len list_sliceable]; lia).
    rewrite (chunk_tasks_pos (mkView 0 (Z.of_nat n)) num_threads)
      by (cbn [py_len MemView_sliceable view_len]; lia).
    cbn [py_len list_sliceable MemView_sliceable view_len]. cbv zeta.
    fold n.
    set (sZ := Z.of_nat n / num_threads + 1) in *.
    set (cnt := (Z.of_nat n + sZ - 1) / sZ) in *.
    assert (sZ = Z.of_nat s) as Es by (unfold s; fold sZ; lia).
    rewrite zip_map_seqZ, (zip_pool self _ pool' Hpool') by lia.
    set (t := Z.to_nat (Z.min (Z.of_nat (length pool')) cnt)).
    replace (Z.min (Z.of_nat (length pool')) cnt) with (Z.of_nat t)
      by (unfold t; lia).
    rewrite Es.
    pose proof (chunks_written asc entry Hasc self garbage indices s
                  ltac:(lia) t ltac:(fold n; nia)) as Ew.
    fold n in Ew. rewrite Ew. f_equal. f_equal.
    destruct (decide (length pool' <= Z.to_nat cnt)%nat) as [Hle | Hgt].
    + assert (t = length pool') as -> by (unfold t; lia).
      unfold m, n. now rewrite take_min_length.
    + assert (t = Z.to_nat cnt) as -> by (unfold t; lia).
      assert (n <= Z.to_nat cnt * s)%nat by nia.
      assert (n <= length pool' * s)%nat by nia.
      unfold m. rewrite !Nat.min_l by lia.
      rewrite !firstn_all2 by lia. reflexivity.
Qed.

Lemma multi_assemble_chunk_2d_write {F} `{FloatOps F}
    (a : Asm2D.Assembler F) c (off : nat) len mem :
  (off + length c <= length mem)%nat ->
  Multi2D.multi_assemble_chunk a c (mkView (Z.of_nat off) len) mem
  = take off mem ++ map (fun ij => Asm2D.assemble a ij.1 ij.2) c
    ++ drop (off + length c) mem.
Proof.
  intros Hlen.
  exact (chunk_write (fun ij => Asm2D.assemble a ij.1 ij.2) c off mem Hlen).
Qed.

Lemma multi_assemble_chunk_3d_write {F} `{FloatOps F}
    (a : Asm3D.Assembler F) c (off : nat) len mem :
  (off + length c <= length mem)%nat ->
  Multi3D.multi_assemble_chunk a c (mkView (Z.of_nat off) len) mem
  = take off mem ++ map (fun ij => Asm3D.assemble a ij.1 ij.2) c
    ++ drop (off + length c) mem.
Proof.
  intros Hlen.
  exact (chunk_write (fun ij => Asm3D.assemble a ij.1 ij.2) c off mem Hlen).
Qed.

Lemma pool_covers n k L :
  (1 <= n)%nat -> 1 < k -> k <= Z.of_nat L ->
  (n <= L * Z.to_nat (Z.of_nat n / k + 1))%nat.
Proof.
  intros Hn Hk HL.
  assert (0 <= Z.of_nat n / k) by (apply Z.div_pos; lia).
  pose proof (Z.div_mod (Z.of_nat n) k ltac:(lia)).
  pose proof (Z.mod_pos_bound (Z.of_nat n) k ltac:(lia)).
  nia.
Qed.

(** X13: [multi_assemble] of a 2D assembler on a non-empty list of index
    pairs returns, with one thread, the array of [assemble(i, j)] for the
    pairs in order.  With more threads the pool's [map] pairs chunks with
    the assemblers of [_asm_pool] and stops at the shorter sequence: the
    first [m] entries are the values of [assemble] and the rest of the
    array is what [np.empty] left there, [m] being what the pool covers;
    with at least as many assemblers in the pool as threads all entries
    are computed, whatever [np.empty] returned. *)
Theorem multi_assemble_2d_spec {F} `{FloatOps F} (self : Asm2D.Assembler F)
    num_threads max_workers garbage pool indices :
  indices <> [] -> Forall (eq self) pool ->
  let n := length indices in
  let s := Z.to_nat (Z.of_nat n / num_threads + 1) in
  let entry := fun ij : Z * Z => Asm2D.assemble self ij.1 ij.2 in
  exists pool' res,
    Multi2D.multi_assemble num_threads max_workers garbage self pool indices
    = inr (pool', res)
    /\ Forall (eq self) pool'
    /\ (pool = [] -> 1 < num_threads ->
        Z.of_nat (length pool') = Z.max 1 max_workers)
    /\ (num_threads <= 1 -> res = map entry indices)
    /\ (1 < num_threads ->
        let m := Nat.min n (length pool' * s) in
        res = map entry (take m indices)
              ++ map garbage (seqZ (Z.of_nat m) (Z.of_nat (n - m))))
    /\ (1 < num_threads -> num_threads <= Z.of_nat (length pool') ->
        res = map entry indices).
Proof.
  intros Hne Hpool n s entry.
  destruct (multi_assemble_with_spec
              Multi2D.multi_assemble_chunk Multi2D._asm_chunk_2d
              Asm2D.shared_clone (fun a ij => Asm2D.assemble a ij.1 ij.2)
              num_threads max_workers garbage self pool indices
              (fun a => eq_refl)
              multi_assemble_chunk_2d_write multi_assemble_chunk_2d_write
              Hne Hpool) as [E Hall].
  cbv zeta in E, Hall. fold n s entry in E.
  eexists _, _. split; [exact E|]. split; [exact Hall|].
  destruct (Z.leb_spec num_threads 1) as [Hk | Hk].
  - repeat split; intros; try lia; reflexivity.
  - split; [|split; [|split]]; try (intros; lia).
    + intros -> _. cbn [length]. rewrite length_map, length_seqZ. lia.
    + intros _. reflexivity.
    + intros _ Hcover.
      pose proof (pool_covers n num_threads _ ltac:(
        destruct indices; [contradiction|cbn; lia]) Hk Hcover) as Hc.
      fold s in Hc. rewrite Nat.min_l by exact Hc.
      unfold n. rewrite firstn_all, Nat.sub_diag.
      apply app_nil_r.
Qed.

Lemma multi_assemble_2d_spec_witness :
  let self := Asm2D.MassAssembler2D_asm UnitSquare.mass in
  let garbage := fun _ : Z => PrimFloat.nan in
  let indices := [(0, 0); (2, 5); (4, 4)] in
  let n := length indices in
  let s := Z.to_nat (Z.of_nat n / 2 + 1) in
  let entry := fun ij : Z * Z => Asm2D.assemble self ij.1 ij.2 in
  exists pool' res,
    Multi2D.multi_assemble 2 2 garbage self [] indices = inr (pool', res)
    /\ Forall (eq self) pool'
    /\ (([] : list (Asm2D.Assembler PrimFloat.float)) = [] -> 1 < 2 ->
        Z.of_nat (length pool') = Z.max 1 2)
    /\ (2 <= 1 -> res = map entry indices)
    /\ (1 < 2 ->
        let m := Nat.min n (length pool' * s) in
        res = map entry (take m indices)
              ++ map garbage (seqZ (Z.of_nat m) (Z.of_nat (n - m))))
    /\ (1 < 2 -> 2 <= Z.of_nat (length pool') -> res = map entry indices).
Proof.
  apply (multi_assemble_2d_spec (Asm2D.MassAssembler2D_asm UnitSquare.mass)
           2 2 (fun _ : Z => PrimFloat.nan) [] [(0, 0); (2, 5); (4, 4)]).
  - discriminate.
  - constructor.
Defined.

(** X14: the same for [multi_assemble] of a 3D assembler. *)
Theorem multi_assemble_3d_spec {F} `{FloatOps F} (self : Asm3D.Assembler F)
    num_threads max_workers garbage pool indices :
  indices <> [] -> Forall (eq self) pool ->
  let n := length indices in
  let s := Z.to_nat (Z.of_nat n / num_threads + 1) in
  let entry := fun ij : Z * Z => Asm3D.assemble self ij.1 ij.2 in
  exists pool' res,
    Multi3D.multi_assemble num_threads max_workers garbage self pool indices
    = inr (pool', res)
    /\ Forall (eq self) pool'
    /\ (pool = [] -> 1 < num_threads ->
        Z.of_nat (length pool') = Z.max 1 max_workers)
    /\ (num_threads <= 1 -> res = map entry indices)
    /\ (1 < num_threads ->
        let m := Nat.min n (length pool' * s) in
        res = map entry (take m indices)
              ++ map garbage (seqZ (Z.of_nat m) (Z.of_nat (n - m))))
    /\ (1 < num_threads -> num_threads <= Z.of_nat (length pool') ->
        res = map entry indices).
Proof.
  intros Hne Hpool n s entry.
  destruct (multi_assemble_with_spec
              Multi3D.multi_assemble_chunk Multi3D._asm_chunk_3d
              Asm3D.shared_clone (fun a ij => Asm3D.assemble a ij.1 ij.2)
              num_threads max_workers garbage self pool indices
              (fun a => eq_refl)
              multi_assemble_chunk_3d_write multi_assemble_chunk_3d_write
              Hne Hpool) as [E Hall].
  cbv zeta in E, Hall. fold n s entry in E.
  eexists _, _. split; [exact E|]. split; [exact Hall|].
  destruct (Z.leb_spec num_threads 1) as [Hk | Hk].
  - repeat split; intros; try lia; reflexivity.
  - split; [|split; [|split]]; try (intros; lia).
    + intros -> _. cbn [length]. rewrite length_map, length_seqZ. lia.
    + intros _. reflexivity.
    + intros _ Hcover.
      pose proof (pool_covers n num_threads _ ltac:(
        destruct indices; [contradiction|cbn; lia]) Hk Hcover) as Hc.
      fold s in Hc. rewrite Nat.min_l by exact Hc.
      unfold n. rewrite firstn_all, Nat.sub_diag.
      apply app_nil_r.
Qed.

Lemma multi_assemble_3d_spec_witness :
  let self := Asm3D.MassAssembler3D_asm UnitBox.mass in
  let garbage := fun _ : Z => PrimFloat.nan in
  let indices := [(0, 0); (1, 3); (2, 2)] in
  let n := length indices in
  let s := Z.to_nat (Z.of_nat n / 3 + 1) in
  let entry := fun ij : Z * Z => Asm3D.assemble self ij.1 ij.2 in
  exists pool' res,
    Multi3D.multi_assemble 3 2 garbage self [] indices = inr (pool', res)
    /\ Forall (eq self) pool'
    /\ (([] : list (Asm3D.Assembler PrimFloat.float)) = [] -> 1 < 3 ->
        Z.of_nat (length pool') = Z.max 1 2)
    /\ (3 <= 1 -> res = map entry indices)
    /\ (1 < 3 ->
        let m := Nat.min n (length pool' * s) in
        res = map entry (take m indices)
              ++ map garbage (seqZ (Z.of_nat m) (Z.of_nat (n - m))))
    /\ (1 < 3 -> 3 <= Z.of_nat (length pool') -> res = map entry indices).
Proof.
  apply (multi_assemble_3d_spec (Asm3D.MassAssembler3D_asm UnitBox.mass)
           3 2 (fun _ : Z => PrimFloat.nan) [] [(0, 0); (1, 3); (2, 2)]).
  - discriminate.
  - constructor.
Defined.

(* ----------------------------------------------------------------- *)
(** *** Determinants, inverses and [matmatT] *)


Lemma Forall2_map_self {A B} (P : A -> B -> Prop) (f : A -> B) (l : list A) :
  Forall (fun x => P x (f x)) l -> Forall2 P l (map f l).
Proof. induction 1; constructor; assumption. Qed.

Section ExactField.
Context {K : Type} {ops : FloatOps K}.
Hypothesis Kth :
  field_theory f0 f1 fadd fmul fsub fneg fdiv (fun x => fdiv f1 x) (@eq K).

Add Field exact_field : Kth.

Lemma det_and_inv_2x2_at_inverse (X : Mat2 K) :
  det_2x2 X <> f0 -> inverse_of2 X (det_and_inv_2x2_at X).2.
Proof.
  destruct X as [a b c d]. unfold det_2x2. cbn [m00 m01 m10 m11]. intros Hdet.
  unfold inverse_of2, mat2_mul, id2, det_and_inv_2x2_at.
  cbn [m00 m01 m10 m11 fst snd].
  split; f_equal; field; exact Hdet.
Qed.

Lemma det_and_inv_3x3_at_inverse (X : Mat3 K) :
  det_3x3 X <> f0 -> inverse_of3 X (det_and_inv_3x3_at X).2.
Proof.
  destruct X as [a b c d e f g h i]. unfold det_3x3.
  cbn [x00 x01 x02 x10 x11 x12 x20 x21 x22]. intros Hdet.
  unfold inverse_of3, mat3_mul, row_col3, id3, det_and_inv_3x3_at, det_3x3.
  cbn [x00 x01 x02 x10 x11 x12 x20 x21 x22 fst snd].
  split; f_equal; field; exact Hdet.
Qed.

(** X16: in exact arithmetic, where no determinant of the input is zero,
    [det_and_inv_2x2] returns the determinants [a*d - b*c] and, for every
    matrix of the grid, its inverse: the product with the input is the
    identity on both sides.  [inverses_2x2] returns the same inverses. *)
Theorem det_and_inv_2x2_inverse (X : Grid2 (Mat2 K)) :
  Forall (Forall (fun M => det_2x2 M <> f0)) X ->
  (det_and_inv_2x2 X).1 = map (map det_2x2) X
  /\ Forall2 (Forall2 inverse_of2) X (det_and_inv_2x2 X).2
  /\ Forall2 (Forall2 inverse_of2) X (inverses_2x2 X).
Proof.
  intros Hdet. split; [reflexivity|].
  assert (Forall2 (Forall2 inverse_of2) X (det_and_inv_2x2 X).2) as Hinv.
  { cbn [det_and_inv_2x2 snd]. apply Forall2_map_self.
    eapply Forall_impl; [exact Hdet|]. intros row Hrow.
    apply Forall2_map_self.
    eapply Forall_impl; [exact Hrow|]. intros M HM.
    now apply det_and_inv_2x2_at_inverse. }
  split; [exact Hinv|]. exact Hinv.
Qed.

(** X17: in exact arithmetic, where no determinant of the input is zero,
    [det_and_inv_3x3] returns the determinants and, for every matrix of
    the grid, its inverse on both sides; [inverses_3x3] returns the same
    inverses. *)
Theorem det_and_inv_3x3_inverse (X : Grid3 (Mat3 K)) :
  Forall (Forall (Forall (fun M => det_3x3 M <> f0))) X ->
  (det_and_inv_3x3 X).1 = map (map (map det_3x3)) X
  /\ Forall2 (Forall2 (Forall2 inverse_of3)) X (det_and_inv_3x3 X).2
  /\ Forall2 (Forall2 (Forall2 inverse_of3)) X (inverses_3x3 X).
Proof.
  intros Hdet. split; [reflexivity|].
  assert (Forall2 (Forall2 (Forall2 inverse_of3)) X (det_and_inv_3x3 X).2)
    as Hinv.
  { cbn [det_and_inv_3x3 snd]. apply Forall2_map_self.
    eapply Forall_impl; [exact Hdet|]. intros plane Hplane.
    apply Forall2_map_self.
    eapply Forall_impl; [exact Hplane|]. intros row Hrow.
    apply Forall2_map_self.
    eapply Forall_impl; [exact Hrow|]. intros M HM.
    now apply det_and_inv_3x3_at_inverse. }
  split; [exact Hinv|]. exact Hinv.
Qed.

End ExactField.

#[local] Existing Instance exactQc.

Lemma exactQc_field :
  @field_theory Qcanon.Qc f0 f1 fadd fmul fsub fneg fdiv
    (fun x => fdiv f1 x) (@eq Qcanon.Qc).
Proof.
  pose proof Qcanon.Qcft as T.
  assert (forall q : Qcanon.Qc,
            Qcanon.Qcdiv (Qcanon.Q2Qc (QArith_base.Qmake 1 1)) q
            = Qcanon.Qcinv q) as Einv.
  { intros q. unfold Qcanon.Qcdiv. apply Qcanon.Qcmult_1_l. }
  constructor; cbn [f0 f1 fadd fmul fsub fneg fdiv exactQc].
  - apply T.
  - apply T.
  - intros p q. rewrite Einv. apply (Field_theory.Fdiv_def T).
  - intros p Hp. rewrite Einv. now apply (Field_theory.Finv_l T).
Qed.

Lemma det_and_inv_2x2_inverse_witness :
  let X : Grid2 (Mat2 Qcanon.Qc) :=
    [[mkMat2 (Qc_of_Z 2) (Qc_of_Z 1) (Qc_of_Z 1) (Qc_of_Z 1)]] in
  (det_and_inv_2x2 X).1 = map (map det_2x2) X
  /\ Forall2 (Forall2 inverse_of2) X (det_and_inv_2x2 X).2
  /\ Forall2 (Forall2 inverse_of2) X (inverses_2x2 X).
Proof.
  apply (det_and_inv_2x2_inverse exactQc_field).
  repeat constructor. intros E.
  apply (f_equal Qcanon.this) in E. vm_compute in E. discriminate.
Defined.

Lemma det_and_inv_3x3_inverse_witness :
  let X : Grid3 (Mat3 Qcanon.Qc) :=
    [[[mkMat3 (Qc_of_Z 2) (Qc_of_Z 0) (Qc_of_Z 1)
              (Qc_of_Z 1) (Qc_of_Z 1) (Qc_of_Z 0)
              (Qc_of_Z 0) (Qc_of_Z 3) (Qc_of_Z 1)]]] in
  (det_and_inv_3x3 X).1 = map (map (map det_3x3)) X
  /\ Forall2 (Forall2 (Forall2 inverse_of3)) X (det_and_inv_3x3 X).2
  /\ Forall2 (Forall2 (Forall2 inverse_of3)) X (inverses_3x3 X).
Proof.
  apply (det_and_inv_3x3_inverse exactQc_field).
  repeat constructor. intros E.
  apply (f_equal Qcanon.this) in E. vm_compute in E. discriminate.
Defined.

Section ExactRing.
Context {R : Type} {ops : FloatOps R}.
Hypothesis Rth : ring_theory f0 f1 fadd fmul fsub fneg (@eq R).

Add Ring exact_ring_matmatT : Rth.

(** X18: in exact arithmetic [matmatT_2x2] and [matmatT_3x3] return, for
    every matrix [B] of the grid, the product of [B] with its transpose,
    which is a symmetric matrix. *)
Theorem matmatT_is_B_Bt :
  (forall B : Grid2 (Mat2 R),
     matmatT_2x2 B = map (map (fun M => mat2_mul M (transpose2 M))) B
     /\ Forall (Forall sym2) (matmatT_2x2 B))
  /\ (forall B : Grid3 (Mat3 R),
        matmatT_3x3 B = map (map (map (fun M => mat3_mul M (transpose3 M)))) B
        /\ Forall (Forall (Forall sym3)) (matmatT_3x3 B)).
Proof.
  assert (forall M : Mat2 R, matmatT_2x2_at M = mat2_mul M (transpose2 M)) as E2.
  { intros [a b c d]. unfold matmatT_2x2_at, dot2, mat2_mul, transpose2.
    cbn [m00 m01 m10 m11]. f_equal; ring. }
  assert (forall M : Mat3 R, matmatT_3x3_at M = mat3_mul M (transpose3 M)) as E3.
  { intros [a b c d e f g h i].
    unfold matmatT_3x3_at, dot3, mat3_mul, row_col3, transpose3.
    cbn [x00 x01 x02 x10 x11 x12 x20 x21 x22]. f_equal; ring. }
  split; intros B; split.
  - unfold matmatT_2x2. apply map_ext. intros row. apply map_ext. exact E2.
  - unfold matmatT_2x2. apply Forall_forall. intros row Hrow.
    apply (list_elem_of_fmap (map matmatT_2x2_at)) in Hrow as (r & -> & _).
    apply Forall_forall. intros M HM.
    apply (list_elem_of_fmap matmatT_2x2_at) in HM as (M0 & -> & _).
    destruct M0 as [a b c d]. unfold sym2, matmatT_2x2_at, dot2.
    cbn [m00 m01 m10 m11]. ring.
  - unfold matmatT_3x3. apply map_ext. intros plane. apply map_ext.
    intros row. apply map_ext. exact E3.
  - unfold matmatT_3x3. apply Forall_forall. intros plane Hplane.
    apply (list_elem_of_fmap (map (map matmatT_3x3_at))) in Hplane
      as (p & -> & _).
    apply Forall_forall. intros row Hrow.
    apply (list_elem_of_fmap (map matmatT_3x3_at)) in Hrow as (r & -> & _).
    apply Forall_forall. intros M HM.
    apply (list_elem_of_fmap matmatT_3x3_at) in HM as (M0 & -> & _).
    destruct M0 as [a b c d e f g h i]. unfold sym3, matmatT_3x3_at, dot3.
    cbn [x00 x01 x02 x10 x11 x12 x20 x21 x22]. repeat split; ring.
Qed.

End ExactRing.

Lemma matmatT_is_B_Bt_witness :
  let B : Grid2 (Mat2 Z) := [[mkMat2 1 2 3 4]] in
  @matmatT_2x2 Z exactZ B
  = map (map (fun M => @mat2_mul Z exactZ M (transpose2 M))) B
  /\ Forall (Forall sym2) (@matmatT_2x2 Z exactZ B).
Proof.
  apply (proj1 (@matmatT_is_B_Bt Z exactZ InitialRing.Zth)).
Defined.

(* ----------------------------------------------------------------- *)
(** *** [MatrixEntryAccumulator]: several calls of [process] *)

Section AccumulatorCalls.
Context {F : Type} `{FloatOps F}.

Lemma process_row_inv (acc acc' : MatrixEntryAccumulator F) row v :
  process_row acc row v = Some acc' ->
  num_indices acc' = num_indices acc
  /\ length (_result acc') = length (_result acc)
  /\ length (old_indices acc') = length (old_indices acc)
  /\ idx acc <= idx acc' <= idx acc + 1
  /\ 0 <= idx acc' < Z.of_nat (length (_result acc')).
Proof.
  destruct acc as [i num res old].
  unfold process_row, index_changed. cbn [idx num_indices _result old_indices].
  destruct (tuple_differs num row old).
  - unfold result_write. cbn [idx num_indices _result old_indices].
    destruct (Z.leb_spec 0 (i + 1)); cbn [andb]; [|discriminate].
    destruct (Z.ltb_spec (i + 1) (Z.of_nat (length res))); [|discriminate].
    intros [= <-]. cbn [idx num_indices _result old_indices].
    rewrite length_insert, adopt_tuple_length. lia.
  - unfold result_read, result_write. cbn [idx num_indices _result old_indices].
    destruct (Z.leb_spec 0 i); cbn [andb]; [|discriminate].
    destruct (Z.ltb_spec i (Z.of_nat (length res))); [|discriminate].
    destruct (res !! Z.to_nat i); [|discriminate].
    intros [= <-]. cbn [idx num_indices _result old_indices].
    rewrite length_insert. lia.
Qed.

(** X19: two calls of [process], on [indices1], [values1] and then on
    [indices2], [values2], leave the accumulator as one call on the
    concatenated input does, and fail when that call fails: the input can
    be fed in batches, and a run of equal index tuples may continue from
    one batch into the next. *)
Theorem process_app (acc : MatrixEntryAccumulator F)
    indices1 values1 indices2 values2 :
  length indices1 = length values1 ->
  process acc (indices1 ++ indices2) (values1 ++ values2)
  = process acc indices1 values1 ≫= fun acc' => process acc' indices2 values2.
Proof.
  revert acc values1.
  induction indices1 as [|row indices1 IH]; intros acc values1 Hlen.
  - destruct values1; [|discriminate Hlen]. reflexivity.
  - destruct values1 as [|v values1]; [discriminate Hlen|].
    cbn [app process].
    destruct (process_row acc row v) as [acc1|]; [|reflexivity].
    apply IH. now injection Hlen.
Qed.

(** X20: a call of [process] that stays inside its buffers never changes
    [num_indices], the size of the result buffer or of [old_indices];
    [idx] does not decrease and grows by at most one per row; and after a
    non-empty input [idx] is the index of an entry of the buffer. *)
Theorem process_invariants indices : forall values
    (acc acc' : MatrixEntryAccumulator F),
  process acc indices values = Some acc' ->
  num_indices acc' = num_indices acc
  /\ length (_result acc') = length (_result acc)
  /\ length (old_indices acc') = length (old_indices acc)
  /\ idx acc <= idx acc' <= idx acc + Z.of_nat (length indices)
  /\ (indices <> [] -> 0 <= idx acc' < Z.of_nat (length (_result acc'))).
Proof.
  induction indices as [|row indices IH]; intros values acc acc' Hp.
  - cbn [process] in Hp. injection Hp as <-. cbn [length].
    split; [|split; [|split; [|split]]]; try reflexivity; try lia.
    intros Hne. contradiction.
  - destruct values as [|v values]; [discriminate Hp|].
    cbn [process] in Hp.
    destruct (process_row acc row v) as [acc1|] eqn:Hrow; [|discriminate Hp].
    destruct (process_row_inv acc acc1 row v Hrow)
      as (Hn1 & Hr1 & Ho1 & Hi1 & Hb1).
    destruct (IH values acc1 acc' Hp) as (Hn & Hr & Ho & Hi & Hb).
    cbn [length].
    split; [|split; [|split; [|split]]]; try congruence; try lia.
    intros _. destruct indices as [|row' indices'].
    + cbn [process] in Hp. injection Hp as <-. lia.
    + apply Hb. discriminate.
Qed.

End AccumulatorCalls.

Lemma process_app_witness :
  process fresh_2_3 ([[1; 2]; [1; 2]] ++ [[1; 2]; [3; 4]])
    ([1.5; 2.25] ++ [0.5; 4])%float
  = process fresh_2_3 [[1; 2]; [1; 2]] [1.5; 2.25]%float
    ≫= fun acc' => process acc' [[1; 2]; [3; 4]] [0.5; 4]%float.
Proof.
  apply (process_app fresh_2_3 [[1; 2]; [1; 2]] [1.5; 2.25]%float
           [[1; 2]; [3; 4]] [0.5; 4]%float).
  reflexivity.
Defined.

Lemma process_invariants_witness :
  let acc' := mkAccumulator 1 2 [3.75; 4; 0]%float
                (adopt_tuple 2 [3; 4] (adopt_tuple 2 [1; 2]
                   (replicate 16 SENTINEL))) in
  num_indices acc' = num_indices fresh_2_3
  /\ length (_result acc') = length (_result fresh_2_3)
  /\ length (old_indices acc') = length (old_indices fresh_2_3)
  /\ idx fresh_2_3 <= idx acc' <= idx fresh_2_3 + Z.of_nat 3
  /\ ([[1; 2]; [1; 2]; [3; 4]] <> [] ->
      0 <= idx acc' < Z.of_nat (length (_result acc'))).
Proof.
  apply (process_invariants [[1; 2]; [1; 2]; [3; 4]] [1.5; 2.25; 4]%float
           fresh_2_3).
  vm_compute. reflexivity.
Defined.

(* ----------------------------------------------------------------- *)
(** *** [chunk_tasks]: edge cases and sequences other than ranges *)

(** X21: [chunk_tasks] with [num_chunks = 0] raises [ZeroDivisionError];
    with a negative [num_chunks] it yields no chunk at all, and raises
    [ValueError] (a [range] of step 0) when there are between 1 and
    [-num_chunks] tasks; with a positive [num_chunks] and no task it
    yields no chunk. *)
Theorem chunk_tasks_edges {T} `{Sliceable T} (tasks : T) :
  0 <= py_len tasks ->
  chunk_tasks tasks 0 = inl ZeroDivisionError
  /\ (forall k, k < 0 ->
        (0 < py_len tasks <= - k -> chunk_tasks tasks k = inl ValueError)
        /\ (py_len tasks = 0 \/ - k < py_len tasks ->
            chunk_tasks tasks k = inr []))
  /\ (forall k, 0 < k -> py_len tasks = 0 -> chunk_tasks tasks k = inr []).
Proof.
  intros Hlen. split; [reflexivity|]. split.
  - intros k Hk. unfold chunk_tasks.
    destruct (Z.eqb_spec k 0) as [|_]; [lia|].
    set (n := py_len tasks) in *.
    pose proof (Z.div_mod n k ltac:(lia)) as Hdm.
    pose proof (Z.mod_neg_bound n k Hk) as Hm.
    split.
    + intros Hn. assert (n / k = -1) as -> by nia. reflexivity.
    + intros [Hn | Hn].
      * rewrite Hn. cbn. reflexivity.
      * assert (n / k + 1 < 0) as Hneg by nia.
        destruct (Z.eqb_spec (n / k + 1) 0) as [|_]; [lia|].
        unfold range3. destruct (Z.ltb_spec 0 (n / k + 1)) as [|_]; [lia|].
        set (s := n / k + 1) in *.
        assert ((0 - n - s - 1) / - s <= 0) as Hq.
        { apply Z.lt_succ_r. apply Z.div_lt_upper_bound; lia. }
        unfold seqZ. replace (Z.to_nat ((0 - n - s - 1) / - s)) with 0%nat by lia.
        reflexivity.
  - intros k Hk Hn. unfold chunk_tasks.
    destruct (Z.eqb_spec k 0) as [|_]; [lia|].
    rewrite Hn. rewrite Z.div_0_l by lia. cbn. reflexivity.
Qed.

Lemma chunk_tasks_edges_witness :
  chunk_tasks (range_it 3) 0 = inl ZeroDivisionError
  /\ (forall k, k < 0 ->
        (0 < py_len (range_it 3) <= - k ->
         chunk_tasks (range_it 3) k = inl ValueError)
        /\ (py_len (range_it 3) = 0 \/ - k < py_len (range_it 3) ->
            chunk_tasks (range_it 3) k = inr []))
  /\ (forall k, 0 < k -> py_len (range_it 3) = 0 ->
        chunk_tasks (range_it 3) k = inr []).
Proof.
  apply (chunk_tasks_edges (range_it 3)). vm_compute. discriminate.
Defined.

Lemma concat_slices {A} (l : list A) (s t : nat) :
  concat (map (fun q => take s (drop (q * s) l)) (seq 0 t)) = take (t * s) l.
Proof.
  induction t as [|t IH]; [reflexivity|].
  rewrite seq_S, map_app, concat_app, IH. cbn [map concat Nat.add].
  rewrite app_nil_r, take_take_drop. f_equal. lia.
Qed.

(** X22: for a positive [num_chunks], [chunk_tasks] cuts a list (or an
    array, as [multi_assemble] hands over) into at most [num_chunks]
    consecutive pieces: chunk [q] holds the [s] elements from position
    [q * s] on, [s = len(tasks) // num_chunks + 1], the last chunk what is
    left; no chunk is empty and their concatenation is the list. *)
Theorem chunk_tasks_list {A} (l : list A) k :
  0 < k ->
  let s := Z.to_nat (Z.of_nat (length l) / k + 1) in
  exists chunks,
    chunk_tasks l k = inr chunks
    /\ concat chunks = l
    /\ Z.of_nat (length chunks) <= k
    /\ (forall (q : nat) c, chunks !! q = Some c ->
          c = take s (drop (q * s) l) /\ (1 <= length c <= s)%nat).
Proof.
  intros Hk s.
  pose proof (chunk_count_bounds (Z.of_nat (length l)) k ltac:(lia) Hk) as Hcnt.
  cbv zeta in Hcnt.
  assert (0 <= Z.of_nat (length l) / k) by (apply Z.div_pos; lia).
  set (sZ := Z.of_nat (length l) / k + 1) in *.
  set (cnt := (Z.of_nat (length l) + sZ - 1) / sZ) in *.
  assert (sZ = Z.of_nat s) as Es by (unfold s; lia).
  assert (chunk_tasks l k
          = inr (map (fun q => take s (drop (q * s) l)) (seq 0 (Z.to_nat cnt))))
    as E.
  { rewrite (chunk_tasks_pos l k) by (cbn [py_len list_sliceable]; lia).
    cbn [py_len list_sliceable py_slice]. cbv zeta. fold sZ. fold cnt.
    f_equal. unfold seqZ. rewrite <- list_fmap_compose.
    apply map_ext. intros q. cbn [compose]. rewrite Es. f_equal; [lia|].
    f_equal. lia. }
  eexists. split; [exact E|]. split; [|split].
  - rewrite concat_slices. apply firstn_all2. nia.
  - rewrite length_map, length_seq. lia.
  - intros q c Hq. rewrite list_lookup_fmap in Hq.
    destruct (seq 0 (Z.to_nat cnt) !! q) as [q'|] eqn:Eq; [|discriminate Hq].
    apply lookup_seq in Eq as [-> Hlt]. cbn in Hq. injection Hq as <-.
    split; [reflexivity|].
    rewrite length_take, length_drop. nia.
Qed.

Lemma chunk_tasks_list_witness :
  let l := [10; 11; 12; 13; 14] in
  let s := Z.to_nat (Z.of_nat (length l) / 3 + 1) in
  exists chunks,
    chunk_tasks l 3 = inr chunks
    /\ concat chunks = l
    /\ Z.of_nat (length chunks) <= 3
    /\ (forall (q : nat) c, chunks !! q = Some c ->
          c = take s (drop (q * s) l) /\ (1 <= length c <= s)%nat).
Proof.
  apply (chunk_tasks_list [10; 11; 12; 13; 14] 3). lia.
Defined.

(* ----------------------------------------------------------------- *)
(** *** [prepare_tile_indices3] *)

Lemma elem_of_concat_map {A B} (f : A -> list B) (l : list A) (x : B) :
  x ∈ concat (map f l) <-> exists y, y ∈ l /\ x ∈ f y.
Proof.
  induction l as [|a l IH]; cbn [map concat].
  - split; [intros Hx; inversion Hx|].
    intros (y & Hy & _). inversion Hy.
  - rewrite elem_of_app, IH. split.
    + intros [Hx | (y & Hy & Hx)].
      * exists a. split; [left|exact Hx].
      * exists y. split; [now right|exact Hx].
    + intros (y & Hy & Hx). apply elem_of_cons in Hy as [-> | Hy].
      * now left.
      * right. now exists y.
Qed.

Lemma as_int_Some z : - 2 ^ 31 <= z < 2 ^ 31 -> as_int z = Some z.
Proof.
  intros Hz. unfold as_int.
  destruct (Z.leb_spec (- 2 ^ 31) z); [|lia].
  destruct (Z.ltb_spec z (2 ^ 31)); [reflexivity|lia].
Qed.

Lemma supp_at_Some (meshsupp_r : SuppTable) i :
  int_table meshsupp_r ->
  0 <= i < Z.of_nat (length meshsupp_r) ->
  supp_at meshsupp_r i = Some (supp_intv meshsupp_r i).
Proof.
  intros Hint Hi.
  destruct (lookup_lt_is_Some_2 meshsupp_r (Z.to_nat i) ltac:(lia))
    as [row Hrow].
  assert (- 2 ^ 31 <= row.1 < 2 ^ 31 /\ - 2 ^ 31 <= row.2 < 2 ^ 31)
    as [Ha Hb].
  { unfold int_table in Hint. rewrite Forall_forall in Hint. apply Hint.
    eapply list_elem_of_lookup_2. exact Hrow. }
  unfold supp_at, supp_intv, supp0, supp1, supp_row, SuppTable in *.
  rewrite Hrow. cbn [mbind option_bind default].
  rewrite (as_int_Some _ Ha), (as_int_Some _ Hb). reflexivity.
Qed.

Lemma elem_of_tile_rows I J intvs (row : list Z) :
  row ∈ tile_rows I J intvs
  <-> exists t : Z * Z * Z,
        (intv_a intvs.1.1 <= t.1.1 < intv_b intvs.1.1
         /\ intv_a intvs.1.2 <= t.1.2 < intv_b intvs.1.2
         /\ intv_a intvs.2 <= t.2 < intv_b intvs.2)
        /\ row = map wrap32 [I.1.1; I.1.2; I.2; J.1.1; J.1.2; J.2;
                             t.1.1; t.1.2; t.2].
Proof.
  unfold tile_rows. split.
  - intros Hrow.
    apply list_elem_of_bind in Hrow as (t0 & Hrow & H0).
    apply list_elem_of_bind in Hrow as (t1 & Hrow & H1).
    apply list_elem_of_bind in Hrow as (t2 & Hrow & H2).
    apply list_elem_of_singleton in Hrow.
    apply elem_of_seqZ in H0, H1, H2.
    exists (t0, t1, t2). cbn [fst snd]. split; [lia|exact Hrow].
  - intros ([[t0 t1] t2] & Ht & ->). cbn [fst snd] in Ht.
    apply list_elem_of_bind. exists t0. split; [|apply elem_of_seqZ; lia].
    apply list_elem_of_bind. exists t1. split; [|apply elem_of_seqZ; lia].
    apply list_elem_of_bind. exists t2. split; [|apply elem_of_seqZ; lia].
    apply list_elem_of_singleton. reflexivity.
Qed.

Lemma from_seq3_Some n numdofs :
  0 < numdofs.1.2 -> 0 < numdofs.2 ->
  0 <= n < numdofs.1.1 * numdofs.1.2 * numdofs.2 ->
  let I := (n / numdofs.2 / numdofs.1.2, (n / numdofs.2) mod numdofs.1.2,
            n mod numdofs.2) in
  from_seq3 n numdofs = Some I
  /\ 0 <= I.1.1 < numdofs.1.1 /\ 0 <= I.1.2 < numdofs.1.2
  /\ 0 <= I.2 < numdofs.2.
Proof.
  intros Hn1 Hn2 Hn I. unfold from_seq3.
  destruct (Z.eqb_spec numdofs.2 0); [lia|].
  destruct (Z.eqb_spec numdofs.1.2 0); [lia|].
  pose proof (Z.mod_pos_bound n numdofs.2 Hn2).
  pose proof (Z.mod_pos_bound (n / numdofs.2) numdofs.1.2 Hn1).
  assert (0 <= n / numdofs.2 < numdofs.1.1 * numdofs.1.2).
  { split; [apply Z.div_pos; lia|]. apply Z.div_lt_upper_bound; lia. }
  assert (0 <= n / numdofs.2 / numdofs.1.2 < numdofs.1.1).
  { split; [apply Z.div_pos; lia|]. apply Z.div_lt_upper_bound; lia. }
  split; [reflexivity|]. unfold I. cbn [fst snd]. lia.
Qed.

Lemma entry_tiles_Some (meshsupp : SuppTable * SuppTable * SuppTable)
    numdofs ij I J :
  int_table meshsupp.1.1 -> int_table meshsupp.1.2 -> int_table meshsupp.2 ->
  Z.of_nat (length meshsupp.1.1) = numdofs.1.1 ->
  Z.of_nat (length meshsupp.1.2) = numdofs.1.2 ->
  Z.of_nat (length meshsupp.2) = numdofs.2 ->
  (0 <= I.1.1 < numdofs.1.1 /\ 0 <= I.1.2 < numdofs.1.2
   /\ 0 <= I.2 < numdofs.2) ->
  (0 <= J.1.1 < numdofs.1.1 /\ 0 <= J.1.2 < numdofs.1.2
   /\ 0 <= J.2 < numdofs.2) ->
  from_seq3 ij.1 numdofs = Some I -> from_seq3 ij.2 numdofs = Some J ->
  entry_tiles meshsupp numdofs ij
  = Some (tile_rows I J (joint_intervals meshsupp I J)).
Proof.
  intros Hi0 Hi1 Hi2 Hl0 Hl1 Hl2 HI HJ EI EJ. unfold entry_tiles.
  rewrite EI, EJ. cbn [mbind option_bind].
  unfold joint_tiles.
  rewrite (supp_at_Some meshsupp.1.1 I.1.1 Hi0),
    (supp_at_Some meshsupp.1.1 J.1.1 Hi0),
    (supp_at_Some meshsupp.1.2 I.1.2 Hi1),
    (supp_at_Some meshsupp.1.2 J.1.2 Hi1),
    (supp_at_Some meshsupp.2 I.2 Hi2), (supp_at_Some meshsupp.2 J.2 Hi2)
    by (unfold SuppTable in *; lia).
  reflexivity.
Qed.

Lemma elem_of_joint_rows (meshsupp : SuppTable * SuppTable * SuppTable)
    I J (row : list Z) :
  row ∈ tile_rows I J (joint_intervals meshsupp I J)
  <-> exists t, in_joint_tiles meshsupp I J t
        /\ row = map wrap32 [I.1.1; I.1.2; I.2; J.1.1; J.1.2; J.2;
                             t.1.1; t.1.2; t.2].
Proof.
  rewrite elem_of_tile_rows. unfold joint_intervals, in_joint_tiles, in_support.
  cbn [fst snd intersect_intervals intv_a intv_b supp_intv].
  split; intros (t & Ht & Hrow); exists t; (split; [lia|exact Hrow]).
Qed.

(** X23: for positive dof counts, support tables of C integers with a row
    per dof and linear indices below [N], [prepare_tile_indices3] returns
    rows of nine numbers, and a row is returned exactly when it consists
    of the multi-indices of the two dofs of an entry of [ij_arr] followed
    by a tile of their joint support; if no entry has such a tile, the
    result is empty and the cast in the last line raises. *)
Theorem prepare_tile_indices3_rows ij_arr
    (meshsupp : SuppTable * SuppTable * SuppTable) numdofs :
  let N := numdofs.1.1 * numdofs.1.2 * numdofs.2 in
  0 < numdofs.1.2 -> 0 < numdofs.2 -> N <= 2 ^ 64 ->
  int_table meshsupp.1.1 -> int_table meshsupp.1.2 -> int_table meshsupp.2 ->
  Z.of_nat (length meshsupp.1.1) = numdofs.1.1 ->
  Z.of_nat (length meshsupp.1.2) = numdofs.1.2 ->
  Z.of_nat (length meshsupp.2) = numdofs.2 ->
  Forall (fun ij => 0 <= ij.1 < N /\ 0 <= ij.2 < N) ij_arr ->
  ((exists ij row, ij ∈ ij_arr /\ tile_row_of meshsupp numdofs ij row) ->
   exists rows,
     prepare_tile_indices3 ij_arr meshsupp numdofs = Some rows
     /\ Forall (fun row => length row = 9%nat) rows
     /\ forall row,
          row ∈ rows
          <-> exists ij, ij ∈ ij_arr /\ tile_row_of meshsupp numdofs ij row)
  /\ (~ (exists ij row, ij ∈ ij_arr /\ tile_row_of meshsupp numdofs ij row) ->
      prepare_tile_indices3 ij_arr meshsupp numdofs = None).
Proof.
  intros N Hn1 Hn2 _ Hi0 Hi1 Hi2 Hl0 Hl1 Hl2 Hij.
  set (multi := fun n : Z =>
         (n / numdofs.2 / numdofs.1.2, (n / numdofs.2) mod numdofs.1.2,
          n mod numdofs.2)).
  set (block := fun ij : Z * Z =>
         tile_rows (multi ij.1) (multi ij.2)
           (joint_intervals meshsupp (multi ij.1) (multi ij.2))).
  assert (forall n, 0 <= n < N ->
            from_seq3 n numdofs = Some (multi n)
            /\ 0 <= (multi n).1.1 < numdofs.1.1
            /\ 0 <= (multi n).1.2 < numdofs.1.2
            /\ 0 <= (multi n).2 < numdofs.2) as Hmulti.
  { intros n Hn. apply (from_seq3_Some n numdofs Hn1 Hn2 Hn). }
  assert (mapM (entry_tiles meshsupp numdofs) ij_arr = Some (block <$> ij_arr))
    as Emap.
  { apply mapM_Some_fmap. intros ij Hin.
    rewrite Forall_forall in Hij. destruct (Hij ij Hin) as [Hi Hj].
    destruct (Hmulti ij.1 Hi) as [EI HI]. destruct (Hmulti ij.2 Hj) as [EJ HJ].
    apply (entry_tiles_Some meshsupp numdofs ij _ _ Hi0 Hi1 Hi2 Hl0 Hl1 Hl2
             HI HJ EI EJ). }
  assert (forall row, row ∈ concat (map block ij_arr)
            <-> exists ij, ij ∈ ij_arr /\ tile_row_of meshsupp numdofs ij row)
    as Hmem.
  { intros row. rewrite elem_of_concat_map.
    split; intros (ij & Hin & Hrow); exists ij; (split; [exact Hin|]);
      rewrite Forall_forall in Hij; destruct (Hij ij Hin) as [Hi Hj];
      destruct (Hmulti ij.1 Hi) as [EI _]; destruct (Hmulti ij.2 Hj) as [EJ _].
    - apply elem_of_joint_rows in Hrow as (t & Ht & ->).
      exists (multi ij.1), (multi ij.2), t.
      split; [exact EI|split; [exact EJ|split; [exact Ht|reflexivity]]].
    - destruct Hrow as (I & J & t & HI & HJ & Ht & ->).
      rewrite EI in HI. rewrite EJ in HJ.
      injection HI as <-. injection HJ as <-.
      apply elem_of_joint_rows. now exists t. }
  unfold prepare_tile_indices3. rewrite Emap. cbn [mbind option_bind].
  change (block <$> ij_arr) with (map block ij_arr).
  split.
  - intros (ij & row & Hin & Hrow).
    assert (row ∈ concat (map block ij_arr)) as Hne
      by (apply Hmem; now exists ij).
    destruct (concat (map block ij_arr)) as [|r0 rest] eqn:Eres;
      [inversion Hne|].
    eexists. split; [reflexivity|]. split; [|exact Hmem].
    apply Forall_forall. intros r Hr. apply Hmem in Hr as (ij' & _ & Hr).
    destruct Hr as (I & J & t & _ & _ & _ & ->). reflexivity.
  - intros Hnone.
    destruct (concat (map block ij_arr)) as [|r0 rest] eqn:Eres;
      [reflexivity|].
    exfalso. apply Hnone.
    destruct (proj1 (Hmem r0) ltac:(left)) as (ij & Hin & Hrow).
    now exists ij, r0.
Qed.

Lemma prepare_tile_indices3_rows_witness :
  let meshsupp := (UnitBox.two_cells, UnitBox.one_cell, UnitBox.two_cells) in
  let ij_arr := [(0, 0); (1, 3)] in
  ((exists ij row, ij ∈ ij_arr /\ tile_row_of meshsupp (2, 1, 2) ij row) ->
   exists rows,
     prepare_tile_indices3 ij_arr meshsupp (2, 1, 2) = Some rows
     /\ Forall (fun row => length row = 9%nat) rows
     /\ forall row,
          row ∈ rows
          <-> exists ij, ij ∈ ij_arr /\ tile_row_of meshsupp (2, 1, 2) ij row)
  /\ (~ (exists ij row, ij ∈ ij_arr /\ tile_row_of meshsupp (2, 1, 2) ij row) ->
      prepare_tile_indices3 ij_arr meshsupp (2, 1, 2) = None).
Proof.
  apply (prepare_tile_indices3_rows [(0, 0); (1, 3)]
           (UnitBox.two_cells, UnitBox.one_cell, UnitBox.two_cells) (2, 1, 2)).
  - simpl. lia.
  - simpl. lia.
  - simpl. lia.
  - repeat constructor; simpl; lia.
  - repeat constructor; simpl; lia.
  - repeat constructor; simpl; lia.
  - reflexivity.
  - reflexivity.
  - reflexivity.
  - repeat constructor; simpl; lia.
Defined.

(* ----------------------------------------------------------------- *)
(** *** Loops that update an array in place *)

Lemma for_range_opt_Some {S} n (body : Z -> S -> option S)
    (pure : Z -> S -> S) s :
  (forall k s, 0 <= k < n -> body k s = Some (pure k s)) ->
  for_range_opt n body s = Some (for_range n pure s).
Proof.
  intros Hb. unfold for_range_opt, for_range.
  assert (Forall (fun k => 0 <= k < n) (seqZ 0 n)) as Hall
    by (apply Forall_forall; intros k Hk; apply elem_of_seqZ in Hk; lia).
  revert s. induction Hall as [|k l Hk _ IH]; intros s; [reflexivity|].
  cbn [fold_left mbind option_bind]. rewrite (Hb k s Hk). apply IH.
Qed.

Lemma for_range_opt_None {S} n (body : Z -> S -> option S) k0 s :
  0 <= k0 < n -> (forall s, body k0 s = None) ->
  for_range_opt n body s = None.
Proof.
  intros Hk Hnone. unfold for_range_opt.
  replace n with (k0 + (1 + (n - k0 - 1))) by lia.
  rewrite !seqZ_app by lia. rewrite !fold_left_app.
  replace (seqZ (0 + k0) 1) with [k0] by (rewrite Z.add_0_l; reflexivity).
  cbn [fold_left].
  destruct (fold_left _ (seqZ 0 k0) (Some s)) as [s'|]; cbn [mbind option_bind];
    [rewrite Hnone|]; apply fold_bind_None.
Qed.

(** A loop over the positions of a list that rewrites position [k] from
    its old content. *)
Lemma for_range_imap {A} (d : A) (g : nat -> A -> A) (L : list A)
    (body : Z -> list A -> list A) :
  (forall (t : nat) L', (t < length L)%nat -> length L' = length L ->
     L' !! t = L !! t ->
     body (Z.of_nat t) L' = <[t := g t (get1 d L (Z.of_nat t))]> L') ->
  for_range (Z.of_nat (length L)) body L = imap g L.
Proof.
  intros Hbody.
  assert (forall t : nat, (t <= length L)%nat ->
            for_range (Z.of_nat t) body L = imap g (take t L) ++ drop t L) as Ht.
  { induction t as [|t IH]; intros Hle.
    - rewrite take_0, drop_0. reflexivity.
    - rewrite for_range_S, IH by lia.
      destruct (lookup_lt_is_Some_2 L t ltac:(lia)) as [x Hx].
      assert (length (imap g (take t L)) = t) as Hl
        by (rewrite length_imap, length_take; lia).
      rewrite Hbody; [|lia| |].
      + unfold get1. rewrite Nat2Z.id, Hx. cbn [default].
        rewrite (drop_S L x t Hx).
        rewrite insert_app_r_alt by lia. rewrite Hl, Nat.sub_diag.
        cbn [insert list_insert]. rewrite (take_S_r L t x Hx), imap_app.
        rewrite <- app_assoc. cbn [imap app]. rewrite length_take.
        do 3 f_equal. lia.
      + rewrite length_app, Hl, length_drop. lia.
      + rewrite lookup_app_r by lia. rewrite Hl, Nat.sub_diag.
        rewrite lookup_drop, Nat.add_0_r. reflexivity. }
  rewrite Ht by lia. now rewrite firstn_all, drop_all, app_nil_r.
Qed.

(** A loop that only rewrites component [i] of a list. *)
Lemma for_range_component {A} (d : A) (i : nat) (q : Z -> A -> A) (m : nat)
    (body : Z -> list A -> list A) (X : list A) :
  (i < length X)%nat ->
  (forall k X', length X' = length X ->
     body k X' = <[i := q k (get1 d X' (Z.of_nat i))]> X') ->
  for_range (Z.of_nat m) body X
  = <[i := for_range (Z.of_nat m) q (get1 d X (Z.of_nat i))]> X.
Proof.
  intros Hi Hbody. induction m as [|m IH].
  - unfold for_range. cbn [Z.of_nat seqZ fold_left].
    unfold get1. rewrite Nat2Z.id.
    destruct (lookup_lt_is_Some_2 X i Hi) as [x Hx]. rewrite Hx. cbn [default].
    symmetry. now apply list_insert_id.
  - rewrite !for_range_S, IH, Hbody by apply length_insert.
    unfold get1 at 1. rewrite Nat2Z.id.
    rewrite list_lookup_insert_eq by exact Hi. cbn [default].
    now rewrite list_insert_insert_eq.
Qed.

Lemma row_loop {A} (d : A) (h : Z -> A -> A) (r : list A) :
  for_range (Z.of_nat (length r))
    (fun k r => <[Z.to_nat k := h k (get1 d r k)]> r) r
  = imap (fun k x => h (Z.of_nat k) x) r.
Proof.
  apply (for_range_imap d (fun k x => h (Z.of_nat k) x)).
  intros t L' Ht Hlen Hlook. rewrite Nat2Z.id. unfold get1.
  now rewrite Nat2Z.id, Hlook.
Qed.

Lemma grid_loop {A} (d : A) (h : Z -> Z -> A -> A) (P : Grid2 A) (m2 : nat) :
  rect2 m2 P ->
  for_range (Z.of_nat (length P))
    (fun j P =>
       for_range (Z.of_nat m2)
         (fun k P => set2 P j k (h j k (get2 d P j k))) P) P
  = imap (fun j row => imap (fun k x => h (Z.of_nat j) (Z.of_nat k) x) row) P.
Proof.
  intros Hrect.
  apply (for_range_imap []
           (fun j row => imap (fun k x => h (Z.of_nat j) (Z.of_nat k) x) row)).
  intros t L' Ht Hlen Hlook.
  rewrite (for_range_component [] t
             (fun k row => <[Z.to_nat k := h (Z.of_nat t) k (get1 d row k)]> row));
    [|lia|].
  - f_equal.
    assert (get1 [] L' (Z.of_nat t) = get1 [] P (Z.of_nat t)) as ->
      by (unfold get1; now rewrite Nat2Z.id, Hlook).
    destruct (lookup_lt_is_Some_2 P t Ht) as [r Hr].
    assert (get1 [] P (Z.of_nat t) = r) as ->
      by (unfold get1; now rewrite Nat2Z.id, Hr).
    assert (length r = m2) as <-.
    { unfold rect2 in Hrect. rewrite Forall_forall in Hrect. apply Hrect.
      eapply list_elem_of_lookup_2. exact Hr. }
    apply row_loop.
  - intros k X' _. unfold set2, get2. now rewrite Nat2Z.id.
Qed.

Lemma shape1_rect2 {A} (X : Grid2 A) m :
  rect2 m X -> X <> [] -> shape1 X = Z.of_nat m.
Proof.
  intros Hrect. destruct X as [|r X']; [contradiction|]. intros _.
  cbn [shape1]. f_equal. now inversion Hrect.
Qed.

Lemma rank_1_update_Some {F} `{FloatOps F} (X : Grid2 F) alpha u v m :
  rect2 m X ->
  (length X <= length u)%nat -> X = [] \/ (m <= length v)%nat ->
  rank_1_update X alpha u v
  = Some (imap (fun i row => imap (rank_1_entry alpha u v i) row) X).
Proof.
  intros Hrect Hu Hv. unfold rank_1_update.
  destruct (decide (X = [])) as [-> | Hne]; [reflexivity|].
  destruct Hv as [? | Hv]; [contradiction|].
  rewrite (shape1_rect2 X m Hrect Hne).
  rewrite (for_range_opt_Some _ _
             (fun i X =>
                for_range (Z.of_nat m)
                  (fun j X =>
                     set2 X i j
                       (fadd (get2 f0 X i j)
                             (fmul (fmul alpha (get1 f0 u i)) (get1 f0 v j))))
                  X)).
  - f_equal. unfold shape0.
    apply (grid_loop f0
             (fun i j x =>
                fadd x (fmul (fmul alpha (get1 f0 u i)) (get1 f0 v j)))).
    exact Hrect.
  - intros i X' Hi. unfold shape0 in Hi.
    destruct (lookup_lt_is_Some_2 u (Z.to_nat i) ltac:(lia)) as [ui Hui].
    rewrite Hui. cbn [mbind option_bind].
    apply for_range_opt_Some. intros j X'' Hj.
    destruct (lookup_lt_is_Some_2 v (Z.to_nat j) ltac:(lia)) as [vj Hvj].
    rewrite Hvj. cbn [mbind option_bind]. unfold get1. now rewrite Hui, Hvj.
Qed.



Lemma cube_loop {A} (d : A) (h : Z -> Z -> Z -> A -> A) (X : Grid3 A)
    (m1 m2 : nat) :
  rect3 m1 m2 X ->
  for_range (Z.of_nat (length X))
    (fun i X =>
       for_range (Z.of_nat m1)
         (fun j X =>
            for_range (Z.of_nat m2)
              (fun k X => set3 X i j k (h i j k (get3 d X i j k))) X) X) X
  = imap (fun i plane =>
            imap (fun j row =>
                    imap (fun k x => h (Z.of_nat i) (Z.of_nat j) (Z.of_nat k) x)
                         row) plane) X.
Proof.
  intros Hrect.
  apply (for_range_imap []
           (fun i plane =>
              imap (fun j row =>
                      imap (fun k x =>
                              h (Z.of_nat i) (Z.of_nat j) (Z.of_nat k) x) row)
                   plane)).
  intros t L' Ht Hlen Hlook.
  rewrite (for_range_component [] t
             (fun j plane =>
                for_range (Z.of_nat m2)
                  (fun k plane =>
                     set2 plane j k (h (Z.of_nat t) j k (get2 d plane j k)))
                  plane));
    [|lia|].
  - f_equal.
    assert (get1 [] L' (Z.of_nat t) = get1 [] X (Z.of_nat t)) as ->
      by (unfold get1; now rewrite Nat2Z.id, Hlook).
    destruct (lookup_lt_is_Some_2 X t Ht) as [p Hp].
    assert (get1 [] X (Z.of_nat t) = p) as ->
      by (unfold get1; now rewrite Nat2Z.id, Hp).
    assert (length p = m1 /\ rect2 m2 p) as [<- Hp2].
    { unfold rect3 in Hrect. rewrite Forall_forall in Hrect. apply Hrect.
      eapply list_elem_of_lookup_2. exact Hp. }
    apply (grid_loop d (h (Z.of_nat t))). exact Hp2.
  - intros j X' Hlen'.
    apply (for_range_component [] t
             (fun k plane =>
                set2 plane j k (h (Z.of_nat t) j k (get2 d plane j k))));
      [lia|].
    intros k X'' _. unfold set3, get3, get2. now rewrite Nat2Z.id.
Qed.

(** A slab [X[:, j, :]] of an array of rank 3. *)
Lemma slab_imap {A} (g : nat -> nat -> nat -> A -> A) (X : Grid3 A)
    (m1 m2 : nat) (j : nat) :
  rect3 m1 m2 X -> (j < m1)%nat ->
  map (fun plane => get1 [] plane (Z.of_nat j))
      (imap (fun i plane => imap (fun j row => imap (g i j) row) plane) X)
  = imap (fun i row => imap (g i j) row)
         (map (fun plane => get1 [] plane (Z.of_nat j)) X).
Proof.
  intros Hrect Hj. unfold Grid3, Grid2 in *. apply list_eq. intros i.
  rewrite list_lookup_fmap, !list_lookup_imap, list_lookup_fmap.
  destruct (X !! i) as [p|] eqn:Hp; [|reflexivity]. cbn [fmap option_fmap option_map].
  f_equal.
  assert (length p = m1) as Hlen.
  { unfold rect3 in Hrect. rewrite Forall_forall in Hrect.
    apply (Hrect p). eapply list_elem_of_lookup_2. exact Hp. }
  unfold get1. rewrite Nat2Z.id, list_lookup_imap.
  destruct (lookup_lt_is_Some_2 p j ltac:(lia)) as [r Hr]. rewrite Hr.
  reflexivity.
Qed.

(** X25: [aca3d_update] of an array with planes of shape [(m1, m2)]
    computes [X[i,j,k] + (alpha * u[i]) * V[j,k]] in every entry, provided
    [u] has an entry for every plane and [V] has at least the shape of a
    plane; every slab [X[:, j, :]] of the result is then what
    [rank_1_update] computes from the slab and the row [V[j]]. *)
Theorem aca3d_update_spec {F} `{FloatOps F} (X : Grid3 F) alpha u V m1 m2 :
  rect3 m1 m2 X -> (length X <= length u)%nat ->
  (m1 <= length V)%nat -> Forall (fun row => (m2 <= length row)%nat) V ->
  exists X',
    aca3d_update X alpha u V = Some X'
    /\ X' = imap (fun i plane =>
                    imap (fun j row => imap (aca3d_entry alpha u V i j) row)
                         plane) X
    /\ forall j : nat, (j < m1)%nat ->
         rank_1_update (map (fun plane => get1 [] plane (Z.of_nat j)) X)
           alpha u (get1 [] V (Z.of_nat j))
         = Some (map (fun plane => get1 [] plane (Z.of_nat j)) X').
Proof.
  intros Hrect Hu HV1 HV2. eexists. split; [|split; [reflexivity|]].
  - unfold aca3d_update.
    destruct X as [|p0 X0] eqn:EX; [reflexivity|]. rewrite <- EX in *.
    assert (length p0 = m1 /\ rect2 m2 p0) as [Hp0 Hr0].
    { rewrite EX in Hrect. now inversion Hrect. }
    assert (shape1 X = Z.of_nat m1) as ->
      by (rewrite EX; cbn [shape1]; now rewrite Hp0).
    assert (0 < m1 -> shape2 X = Z.of_nat m2)%nat as Hs2.
    { intros Hm. rewrite EX. cbn [shape2]. destruct p0 as [|r0 p0'].
      - cbn [length] in Hp0. lia.
      - cbn [shape1]. f_equal. now inversion Hr0. }
    destruct (decide (m1 = 0%nat)) as [Hm0 | Hm0].
    + (* planes without rows: nothing is read or written *)
      rewrite Hm0.
      rewrite (for_range_opt_Some _ _ (fun i X => X)).
      * f_equal. unfold shape0, for_range.
        assert (forall (l : list Z) (Y : Grid3 F),
                  fold_left (fun s _ => s) l Y = Y) as Hid
          by (induction l; intros; [reflexivity|cbn; auto]).
        rewrite Hid. symmetry. unfold Grid3, Grid2 in *.
        apply list_eq. intros i. rewrite list_lookup_imap.
        destruct (X !! i) as [p|] eqn:Hp; [|reflexivity].
        cbn [fmap option_fmap option_map]. f_equal.
        assert (length p = 0%nat) as Hl.
        { unfold rect3 in Hrect. rewrite Forall_forall in Hrect.
          rewrite <- Hm0. apply (Hrect p). eapply list_elem_of_lookup_2.
          exact Hp. }
        destruct p; [reflexivity|discriminate Hl].
      * intros i X' Hi. unfold shape0 in Hi.
        destruct (lookup_lt_is_Some_2 u (Z.to_nat i) ltac:(lia)) as [ui ->].
        reflexivity.
    + rewrite Hs2 by lia.
      rewrite (for_range_opt_Some _ _
                 (fun i X =>
                    for_range (Z.of_nat m1)
                      (fun j X =>
                         for_range (Z.of_nat m2)
                           (fun k X =>
                              set3 X i j k
                                (fadd (get3 f0 X i j k)
                                      (fmul (fmul alpha (get1 f0 u i))
                                            (get2 f0 V j k)))) X) X)).
      * f_equal. unfold shape0.
        apply (cube_loop f0
                 (fun i j k x =>
                    fadd x (fmul (fmul alpha (get1 f0 u i)) (get2 f0 V j k)))).
        exact Hrect.
      * intros i X' Hi. unfold shape0 in Hi.
        destruct (lookup_lt_is_Some_2 u (Z.to_nat i) ltac:(lia)) as [ui Hui].
        rewrite Hui. cbn [mbind option_bind].
        apply for_range_opt_Some. intros j X'' Hj.
        apply for_range_opt_Some. intros k X''' Hk.
        unfold Grid2 in *.
        destruct (lookup_lt_is_Some_2 V (Z.to_nat j) ltac:(lia)) as [row Hrow].
        assert (m2 <= length row)%nat as Hlen.
        { rewrite Forall_forall in HV2. apply HV2.
          eapply list_elem_of_lookup_2. exact Hrow. }
        destruct (lookup_lt_is_Some_2 row (Z.to_nat k) ltac:(lia)) as [x Hx].
        rewrite Hrow. cbn [mbind option_bind]. rewrite Hx.
        cbn [mbind option_bind]. unfold get2, get1.
        rewrite Hui, Hrow. change (default [] (Some row)) with row.
        now rewrite Hx.
  - intros j Hj.
    assert (rect2 m2 (map (fun plane => get1 [] plane (Z.of_nat j)) X)) as Hslab.
    { unfold rect2. apply Forall_fmap, Forall_forall. intros p Hp.
      unfold rect3 in Hrect. rewrite Forall_forall in Hrect.
      destruct (Hrect p Hp) as [Hl Hr]. cbn [compose].
      destruct (lookup_lt_is_Some_2 p j ltac:(lia)) as [r Hrw].
      unfold get1. rewrite Nat2Z.id, Hrw. cbn [default].
      unfold rect2 in Hr. rewrite Forall_forall in Hr. apply Hr.
      eapply list_elem_of_lookup_2. exact Hrw. }
    rewrite (rank_1_update_Some
               (map (fun plane => get1 [] plane (Z.of_nat j)) X) alpha u
               (get1 [] V (Z.of_nat j)) m2 Hslab).
    + f_equal. symmetry.
      exact (slab_imap (aca3d_entry alpha u V) X m1 m2 j Hrect Hj).
    + now rewrite length_map.
    + right.
      unfold Grid2 in *.
      destruct (lookup_lt_is_Some_2 V j ltac:(lia)) as [row Hrow].
      unfold get1. rewrite Nat2Z.id, Hrow. cbn [default].
      rewrite Forall_forall in HV2. apply HV2.
      eapply list_elem_of_lookup_2. exact Hrow.
Qed.

Lemma aca3d_update_spec_witness :
  let X := [[[1; 2]; [3; 4]]; [[5; 6]; [7; 8]]]%float in
  let u := [1; 2]%float in
  let V := [[1; 0]; [0; 1]]%float in
  exists X',
    aca3d_update X 0.5%float u V = Some X'
    /\ X' = imap (fun i plane =>
                    imap (fun j row =>
                            imap (aca3d_entry 0.5%float u V i j) row)
                         plane) X
    /\ forall j : nat, (j < 2)%nat ->
         rank_1_update (map (fun plane => get1 [] plane (Z.of_nat j)) X)
           0.5%float u (get1 [] V (Z.of_nat j))
         = Some (map (fun plane => get1 [] plane (Z.of_nat j)) X').
Proof.
  apply (aca3d_update_spec [[[1; 2]; [3; 4]]; [[5; 6]; [7; 8]]]%float
           0.5%float [1; 2]%float [[1; 0]; [0; 1]]%float 2 2).
  - repeat constructor.
  - simpl. lia.
  - simpl. lia.
  - repeat constructor.
Defined.

Lemma imap_from_list {A B} (d : B) (g : B -> A) (xs : list B) (l : list A) :
  length l = length xs ->
  imap (fun i _ => g (get1 d xs (Z.of_nat i))) l = map g xs.
Proof.
  intros Hlen. apply list_eq. intros i.
  rewrite list_lookup_imap, list_lookup_fmap. unfold get1. rewrite Nat2Z.id.
  destruct (xs !! i) as [x|] eqn:Hx.
  - destruct (lookup_lt_is_Some_2 l i) as [y ->]; [|reflexivity].
    rewrite Hlen. eapply lookup_lt_Some. exact Hx.
  - rewrite (lookup_ge_None_2 l i); [reflexivity|].
    rewrite Hlen. now apply lookup_ge_None_1.
Qed.

(** X26: on an output array of the shape of the product, [outer_prod]
    leaves [x1[i] * x2[j]] in every entry and [outer_prod3] leaves
    [(x1[i] * x2[j]) * x3[k]], whatever the array held before. *)
Theorem outer_prod_spec {F} `{FloatOps F} (x1 x2 x3 : list F) :
  (forall out : Grid2 F,
     length out = length x1 -> rect2 (length x2) out ->
     outer_prod x1 x2 out = map (fun a => map (fun b => fmul a b) x2) x1)
  /\ (forall out : Grid3 F,
        length out = length x1 -> rect3 (length x2) (length x3) out ->
        outer_prod3 x1 x2 x3 out
        = map (fun a => map (fun b => map (fun c => fmul (fmul a b) c) x3) x2)
              x1).
Proof.
  split.
  - intros out Hlen Hrect. unfold outer_prod, shape0. rewrite <- Hlen.
    rewrite (grid_loop f0
               (fun i j _ => fmul (get1 f0 x1 i) (get1 f0 x2 j)) out
               (length x2) Hrect).
    apply list_eq. intros i.
    rewrite list_lookup_imap, list_lookup_fmap. unfold Grid2 in *.
    destruct (out !! i) as [row|] eqn:Hrow.
    + destruct (lookup_lt_is_Some_2 x1 i) as [a Ha];
        [rewrite <- Hlen; eapply lookup_lt_Some; exact Hrow|].
      rewrite Ha. cbn [fmap option_fmap option_map]. f_equal.
      unfold get1 at 1. rewrite Nat2Z.id, Ha. cbn [default].
      apply (imap_from_list f0 (fun b => fmul a b)).
      unfold rect2 in Hrect. rewrite Forall_forall in Hrect. apply Hrect.
      eapply list_elem_of_lookup_2. exact Hrow.
    + rewrite (lookup_ge_None_2 x1 i); [reflexivity|].
      rewrite <- Hlen. now apply lookup_ge_None_1.
  - intros out Hlen Hrect. unfold outer_prod3, shape0. rewrite <- Hlen.
    rewrite (cube_loop f0
               (fun i j k _ =>
                  fmul (fmul (get1 f0 x1 i) (get1 f0 x2 j)) (get1 f0 x3 k))
               out (length x2) (length x3) Hrect).
    apply list_eq. intros i.
    rewrite list_lookup_imap, list_lookup_fmap. unfold Grid3, Grid2 in *.
    destruct (out !! i) as [plane|] eqn:Hplane.
    + destruct (lookup_lt_is_Some_2 x1 i) as [a Ha];
        [rewrite <- Hlen; eapply lookup_lt_Some; exact Hplane|].
      rewrite Ha. cbn [fmap option_fmap option_map]. f_equal.
      unfold get1 at 1. rewrite Nat2Z.id, Ha. cbn [default].
      assert (length plane = length x2 /\ rect2 (length x3) plane) as [Hl Hr].
      { unfold rect3 in Hrect. rewrite Forall_forall in Hrect. apply Hrect.
        eapply list_elem_of_lookup_2. exact Hplane. }
      apply list_eq. intros j.
      rewrite list_lookup_imap, list_lookup_fmap.
      destruct (plane !! j) as [row|] eqn:Hrow.
      * destruct (lookup_lt_is_Some_2 x2 j) as [b Hb];
          [rewrite <- Hl; eapply lookup_lt_Some; exact Hrow|].
        rewrite Hb. cbn [fmap option_fmap option_map]. f_equal.
        unfold get1 at 1. rewrite Nat2Z.id, Hb. cbn [default].
        apply (imap_from_list f0 (fun c => fmul (fmul a b) c)).
        unfold rect2 in Hr. rewrite Forall_forall in Hr. apply Hr.
        eapply list_elem_of_lookup_2. exact Hrow.
      * rewrite (lookup_ge_None_2 x2 j); [reflexivity|].
        rewrite <- Hl. now apply lookup_ge_None_1.
    + rewrite (lookup_ge_None_2 x1 i); [reflexivity|].
      rewrite <- Hlen. now apply lookup_ge_None_1.
Qed.

Lemma outer_prod_spec_witness :
  outer_prod [1; 2]%float [3; 4; 5]%float
    [[0; 0; 0]; [7; 7; 7]]%float
  = map (fun a => map (fun b => PrimFloat.mul a b) [3; 4; 5]%float)
        [1; 2]%float.
Proof.
  exact (proj1 (outer_prod_spec (H := binary64)
                  [1; 2]%float [3; 4; 5]%float [])
               [[0; 0; 0]; [7; 7; 7]]%float eq_refl
               ltac:(repeat constructor)).
Defined.
